(** * menpofit.fitter: perturbed alignments, multi-scale fitting and
      perturbation generation

    A shallow embedding of [menpofit/fitter.py].

    - Python floats are idealised as exact rationals in canonical form
      ([Qc], whose equality is Leibniz equality); rounding is not modelled.
    - Python exceptions are values of [exn]; a computation returns a
      [result] together with the state it leaves behind, so that what an
      aborted call has already mutated stays visible.
    - Mappings are those of Python 3: a loop over the items of a mapping
      reads them one step at a time, and the step that finds the number of
      entries changed since the loop began raises [RuntimeError].
    - The menpo library (point clouds, transforms, images), numpy's random
      generator and the per-scale algorithms are collaborators living outside
      this file of the repository: they are taken as parameters
      ([Menpo], [PointArrays], [ImageOps], the generator tape, the [run]
      function), and the few laws a statement needs from them are hypotheses
      of that statement ([NeutralTransforms], [UnitScale], [well_shaped]).
      A planar instance ([Planar]) shows the laws can be met and serves for
      the concrete evaluations. *)

From Stdlib Require Import QArith Qcanon Lqa.
From stdpp Require Import base numbers option list sorting strings pretty gmap.

Set Default Proof Using "Type".
Set Warnings "-clear-no-such-hyp".
Local Open Scope Qc_scope.

(** ** Floats *)

(** A float literal or constant, as an exact rational. *)
Definition fl (q : Q) : Qc := Q2Qc q.
Arguments fl q%_Q.

(** ** Exceptions and the state-and-exception monad *)

Inductive exn : Type :=
  | ValueError (msg : string)
  | TypeError (msg : string)
  | IndexError
  | KeyError (key : string)
  | ZeroDivisionError
  | UnboundLocalError (name : string)
  | RuntimeError (msg : string)
  | Dangling.   (* a reference to no object: cannot arise in Python *)

Inductive result (A : Type) : Type :=
  | Ok (a : A)
  | Raise (e : exn).
Arguments Ok {A} a.
Arguments Raise {A} e.

Global Instance exn_eq_dec : EqDecision exn.
Proof. solve_decision. Defined.
Global Instance result_eq_dec `{EqDecision A} : EqDecision (result A).
Proof. solve_decision. Defined.

Definition is_ok {A} (r : result A) : bool :=
  match r with Ok _ => true | Raise _ => false end.

(** A computation over a mutable state [S]: the state is returned in both
    outcomes, an exception does not undo earlier writes. *)
Definition M (S A : Type) : Type := S → result A * S.

Definition ret {S A} (a : A) : M S A := λ s, (Ok a, s).
Definition bind {S A B} (m : M S A) (k : A → M S B) : M S B :=
  λ s, match m s with
       | (Ok a, s') => k a s'
       | (Raise e, s') => (Raise e, s')
       end.
Definition raise {S A} (e : exn) : M S A := λ s, (Raise e, s).
Definition get {S} : M S S := λ s, (Ok s, s).
Definition put {S} (s : S) : M S unit := λ _, (Ok tt, s).
Definition modify {S} (f : S → S) : M S unit := λ s, (Ok tt, f s).
Definition lift {S A} (r : result A) : M S A := λ s, (r, s).

(** A computation that leaves the state as it found it, whatever its
    outcome. *)
Definition keeps_state {S A} (m : M S A) : Prop := ∀ s, (m s).2 = s.

Global Instance M_ret {S} : MRet (M S) := λ A, ret.
Global Instance M_bind {S} : MBind (M S) := λ A B k m, bind m k.

Global Instance result_ret : MRet result := λ A, Ok.
Global Instance result_bind : MBind result :=
  λ A B k r, match r with Ok a => k a | Raise e => Raise e end.

(** [xs[i]] on a Python sequence, for a non-negative index, and [xs[-1]]. *)
Definition index {A} (xs : list A) (i : nat) : result A :=
  match xs !! i with
  | Some x => Ok x
  | None => Raise IndexError
  end.
Definition index_last {A} (xs : list A) : result A :=
  match last xs with
  | Some x => Ok x
  | None => Raise IndexError
  end.
Definition getitem {S A} (xs : list A) (i : nat) : M S A := lift (index xs i).
Definition getlast {S A} (xs : list A) : M S A := lift (index_last xs).

(** [a / b] on Python floats. *)
Definition truediv (a b : Qc) : result Qc :=
  if decide (b = 0) then Raise ZeroDivisionError else Ok (a / b).

(** ** numpy arrays of rank one *)

Module Np.

(** [a * b] on two rank-one arrays: shapes must agree unless one of them has
    length one, which is then stretched (numpy broadcasting). *)
Definition mul (a b : list Qc) : result (list Qc) :=
  if decide (length a = length b) then Ok (zip_with Qcmult a b)
  else match a, b with
       | [x], _ => Ok (map (Qcmult x) b)
       | _, [y] => Ok (map (λ x, x * y) a)
       | _, _ =>
           Raise (ValueError "operands could not be broadcast together")
       end.

(** [c * a], [a / c] and [a - c] for a scalar [c]. *)
Definition scale (c : Qc) (a : list Qc) : list Qc := map (Qcmult c) a.
Definition div (a : list Qc) (c : Qc) : list Qc := map (λ x, x / c) a.
Definition sub (a : list Qc) (c : Qc) : list Qc := map (λ x, x - c) a.

(** [np.asscalar]: the single element of a one-element array. *)
Definition asscalar (a : list Qc) : result Qc :=
  match a with
  | [x] => Ok x
  | _ => Raise (ValueError "can only convert an array of size 1 to a Python scalar")
  end.

End Np.

(** ** The menpo collaborators *)

(** Shapes and transforms of menpo, as far as [fitter.py] uses them. *)
Class Menpo : Type := {
  PointCloud : Type;
  Transform : Type;
  (* PointCloud *)
  range : PointCloud → list Qc;          (* per-axis extent *)
  n_dims : PointCloud → nat;
  bounding_box : PointCloud → PointCloud;
  (* menpo.transform *)
  AlignmentSimilarity : PointCloud → PointCloud → bool → Transform;
  AlignmentAffine : PointCloud → PointCloud → Transform;
  scale_about_centre : PointCloud → Qc → Transform;
  rotate_ccw_about_centre : PointCloud → Qc → Transform;
  Translation : list Qc → nat → Transform;
  Scale : Qc → nat → Transform;
  compose_after : Transform → Transform → Transform;
  transform_apply : Transform → PointCloud → PointCloud;
}.

(** What the statements below need from menpo's transforms.  The neutral
    parameter values (scale by one, rotation by zero, translation by zero)
    give a transform that composition ignores. *)
Class NeutralTransforms (MP : Menpo) : Prop := {
  compose_scale_one : ∀ (f : Transform) target,
    compose_after f (scale_about_centre target 1) = f;
  compose_rotate_zero : ∀ (f : Transform) target,
    compose_after f (rotate_ccw_about_centre target 0) = f;
  compose_translate_zero : ∀ (f : Transform) n,
    compose_after f (Translation [0; 0] n) = f;
}.

(** A uniform scale by one leaves a shape as it is. *)
Class UnitScale (MP : Menpo) : Prop := {
  apply_Scale_one : ∀ n (s : PointCloud), transform_apply (Scale 1 n) s = s;
}.

(** ** Perturbed similarity alignment *)

Module Noise.

(** *** Python values reaching the function *)

(** A [str] object: Python's [is] compares the identity of two objects, not
    their characters. *)
Record pystr : Type := { obj_id : nat; chars : string }.

(** The two string constants of the function body.  CPython keeps one object
    per such constant, so that a call site writing the same literal passes the
    very same object. *)
Definition lit_gaussian : pystr := {| obj_id := 0; chars := "gaussian" |}.
Definition lit_uniform : pystr := {| obj_id := 1; chars := "uniform" |}.

(** [a is b]. *)
Definition py_is (a b : pystr) : bool := bool_decide (obj_id a = obj_id b).

(** [a == b] on strings, for comparison with [py_is]. *)
Definition py_eq (a b : pystr) : bool := bool_decide (chars a = chars b).

(** A live string object is consistent with the constants: an object that
    has the identity of a constant is that constant. *)
Definition live_str (a : pystr) : Prop :=
  (obj_id a = obj_id lit_gaussian → a = lit_gaussian) ∧
  (obj_id a = obj_id lit_uniform → a = lit_uniform).

Definition loc : Type := positive.

(** The [noise_percentage] argument: a float, an int (any scalar that is not
    a float behaves alike), or a reference to a list of floats. *)
Inductive pyval : Type :=
  | PyFloat (x : Qc)
  | PyInt (n : Z)
  | PyList (l : loc).

(** *** numpy's global random generator *)

(** The generator is modelled by the values it is about to produce: the draw
    at a position of the tape is read as a uniform sample of [0, 1) by [rand]
    and as a standard-normal sample by [randn]. *)
Record sample : Type := { as_rand : Qc; as_randn : Qc }.
Record rng : Type := { tape : nat → sample; cursor : nat }.

(** The state a call can change: the list objects and the generator. *)
Record world : Type := { heap : gmap loc (list Qc); gen : rng }.

Definition draw (read : sample → Qc) (k : nat) : M world (list Qc) :=
  λ w, (Ok (map (λ i, read (tape (gen w) i)) (seq (cursor (gen w)) k)),
        {| heap := heap w;
           gen := {| tape := tape (gen w); cursor := cursor (gen w) + k |} |}).

(** [np.random.rand(k)] and [np.random.randn(k)]. *)
Definition rand : nat → M world (list Qc) := draw as_rand.
Definition randn : nat → M world (list Qc) := draw as_randn.

Definition load (l : loc) : M world (list Qc) :=
  λ w, match heap w !! l with
       | Some xs => (Ok xs, w)
       | None => (Raise Dangling, w)
       end.

Definition store (l : loc) (xs : list Qc) : M world unit :=
  modify (λ w, {| heap := <[l := xs]> (heap w); gen := gen w |}).

(** The world after [k] further draws, and the [i]-th coming draw read as a
    normal and as a uniform sample. *)
Definition drawn (k : nat) (w : world) : world :=
  {| heap := heap w;
     gen := {| tape := tape (gen w); cursor := cursor (gen w) + k |} |}.
Definition normal (w : world) (i : nat) : Qc :=
  as_randn (tape (gen w) (cursor (gen w) + i)).
Definition uniform (w : world) (i : nat) : Qc :=
  as_rand (tape (gen w) (cursor (gen w) + i)).

(** A computation that writes to no list object, whatever its outcome. *)
Definition keeps_heap {A} (m : M world A) : Prop :=
  ∀ w, heap (m w).2 = heap w.

Section noisy_alignment.
Context `{MP : Menpo}.

(** Lines 44-47: [noise_percentage] becomes a list of three entries.  A
    float gives a fresh list; on a list of length one, [*= 3] repeats the
    list object itself in place; every other list is used as it is. *)
Definition percentage_triple (noise_percentage : pyval) : M world (list Qc) :=
  match noise_percentage with
  | PyFloat x => mret [x; x; x]
  | PyInt _ => raise (TypeError "object of type 'int' has no len()")
  | PyList l =>
      xs ← load l;
      if decide (length xs = 1%nat) then
        store l (xs ++ xs ++ xs);; mret (xs ++ xs ++ xs)
      else mret xs
  end.

(** Lines 52-54: the scale, rotation and translation noise of the
    ['gaussian'] branch. *)
Definition gaussian_noise (noise_percentage : list Qc) (target : PointCloud)
    : M world (Qc * Qc * list Qc) :=
  p0 ← getitem noise_percentage 0;
  n ← randn 1; n ← lift (Np.asscalar n);
  let s := p0 * (fl 0.5 / fl 3) * n in
  p1 ← getitem noise_percentage 1;
  n ← randn 1; n ← lift (Np.asscalar n);
  let r := p1 * (fl 180 / fl 3) * n in
  p2 ← getitem noise_percentage 2;
  let a := Np.scale p2 (Np.div (range target) (fl 3)) in
  n ← randn 2;
  t ← lift (Np.mul a n);
  mret (s, r, t).

(** Lines 60-62: the same for the ['uniform'] branch.  The scale line calls
    [randn], the two others [rand]. *)
Definition uniform_noise (noise_percentage : list Qc) (target : PointCloud)
    : M world (Qc * Qc * list Qc) :=
  p0 ← getitem noise_percentage 0;
  n ← randn 1; n ← lift (Np.asscalar n);
  let s := p0 * fl 0.5 * (2 * n - 1) in
  p1 ← getitem noise_percentage 1;
  u ← rand 1; u ← lift (Np.asscalar u);
  let r := p1 * fl 180 * (2 * u - 1) in
  p2 ← getitem noise_percentage 2;
  let a := Np.scale p2 (range target) in
  u ← rand 2;
  t ← lift (Np.mul a (Np.sub (Np.scale 2 u) 1));
  mret (s, r, t).

Definition unexpected_noise_type : string :=
  "Unexpected noise type. Supported values are {gaussian, uniform}".

(** Lines 49-71: the alignment, the noise of the requested type and the
    composition, once [noise_percentage] is a list. *)
Definition perturb_with (source target : PointCloud) (noise_type : pystr)
    (rotation : bool) (noise_percentage : list Qc) : M world Transform :=
  let similarity := AlignmentSimilarity source target rotation in
  '(s, r, t) ←
    (if py_is noise_type lit_gaussian then
       '(s, r, t) ← gaussian_noise noise_percentage target;
       let s := scale_about_centre target (1 + s) in
       let r := rotate_ccw_about_centre target r in
       let t := Translation t (n_dims source) in
       mret (s, r, t)
     else if py_is noise_type lit_uniform then
       '(s, r, t) ← uniform_noise noise_percentage target;
       let s := scale_about_centre target (1 + s) in
       let r := rotate_ccw_about_centre target r in
       let t := Translation t (n_dims source) in
       mret (s, r, t)
     else raise (ValueError unexpected_noise_type));
  mret (compose_after similarity (compose_after t (compose_after s r))).

Definition noisy_alignment_similarity_transform
    (source target : PointCloud) (noise_type : pystr)
    (noise_percentage : pyval) (rotation : bool) : M world Transform :=
  noise_percentage ← percentage_triple noise_percentage;
  perturb_with source target noise_type rotation noise_percentage.

End noisy_alignment.

End Noise.

(** ** Alignment with a noisy target *)

Module Target.
Import Noise.

(** The array side of a point cloud: its [n_points] by [n_dims] array of
    coordinates, and the constructor of a point cloud from such an array. *)
Class PointArrays `{MP : Menpo} : Type := {
  points : PointCloud → list (list Qc);
  n_points : PointCloud → nat;
  new_PointCloud : list (list Qc) → PointCloud;
}.

(** menpo's invariant on a point cloud: [points] has [n_points] rows of
    [n_dims] entries each, and [range()] has [n_dims] entries. *)
Definition well_shaped `{PA : PointArrays} (pc : PointCloud) : Prop :=
  length (points pc) = n_points pc ∧
  Forall (λ row, length row = n_dims pc) (points pc) ∧
  length (range pc) = n_dims pc.

(** [f] on every element in turn, up to the first one that raises. *)
Fixpoint each {A B} (f : A → result B) (xs : list A) : result (list B) :=
  match xs with
  | [] => Ok []
  | x :: xs => y ← f x; ys ← each f xs; mret (y :: ys)
  end.

(** [a + b] on two rank-one arrays, with numpy's broadcasting. *)
Definition add (a b : list Qc) : result (list Qc) :=
  if decide (length a = length b) then Ok (zip_with Qcplus a b)
  else match a, b with
       | [x], _ => Ok (map (Qcplus x) b)
       | _, [y] => Ok (map (λ x, x + y) a)
       | _, _ =>
           Raise (ValueError "operands could not be broadcast together")
       end.

(** Whether a rank-one array of [m] entries can be broadcast against the
    rows of an array with [d] columns. *)
Definition compatible (m d : nat) : bool :=
  bool_decide (m = d ∨ m = 1%nat ∨ d = 1%nat).

(** [np.random.randn(n, d)]: [n * d] draws, filling the rows in order. *)
Definition randn2 (n d : nat) : M world (list (list Qc)) :=
  flat ← randn (n * d); mret (reshape (replicate n d) flat).

(** [a * rows], for [rows] an array with [d] columns. *)
Definition mul_rows (a : list Qc) (d : nat) (rows : list (list Qc))
    : result (list (list Qc)) :=
  if compatible (length a) d then each (Np.mul a) rows
  else Raise (ValueError "operands could not be broadcast together").

(** [p + q] on two arrays with the same number of rows. *)
Definition add_rows (p q : list (list Qc)) : result (list (list Qc)) :=
  each (λ pq, add pq.1 pq.2) (zip p q).

(** The [noise_std] argument: a float, or a list of floats. *)
Inductive noise_std_arg : Type :=
  | StdFloat (x : Qc)
  | StdList (xs : list Qc).

Section noisy_target.
Context `{PA : PointArrays}.

(** Lines 99-102, for an alignment class given by its constructor on a
    source and a target. *)
Definition noisy_target_alignment_transform (source target : PointCloud)
    (alignment_transform_cls : PointCloud → PointCloud → Transform)
    (noise_std : noise_std_arg) : M world Transform :=
  a ← lift (match noise_std with
            | StdFloat x => Ok (Np.scale x (range target))
            | StdList xs => Np.mul xs (range target)
            end);
  n ← randn2 (n_points target) (n_dims target);
  noise ← lift (mul_rows a (n_dims target) n);
  noisy ← lift (add_rows (points target) noise);
  let noisy_target := new_PointCloud noisy in
  mret (alignment_transform_cls source noisy_target).

End noisy_target.
End Target.

(** ** Perturbed shapes and alignment with a bounding box *)

Module Shapes.
Import Noise.

Section shapes.
Context `{MP : Menpo}.

(** Lines 137-140.  The alignment is computed between the bounding box of
    [shape] and the box [bb] (the source's parameter [bounding_box]), and
    applied to [shape] itself. *)
Definition noisy_shape_from_bounding_box (shape bb : PointCloud)
    (noise_type : pystr) (noise_percentage : pyval) (rotation : bool)
    : M world PointCloud :=
  transform ← noisy_alignment_similarity_transform (bounding_box shape) bb
                noise_type noise_percentage rotation;
  mret (transform_apply transform shape).

(** Lines 174-177. *)
Definition noisy_shape_from_shape (reference_shape shape : PointCloud)
    (noise_type : pystr) (noise_percentage : pyval) (rotation : bool)
    : M world PointCloud :=
  transform ← noisy_alignment_similarity_transform reference_shape shape
                noise_type noise_percentage rotation;
  mret (transform_apply transform reference_shape).

(** Lines 201-203, for an alignment class given by its constructor on a
    source and a target. *)
Definition align_shape_with_bounding_box (shape bb : PointCloud)
    (alignment_transform_cls : PointCloud → PointCloud → Transform)
    : PointCloud :=
  let shape_bb := bounding_box shape in
  let transform := alignment_transform_cls shape_bb bb in
  transform_apply transform shape.

(** The default of [alignment_transform_cls]: [AlignmentSimilarity] called
    with a source and a target only, its [rotation] being [True] then. *)
Definition default_alignment (source target : PointCloud) : Transform :=
  AlignmentSimilarity source target true.

(** Lines 458 and 478: [ModelFitter.perturb_from_bb] and
    [ModelFitter.perturb_from_gt_bb] for a perturbation function with state
    [S]. *)
Definition perturb_from_bb {S} (gt_shape bb : PointCloud)
    (perturb_func : PointCloud → PointCloud → M S PointCloud)
    : M S PointCloud :=
  perturb_func gt_shape bb.
Definition perturb_from_gt_bb {S} (gt_bb : PointCloud)
    (perturb_func : PointCloud → PointCloud → M S PointCloud)
    : M S PointCloud :=
  perturb_func gt_bb gt_bb.

End shapes.

End Shapes.

(** ** Images and the per-scale algorithms *)

(** An image: its pixel data (opaque here) and the mutable mapping from
    group names to the shapes attached under them. *)
Record Image `{MP : Menpo} (Pixels : Type) : Type := {
  pixels : Pixels;
  landmarks : gmap string PointCloud;
}.
Arguments pixels {MP Pixels} _.
Arguments landmarks {MP Pixels} _.

(** The menpo image operations used by the fitter.  Each of them builds a new
    image and leaves its argument as it is; each may raise. *)
Class ImageOps `{MP : Menpo} : Type := {
  Pixels : Type;
  crop_to_landmarks_proportion :
    Qc → string → Image Pixels → result (Image Pixels);
  rescale_to_pointcloud :
    PointCloud → string → Image Pixels → result (Image Pixels);
  rescale : Qc → Image Pixels → result (Image Pixels);
  has_landmarks_outside_bounds : Image Pixels → bool;
  (* PointCloud.constrain_to_bounds(image.bounds()) *)
  constrain_to_bounds : Pixels → PointCloud → PointCloud;
  (* fnmatch.fnmatch(name, pattern) *)
  fnmatch : string → string → bool;
}.

(** The per-scale algorithm, the result it returns, and the result object a
    concrete fitter builds from the per-scale results. *)
Class Algorithms `{IO : ImageOps} : Type := {
  Algorithm : Type;
  AlgorithmResult : Type;
  MultiScaleResult : Type;
  run : Algorithm → Image Pixels → PointCloud → option PointCloud → Z →
        result AlgorithmResult;
  final_shape : AlgorithmResult → PointCloud;
  _fitter_result : Image Pixels → list AlgorithmResult → Transform →
                   option PointCloud → result MultiScaleResult;
}.

(** Monadic left fold: a [for] loop carrying its local variables. *)
Fixpoint foldM {S A B} (body : B → A → M S B) (b : B) (xs : list A)
    : M S B :=
  match xs with
  | [] => mret b
  | x :: xs => b' ← body b x; foldM body b' xs
  end.

Module Fitter.

Section MultiFitter.
Context `{AL : Algorithms}.

(** A feature function is compared by identity ([is not]) with the one of the
    previous scale. *)
Record Feature : Type := {
  feature_id : nat;
  feature_call : Image Pixels → result (Image Pixels);
}.

(** The attributes of a fitter that the methods read. *)
Record MultiFitter : Type := {
  reference_shape : PointCloud;
  holistic_features : list Feature;
  scales : list Qc;
  algorithms : list Algorithm;
}.

Definition n_scales (self : MultiFitter) : nat := length (scales self).

(** One recorded call of [algorithms[i].run]. *)
Record call : Type := {
  call_algorithm : Algorithm;
  call_image : Image Pixels;
  call_shape : PointCloud;
  call_gt_shape : option PointCloud;
  call_max_iters : Z;
}.

(** The state of a fitting call: the caller's image object, and the calls of
    the per-scale algorithms made so far. *)
Record fstate : Type := {
  image : Image Pixels;
  calls : list call;
}.

(** [image.landmarks[group] = shape] *)
Definition setitem (group : string) (shape : PointCloud) : M fstate unit :=
  modify (λ st,
    {| image := {| pixels := pixels (image st);
                   landmarks := <[group := shape]> (landmarks (image st)) |};
       calls := calls st |}).

(** [del image.landmarks[group]] *)
Definition delitem (group : string) : M fstate unit :=
  λ st, match landmarks (image st) !! group with
        | Some _ =>
            (Ok tt,
             {| image := {| pixels := pixels (image st);
                            landmarks := delete group (landmarks (image st)) |};
                calls := calls st |})
        | None => (Raise (KeyError group), st)
        end.

(** [i.landmarks[group].lms] on an image value. *)
Definition lms {S} (i : Image Pixels) (group : string) : M S PointCloud :=
  match landmarks i !! group with
  | Some shape => mret shape
  | None => raise (KeyError group)
  end.

(** [algorithm.run(image, shape, gt_shape=..., max_iters=...)], recorded. *)
Definition run_recorded (a : Algorithm) (im : Image Pixels)
    (shape : PointCloud) (gt_shape : option PointCloud) (max_iters : Z)
    : M fstate AlgorithmResult :=
  λ st, (run a im shape gt_shape max_iters,
         {| image := image st;
            calls := calls st ++
              [{| call_algorithm := a; call_image := im; call_shape := shape;
                  call_gt_shape := gt_shape; call_max_iters := max_iters |}] |}).

(** Truth value of [crop_image]: [None] and [0.0] are false. *)
Definition crop_requested (crop_image : option Qc) : option Qc :=
  match crop_image with
  | Some p => if decide (p = 0) then None else Some p
  | None => None
  end.

(** Lines 337-353, one pass of the loop over the scales.  [feature_image] is
    the variable of that name: unbound before the first pass. *)
Definition prepare_level (self : MultiFitter) (tmp_image : Image Pixels)
    (acc : option (Image Pixels) * list (Image Pixels)) (i : nat)
    : M fstate (option (Image Pixels) * list (Image Pixels)) :=
  let '(feature_image, images) := acc in
  f ← getitem (holistic_features self) i;
  recompute ←
    match i with
    | O => mret true
    | S j => g ← getitem (holistic_features self) j;
             mret (negb (bool_decide (feature_id f = feature_id g)))
    end;
  feature_image ←
    (if recompute : bool then fi ← lift (feature_call f tmp_image); mret (Some fi)
     else mret feature_image);
  fi ← match feature_image with
       | Some fi => mret fi
       | None => raise (UnboundLocalError "feature_image")
       end;
  s ← getitem (scales self) i;
  scaled_image ← (if decide (s ≠ 1) then lift (rescale s fi) else mret fi);
  mret (Some fi, images ++ [scaled_image]).

Definition _prepare_image (self : MultiFitter) (initial_shape : PointCloud)
    (gt_shape : option PointCloud) (crop_image : option Qc)
    : M fstate (list (Image Pixels) * list PointCloud *
                option (list PointCloud)) :=
  setitem "__initial_shape" initial_shape;;
  match gt_shape with
  | Some g => setitem "__gt_shape" g
  | None => mret tt
  end;;
  st ← get;
  let tmp_image := image st in
  tmp_image ←
    match crop_requested crop_image with
    | Some p =>
        lift (crop_to_landmarks_proportion p "__initial_shape" (image st))
    | None => mret tmp_image
    end;
  tmp_image ←
    lift (rescale_to_pointcloud (reference_shape self) "__initial_shape"
            tmp_image);
  '(_, images) ←
    foldM (prepare_level self tmp_image) (None, []) (seq 0 (n_scales self));
  initial_shapes ← foldM (λ acc i, s ← lms i "__initial_shape";
                                   mret (acc ++ [s])) [] images;
  gt_shapes ←
    match gt_shape with
    | Some _ => l ← foldM (λ acc i, s ← lms i "__gt_shape";
                                    mret (acc ++ [s])) [] images;
                mret (Some l)
    | None => mret None
    end;
  delitem "__initial_shape";;
  match gt_shape with
  | Some _ => delitem "__gt_shape"
  | None => mret tt
  end;;
  mret (images, initial_shapes, gt_shapes).

(** The [max_iters] argument: an int or a list of ints. *)
Inductive max_iters_arg : Type :=
  | MaxItersInt (k : Z)
  | MaxItersList (ks : list Z).

Definition max_iters_mismatch : string :=
  "max_iters can be an integer or a list with one integer per scale".

(** Modelled from the spec: [menpofit.checks.check_max_iters] is not among
    the sources.  Following the spec's description of the validation helper,
    it turns a scalar-or-list iteration budget into exactly [n_scales]
    entries: a scalar is given to every scale, a list must have exactly
    [n_scales] entries and fails with a configuration error otherwise. *)
Definition check_max_iters (max_iters : max_iters_arg) (n_scales : nat)
    : result (list Z) :=
  match max_iters with
  | MaxItersInt k => Ok (replicate n_scales k)
  | MaxItersList ks =>
      if decide (length ks = n_scales) then Ok ks
      else Raise (ValueError max_iters_mismatch)
  end.

(** Lines 395-399: the shape handed to the next scale. *)
Definition next_shape (self : MultiFitter) (i : nat)
    (algorithm_result : AlgorithmResult) : result PointCloud :=
  let shape := final_shape algorithm_result in
  si ← index (scales self) i;
  sl ← index_last (scales self);
  if decide (si ≠ sl) then
    sn ← index (scales self) (i + 1);
    f ← truediv sn si;
    mret (transform_apply (Scale f (n_dims shape)) shape)
  else mret shape.

(** Lines 382-399, one pass of the loop; the loop variables are [shape],
    [gt_shape] and [algorithm_results]. *)
Definition fit_level (self : MultiFitter) (images : list (Image Pixels))
    (gt_shapes : option (list PointCloud)) (max_iters : list Z)
    (acc : PointCloud * option PointCloud * list AlgorithmResult) (i : nat)
    : M fstate (PointCloud * option PointCloud * list AlgorithmResult) :=
  let '(shape, gt_shape, algorithm_results) := acc in
  gt_shape ←
    match gt_shapes with
    | Some gs => g ← getitem gs i; mret (Some g)
    | None => mret gt_shape
    end;
  a ← getitem (algorithms self) i;
  im ← getitem images i;
  mi ← getitem max_iters i;
  algorithm_result ← run_recorded a im shape gt_shape mi;
  let algorithm_results := algorithm_results ++ [algorithm_result] in
  shape ← lift (next_shape self i algorithm_result);
  mret (shape, gt_shape, algorithm_results).

Definition _fit (self : MultiFitter) (images : list (Image Pixels))
    (initial_shape : PointCloud) (gt_shapes : option (list PointCloud))
    (max_iters : max_iters_arg) : M fstate (list AlgorithmResult) :=
  max_iters ← lift (check_max_iters max_iters (n_scales self));
  '(_, _, algorithm_results) ←
    foldM (fit_level self images gt_shapes max_iters)
          (initial_shape, None, []) (seq 0 (n_scales self));
  mret algorithm_results.

Definition fit_from_shape (self : MultiFitter) (initial_shape : PointCloud)
    (max_iters : max_iters_arg) (gt_shape : option PointCloud)
    (crop_image : option Qc) : M fstate MultiScaleResult :=
  '(images, initial_shapes, gt_shapes) ←
    _prepare_image self initial_shape gt_shape crop_image;
  top ← getlast initial_shapes;
  let affine_correction := AlignmentAffine top initial_shape in
  first ← getitem initial_shapes 0;
  algorithm_results ← _fit self images first gt_shapes max_iters;
  st ← get;
  lift (_fitter_result (image st) algorithm_results affine_correction
          gt_shape).

(** Lines 311-315. *)
Definition fit_from_bb (self : MultiFitter) (bb : PointCloud)
    (max_iters : max_iters_arg) (gt_shape : option PointCloud)
    (crop_image : option Qc) : M fstate MultiScaleResult :=
  let initial_shape :=
    Shapes.align_shape_with_bounding_box (reference_shape self) bb
      Shapes.default_alignment in
  fit_from_shape self initial_shape max_iters gt_shape crop_image.

(** *** Vocabulary of the statements *)

(** The landmark mapping once the transient groups are deleted. *)
Definition detached (gt_shape : option PointCloud)
    (lm : gmap string PointCloud) : gmap string PointCloud :=
  match gt_shape with
  | Some _ => delete "__gt_shape" (delete "__initial_shape" lm)
  | None => delete "__initial_shape" lm
  end.

(** The per-scale run a recorded call stands for. *)
Definition run_call (c : call) : result AlgorithmResult :=
  run (call_algorithm c) (call_image c) (call_shape c) (call_gt_shape c)
      (call_max_iters c).

(** The state after the calls [new] have been recorded. *)
Definition logged (st : fstate) (new : list call) : fstate :=
  {| image := image st; calls := calls st ++ new |}.

(** Scale factors that never decrease from one level to the next. *)
Definition non_decreasing (xs : list Qc) : Prop := Sorted Qcle xs.

(** The landmark mapping while the transient groups are attached. *)
Definition transient (initial_shape : PointCloud)
    (gt_shape : option PointCloud) (lm : gmap string PointCloud)
    : gmap string PointCloud :=
  match gt_shape with
  | Some g => <["__gt_shape" := g]> (<["__initial_shape" := initial_shape]> lm)
  | None => <["__initial_shape" := initial_shape]> lm
  end.

(** A fitter that can run: at least one scale, one algorithm per scale,
    algorithms that raise nothing, and scale factors other than zero. *)
Definition can_run (self : MultiFitter) : Prop :=
  (0 < n_scales self)%nat ∧
  length (algorithms self) = n_scales self ∧
  (∀ a im s g k, is_ok (run a im s g k) = true) ∧
  Forall (λ s, s ≠ 0) (scales self).

End MultiFitter.

End Fitter.

(** ** Generation of perturbed bounding boxes *)

Module Perturbations.

Section generate.
Context `{IO : ImageOps}.

(** [E] is whatever [perturb_func] reads and writes besides its arguments
    (the random generator, typically). *)
Context {E : Type}.

(** The state of a call: the image objects of [images], in order, and the
    state of [perturb_func]. *)
Record pstate : Type := {
  images : list (Image Pixels);
  outside : E;
}.

(** ['__generated_bb_{}'.format(k)] *)
Definition generated_bb (k : nat) : string := "__generated_bb_" +:+ pretty k.

Definition no_single_group : string :=
  "Cannot use None as a key as there are 0 or more than 1 landmark groups".

(** [landmarks[group].lms]; with [group = None] the mapping must hold exactly
    one group, which is then the one meant. *)
Definition landmarks_getitem (lm : gmap string PointCloud)
    (group : option string) : result PointCloud :=
  match group with
  | Some g => match lm !! g with
              | Some s => Ok s
              | None => Raise (KeyError g)
              end
  | None => match map_to_list lm with
            | [(_, s)] => Ok s
            | _ => Raise (ValueError no_single_group)
            end
  end.

(** [landmarks.items_matching(glob)] consumed in one go, with no write to
    the mapping meanwhile (as the list comprehension of line 553 does): the
    groups whose name matches, in the order of the mapping. *)
Definition items_matching (glob : string) (lm : gmap string PointCloud)
    : list (string * PointCloud) :=
  filter (λ kv, fnmatch kv.1 glob = true) (map_to_list lm).

Definition image_at (j : nat) : M pstate (Image Pixels) :=
  st ← get; getitem (images st) j.

Definition update_image (j : nat) (f : Image Pixels → Image Pixels)
    : M pstate unit :=
  modify (λ st, {| images := alter f j (images st); outside := outside st |}).

(** [im.landmarks[group] = shape] on the image at position [j]. *)
Definition set_landmark (j : nat) (group : string) (shape : PointCloud)
    : M pstate unit :=
  update_image j (λ im, {| pixels := pixels im;
                           landmarks := <[group := shape]> (landmarks im) |}).

(** [im.constrain_landmarks_to_bounds()]: every attached shape is clamped to
    the bounds of the image. *)
Definition constrain_landmarks_to_bounds (im : Image Pixels) : Image Pixels :=
  {| pixels := pixels im;
     landmarks := constrain_to_bounds (pixels im) <$> landmarks im |}.

Definition no_box_matched : string :=
  "Must provide a valid bounding box glob - no bounding boxes matched the following glob: ".

Definition changed_size : string := "dictionary changed size during iteration".

(** [for bb in bb_glob(im): body], lines 512-514, for the image at position
    [j].  [bb_glob] is a generator over [im.landmarks.items_matching(glob)],
    itself a generator over the items of the mapping: nothing is read ahead.
    The iteration starts on the mapping as it is at the first pass -- [names]
    are the names it holds then and [used] is their number -- and every
    later step looks at the mapping as the body has left it: the iterator of
    a Python 3 dictionary raises [RuntimeError] at the step that finds the
    number of entries changed (the step that would end the loop included),
    and the shape under a name is read when the name is reached. *)
Fixpoint bb_glob {B} (j : nat) (glob : string) (used : nat)
    (names : list string) (body : B → PointCloud → M pstate B) (b : B)
    : M pstate B :=
  im ← image_at j;
  if decide (size (landmarks im) = used) then
    match names with
    | [] => mret b
    | name :: names =>
        v ← lift (landmarks_getitem (landmarks im) (Some name));
        if fnmatch name glob then
          b ← body b (bounding_box v);
          bb_glob j glob used names body b
        else bb_glob j glob used names body b
    end
  else raise (RuntimeError changed_size).

(** [for bb in bb_generator(im): body], lines 508-515 and 538: without a
    glob [bb_generator(im)] is a list of one box, built before the first
    pass; with a glob it is the generator [bb_glob(im)]. *)
Definition bb_generator {B} (gt_group bb_group_glob : option string)
    (j : nat) (body : B → PointCloud → M pstate B) (b : B) : M pstate B :=
  im ← image_at j;
  match bb_group_glob with
  | None =>
      s ← lift (landmarks_getitem (landmarks im) gt_group);
      foldM body b [bounding_box s]
  | Some glob =>
      bb_glob j glob (size (landmarks im)) (map_to_list (landmarks im)).*1
        body b
  end.

(** *** Vocabulary of the statements *)

(** The group names [__generated_bb_0], ..., [__generated_bb_{k-1}]. *)
Definition generated_names (k : nat) : gset string :=
  list_to_set (generated_bb <$> seq 0 k).

(** The number of source boxes of an image, and the number of group names
    that the documentation of the function announces for it: [N] without a
    glob, [N * M + M] with a glob matching [M] groups. *)
Definition n_boxes (bb_group_glob : option string) (im : Image Pixels) : nat :=
  match bb_group_glob with
  | None => 1%nat
  | Some glob => length (items_matching glob (landmarks im))
  end.
Definition n_generated (n : nat) (bb_group_glob : option string)
    (im : Image Pixels) : nat :=
  match bb_group_glob with
  | None => n
  | Some glob =>
      let m := length (items_matching glob (landmarks im)) in
      (n * m + m)%nat
  end.

(** The landmark mapping once the shapes [vs] are stored, in this order,
    under the names [__generated_bb_0], [__generated_bb_1], ... *)
Definition written (vs : list PointCloud) (lm : gmap string PointCloud)
    : gmap string PointCloud :=
  list_to_map (imap (λ k v, (generated_bb k, v)) vs) ∪ lm.

(** Lines 550-551 on an image value. *)
Definition finished (im : Image Pixels) : Image Pixels :=
  if has_landmarks_outside_bounds im then constrain_landmarks_to_bounds im
  else im.

(** [st] has the images of [st0], each with its pixels and all the group
    names it had, and with no new group name other than generated ones. *)
Definition grown (st0 st : pstate) : Prop :=
  length (images st) = length (images st0) ∧
  ∀ j im0, images st0 !! j = Some im0 →
    ∃ im, images st !! j = Some im ∧ pixels im = pixels im0 ∧
      dom (landmarks im0) ⊆ dom (landmarks im) ∧
      ∀ key, key ∈ dom (landmarks im) →
        key ∈ dom (landmarks im0) ∨ ∃ k, key = generated_bb k.

(** [st] differs from [st0] at most in the image at position [j], which has
    kept its pixels and has had the shapes [vs] stored. *)
Definition stored (j : nat) (vs : list PointCloud)
    (st0 st : pstate) : Prop :=
  length (images st) = length (images st0) ∧
  (∀ j', j' ≠ j → images st !! j' = images st0 !! j') ∧
  ∃ im0 im, images st0 !! j = Some im0 ∧ images st !! j = Some im ∧
    pixels im = pixels im0 ∧
    landmarks im = written vs (landmarks im0).

(** The image at position [j] holds the group names [names], at least. *)
Definition holds (j : nat) (names : gset string) (st : pstate) : Prop :=
  ∃ im, images st !! j = Some im ∧ names ⊆ dom (landmarks im).

Section with_perturb_func.
Variable perturb_func : PointCloud → PointCloud → M E PointCloud.

Definition call_perturb_func (gt_s bb : PointCloud) : M pstate PointCloud :=
  λ st, let '(r, e) := perturb_func gt_s bb (outside st) in
        (r, {| images := images st; outside := e |}).

(** Lines 539-543: [n_perturbations] perturbed boxes of one source box. *)
Definition perturb_box (n_perturbations j : nat) (gt_s bb : PointCloud)
    (k : nat) : M pstate nat :=
  foldM (λ k _,
           p ← call_perturb_func gt_s bb;
           let p_s := bounding_box p in
           set_landmark j (generated_bb k) p_s;;
           mret (k + 1)%nat)
        k (seq 0 n_perturbations).

(** Lines 539-548: one pass of the loop over the source boxes. *)
Definition perturb_boxes (n_perturbations : nat)
    (bb_group_glob : option string) (j : nat) (gt_s : PointCloud)
    (k : nat) (bb : PointCloud) : M pstate nat :=
  k ← perturb_box n_perturbations j gt_s bb k;
  match bb_group_glob with
  | Some _ => set_landmark j (generated_bb k) bb;; mret (k + 1)%nat
  | None => mret k
  end.

(** Lines 535-551: the body of the loop over the images, for the image at
    position [j]. *)
Definition perturb_image (n_perturbations : nat)
    (gt_group bb_group_glob : option string) (j : nat) : M pstate unit :=
  im ← image_at j;
  gt ← lift (landmarks_getitem (landmarks im) gt_group);
  let gt_s := bounding_box gt in
  bb_generator gt_group bb_group_glob j
    (perturb_boxes n_perturbations bb_group_glob j gt_s) 0%nat;;
  im ← image_at j;
  if has_landmarks_outside_bounds im
  then update_image j constrain_landmarks_to_bounds
  else mret tt.

Definition generate_perturbations_from_gt (n_perturbations : nat)
    (gt_group bb_group_glob : option string) : M pstate unit :=
  n_bbs ←
    match bb_group_glob with
    | None => mret 1%nat
    | Some _ =>
        (* len(list(bb_glob(images[0]))) *)
        bbs ← bb_generator gt_group bb_group_glob 0
                (λ bbs bb, mret (bbs ++ [bb])) [];
        mret (length bbs)
    end;
  (if decide (n_bbs = 0%nat)
   then raise (ValueError (no_box_matched +:+ default "None" bb_group_glob))
   else mret tt);;
  st ← get;
  foldM (λ _ j, perturb_image n_perturbations gt_group bb_group_glob j)
        tt (seq 0 (length (images st))).

(** *** Vocabulary of the statements, continued *)

(** The boxes of [n] successive calls [perturb_func(gt_s, bb)]: each call
    starts from the state the previous one has left, and an exception ends
    them. *)
Fixpoint perturbations (n : nat) (gt_s bb : PointCloud)
    : M E (list PointCloud) :=
  match n with
  | O => mret []
  | S n =>
      p ← perturb_func gt_s bb;
      ps ← perturbations n gt_s bb;
      mret (bounding_box p :: ps)
  end.

End with_perturb_func.

(** The accessor returned by [generate_perturbations_from_gt]. *)
Definition generated_bb_func (x : Image Pixels) : list PointCloud :=
  (items_matching "__generated_bb_*" (landmarks x)).*2.

End generate.

End Perturbations.

(** ** A planar instance of the collaborators

    Point clouds are lists of coordinate lists, transforms are affine maps of
    the plane with rational coefficients.  The instance is used to evaluate
    the functions above on concrete inputs and to show that the laws asked
    of menpo can be met; no statement about [fitter.py] depends on its
    particulars. *)

Module Planar.

Definition cloud : Type := list (list Qc).

Definition Qcmax (a b : Qc) : Qc := if decide (a ≤ b) then b else a.
Definition Qcmin (a b : Qc) : Qc := if decide (a ≤ b) then a else b.

Definition axis (pc : cloud) (j : nat) : list Qc := omap (λ p, p !! j) pc.
Definition lo (xs : list Qc) : Qc :=
  match xs with [] => 0 | x :: xs => foldr Qcmin x xs end.
Definition hi (xs : list Qc) : Qc :=
  match xs with [] => 0 | x :: xs => foldr Qcmax x xs end.
Definition extent (pc : cloud) (j : nat) : Qc := hi (axis pc j) - lo (axis pc j).
Definition mean (xs : list Qc) : Qc :=
  foldr Qcplus 0 xs / Qc_of_Z (Z.of_nat (length xs)).

Definition cloud_n_dims (pc : cloud) : nat :=
  match pc with [] => 0%nat | p :: _ => length p end.
Definition cloud_range (pc : cloud) : list Qc :=
  map (extent pc) (seq 0 (cloud_n_dims pc)).
Definition cloud_centre (pc : cloud) : Qc * Qc :=
  (mean (axis pc 0), mean (axis pc 1)).
Definition cloud_bounding_box (pc : cloud) : cloud :=
  let x0 := lo (axis pc 0) in let x1 := hi (axis pc 0) in
  let y0 := lo (axis pc 1) in let y1 := hi (axis pc 1) in
  [[x0; y0]; [x1; y0]; [x1; y1]; [x0; y1]].

(** The map [(x, y) ↦ (xx x + xy y + tx, yx x + yy y + ty)]. *)
Record affine : Type := { xx : Qc; xy : Qc; yx : Qc; yy : Qc; tx : Qc; ty : Qc }.

Global Instance affine_eq_dec : EqDecision affine.
Proof. solve_decision. Defined.

Definition after (f g : affine) : affine :=
  {| xx := xx f * xx g + xy f * yx g;  xy := xx f * xy g + xy f * yy g;
     yx := yx f * xx g + yy f * yx g;  yy := yx f * xy g + yy f * yy g;
     tx := xx f * tx g + xy f * ty g + tx f;
     ty := yx f * tx g + yy f * ty g + ty f |}.

(** The linear map [(a b; c d)] applied about the pivot [c0]. *)
Definition about (c0 : Qc * Qc) (a b c d : Qc) : affine :=
  {| xx := a; xy := b; yx := c; yy := d;
     tx := c0.1 - (a * c0.1 + b * c0.2);
     ty := c0.2 - (c * c0.1 + d * c0.2) |}.

Definition uniform_scale (f : Qc) : affine :=
  {| xx := f; xy := 0; yx := 0; yy := f; tx := 0; ty := 0 |}.
Definition translation (t : list Qc) : affine :=
  {| xx := 1; xy := 0; yx := 0; yy := 1;
     tx := default 0 (t !! 0%nat); ty := default 0 (t !! 1%nat) |}.
Definition scale_about (pc : cloud) (s : Qc) : affine :=
  about (cloud_centre pc) s 0 0 s.

(** A rotation by about [deg] degrees: the one whose half-angle tangent is
    the rational [u] below. *)
Definition rotate_about (pc : cloud) (deg : Qc) : affine :=
  let u := deg * fl (355 # 113) / fl 360 in
  let c := (1 - u * u) / (1 + u * u) in
  let s := (2 * u) / (1 + u * u) in
  about (cloud_centre pc) c (- s) s c.

(** A similarity taking the centre and first extent of [source] to those of
    [target]. *)
Definition align (source target : cloud) : affine :=
  let k := if decide (extent source 0 = 0) then 1
           else extent target 0 / extent source 0 in
  let cs := cloud_centre source in
  let ct := cloud_centre target in
  {| xx := k; xy := 0; yx := 0; yy := k;
     tx := ct.1 - k * cs.1; ty := ct.2 - k * cs.2 |}.

Definition apply_affine (f : affine) (pc : cloud) : cloud :=
  map (λ p, match p with
            | [x; y] => [xx f * x + xy f * y + tx f; yx f * x + yy f * y + ty f]
            | _ => p
            end) pc.

Definition planar : Menpo := {|
  PointCloud := cloud;
  Transform := affine;
  range := cloud_range;
  n_dims := cloud_n_dims;
  bounding_box := cloud_bounding_box;
  AlignmentSimilarity := λ s t _, align s t;
  AlignmentAffine := align;
  scale_about_centre := scale_about;
  rotate_ccw_about_centre := rotate_about;
  Translation := λ t _, translation t;
  Scale := λ f _, uniform_scale f;
  compose_after := after;
  transform_apply := apply_affine;
|}.

(** Images are given by their height and width. *)
Definition picture : Type := @Image planar (Qc * Qc).

Definition picture_rescale (f : Qc) (im : picture) : result picture :=
  if decide (f ≤ 0) then Raise (ValueError "Scales must be positive")
  else Ok {| pixels := (f * (pixels im).1, f * (pixels im).2);
             landmarks := apply_affine (uniform_scale f) <$> landmarks im |}.

Definition picture_rescale_to (reference : cloud) (group : string)
    (im : picture) : result picture :=
  match landmarks im !! group with
  | Some s => picture_rescale (xx (align s reference)) im
  | None => Raise (KeyError group)
  end.

Definition picture_crop (p : Qc) (group : string) (im : picture)
    : result picture :=
  match landmarks im !! group with
  | Some s =>
      let ox := lo (axis s 0) - p * extent s 0 in
      let oy := lo (axis s 1) - p * extent s 1 in
      Ok {| pixels := ((1 + 2 * p) * extent s 0, (1 + 2 * p) * extent s 1);
            landmarks := apply_affine (translation [- ox; - oy]) <$> landmarks im |}
  | None => Raise (KeyError group)
  end.

Definition clamp (bound x : Qc) : Qc := Qcmax 0 (Qcmin bound x).
Definition clamp_cloud (size : Qc * Qc) (pc : cloud) : cloud :=
  map (λ p, match p with
            | [x; y] => [clamp size.1 x; clamp size.2 y]
            | _ => p
            end) pc.
Definition picture_outside (im : picture) : bool :=
  bool_decide (clamp_cloud (pixels im) <$> landmarks im ≠ landmarks im).

(** Shell-style matching with [*] and [?]. *)
Fixpoint glob (pattern name : list Ascii.ascii) : bool :=
  match pattern with
  | [] => match name with [] => true | _ => false end
  | c :: pattern' =>
      if decide (c = Ascii.ascii_of_nat 42) then
        (fix star (name : list Ascii.ascii) : bool :=
           glob pattern' name ||
           match name with [] => false | _ :: name' => star name' end) name
      else match name with
           | [] => false
           | d :: name' =>
               (bool_decide (c = Ascii.ascii_of_nat 63) || bool_decide (c = d))
               && glob pattern' name'
           end
  end.

Definition pictures : @ImageOps planar := {|
  Pixels := (Qc * Qc)%type;
  crop_to_landmarks_proportion := picture_crop;
  rescale_to_pointcloud := picture_rescale_to;
  rescale := picture_rescale;
  has_landmarks_outside_bounds := picture_outside;
  constrain_to_bounds := clamp_cloud;
  fnmatch := λ name pattern,
    glob (String.list_ascii_of_string pattern) (String.list_ascii_of_string name);
|}.

(** A per-scale algorithm that moves every point of the shape by a fixed
    step, once per iteration of its budget. *)
Definition stepper_run (a : Qc * Qc) (im : picture) (shape : cloud)
    (gt_shape : option cloud) (max_iters : Z) : result cloud :=
  Ok (apply_affine
        (translation [Qc_of_Z max_iters * a.1; Qc_of_Z max_iters * a.2])
        shape).

Definition stepper : @Algorithms planar pictures :=
  @Build_Algorithms planar pictures (Qc * Qc)%type cloud
    (list cloud * affine)%type stepper_run (λ r, r)
    (λ _ rs correction _, Ok (rs, correction)).

End Planar.

(** ** Concrete inputs *)

Module Samples.
Import Noise Planar.

Definition unit_square : cloud := [[0; 0]; [1; 0]; [1; 1]; [0; 1]].
Definition wide_square : cloud :=
  [[0; 0]; [fl 3; 0]; [fl 3; fl 3]; [0; fl 3]].
Definition unit_cube_diagonal : cloud := [[0; 0; 0]; [1; 1; 1]].

(** A generator whose every draw reads as 1/2 under [rand] and as 3 under
    [randn], and one whose draws read as 1/2 and 1. *)
Definition steady (u n : Qc) : rng :=
  {| tape := λ _, {| as_rand := u; as_randn := n |}; cursor := 0 |}.
Definition w_three : world := {| heap := ∅; gen := steady (fl 0.5) (fl 3) |}.
Definition w_one : world := {| heap := ∅; gen := steady (fl 0.5) 1 |}.

(** A world holding the one-entry list [[0.1]] at location 1. *)
Definition w_single : world :=
  {| heap := {[ 1%positive := [fl 0.1] ]}; gen := steady (fl 0.5) 1 |}.

(** A string equal to ['gaussian'] that is another object than the constant
    of the function body, as [''.join(['gauss', 'ian'])] builds. *)
Definition built_gaussian : pystr := {| obj_id := 7; chars := "gaussian" |}.

(** A fitter with two scales, the same feature function (the identity) at
    both, and a stepping algorithm per scale. *)
Definition no_op : @Fitter.Feature planar pictures :=
  @Fitter.Build_Feature planar pictures 0 Ok.
Definition two_scales : @Fitter.MultiFitter planar pictures stepper :=
  @Fitter.Build_MultiFitter planar pictures stepper
    unit_square [no_op; no_op] [fl 0.5; 1] [(1, 0); (0, 1)].

(** An image with one annotated group, and one on which a group named
    [__initial_shape] is already present. *)
Definition annotated : picture :=
  @Build_Image planar (Qc * Qc) (fl 10, fl 10) {[ "PTS" := unit_square ]}.
Definition stale : picture :=
  @Build_Image planar (Qc * Qc) (fl 10, fl 10)
    {[ "PTS" := unit_square; "__initial_shape" := wide_square ]}.
Definition fitting (im : picture) : @Fitter.fstate planar pictures stepper :=
  @Fitter.Build_fstate planar pictures stepper im [].

(** An image carrying two bounding boxes besides its annotation. *)
Definition boxed : picture :=
  @Build_Image planar (Qc * Qc) (fl 10, fl 10)
    {[ "PTS" := unit_square; "bb_a" := unit_square; "bb_b" := wide_square ]}.

(** A perturbation function that shifts the source box to the right by the
    number of calls made so far. *)
Definition drift (gt_s bb : cloud) : M nat cloud :=
  λ made, (Ok (apply_affine (translation [Qc_of_Z (Z.of_nat made); 0]) bb),
           S made).
Definition generating (ims : list picture)
    : @Perturbations.pstate planar pictures nat :=
  @Perturbations.Build_pstate planar pictures nat ims 0%nat.

(** Worlds holding a list of two entries at location 2, and lists of five
    and of three entries at locations 3 and 4. *)
Definition w_pair : world :=
  {| heap := {[ 2%positive := [fl 0.1; fl 0.2] ]};
     gen := steady (fl 0.5) 1 |}.
Definition w_lists : world :=
  {| heap := {[ 3%positive := [fl 0.1; fl 0.2; fl 0.3; fl 0.4; fl 0.5];
                4%positive := [fl 0.1; fl 0.2; fl 0.3] ]};
     gen := steady (fl 0.5) 1 |}.

(** A fitter with one scale and no feature function, and a fitter with no
    scale at all. *)
Definition featureless : @Fitter.MultiFitter planar pictures stepper :=
  @Fitter.Build_MultiFitter planar pictures stepper
    unit_square [] [1] [(1, 0)].
Definition scaleless : @Fitter.MultiFitter planar pictures stepper :=
  @Fitter.Build_MultiFitter planar pictures stepper unit_square [] [] [].

(** A per-scale algorithm that refuses a budget of zero iterations, and a
    fitter with two such algorithms. *)
Definition brittle : @Algorithms planar pictures :=
  @Build_Algorithms planar pictures (Qc * Qc)%type cloud
    (list cloud * affine)%type
    (λ a im shape gt_shape max_iters,
       if decide (max_iters = 0%Z) then Raise (ValueError "no iteration left")
       else stepper_run a im shape gt_shape max_iters)
    (λ r, r) (λ _ rs correction _, Ok (rs, correction)).
Definition two_brittle : @Fitter.MultiFitter planar pictures brittle :=
  @Fitter.Build_MultiFitter planar pictures brittle
    unit_square [no_op; no_op] [fl 0.5; 1] [(1, 0); (0, 1)].

(** Planar clouds are their own arrays of coordinates. *)
Definition planar_arrays : @Target.PointArrays planar :=
  @Target.Build_PointArrays planar (λ pc, pc) (λ pc, length pc) (λ pts, pts).

End Samples.

(** * Properties *)

(** ** Unfolding the monad *)

Ltac unfold_monad :=
  unfold mbind, M_bind, bind, mret, M_ret, ret, lift, raise, modify, get, put.

Lemma bind_ok {S A B} (m : M S A) (k : A → M S B) s a s' :
  m s = (Ok a, s') → (m ≫= k) s = k a s'.
Proof. unfold_monad. by intros ->. Qed.

Lemma bind_raise {S A B} (m : M S A) (k : A → M S B) s e s' :
  m s = (Raise e, s') → (m ≫= k) s = (Raise e, s').
Proof. unfold_monad. by intros ->. Qed.

Lemma bind_inv_ok {S A B} (m : M S A) (k : A → M S B) s b s2 :
  (m ≫= k) s = (Ok b, s2) →
  ∃ a s1, m s = (Ok a, s1) ∧ k a s1 = (Ok b, s2).
Proof.
  unfold_monad. destruct (m s) as [[a|e] s1]; [eauto | discriminate].
Qed.

(** Peel the first action off a computation known to return. *)
Ltac step H :=
  let a := fresh "a" in let s := fresh "s" in let Hs := fresh "Hs" in
  apply bind_inv_ok in H as (a & s & Hs & H).

(** ** Perturbed similarity alignment *)

Section noise_facts.
Import Noise.
Context `{MP : Menpo}.

Lemma drawn_drawn j k w : drawn k (drawn j w) = drawn (j + k) w.
Proof. unfold drawn; simpl. by rewrite Nat.add_assoc. Qed.

Ltac normalise_cursor c :=
  replace (c + 0)%nat with c by lia;
  replace (c + 1 + 1)%nat with (c + 2)%nat by lia;
  replace (S (c + 2))%nat with (c + 3)%nat by lia;
  replace (c + 2 + 2)%nat with (c + 4)%nat by lia.

(** The gaussian noise on any target: the translation is the product, as
    numpy forms it, of [p2 * (range / 3)] with two normal draws. *)
Lemma gaussian_noise_eval p0 p1 p2 (target : PointCloud) w :
  gaussian_noise [p0; p1; p2] target w =
    (match Np.mul (Np.scale p2 (Np.div (range target) (fl 3)))
             [normal w 2; normal w 3] with
     | Ok t => Ok (p0 * (fl 0.5 / fl 3) * normal w 0,
                   p1 * (fl 180 / fl 3) * normal w 1, t)
     | Raise e => Raise e
     end, drawn 4 w).
Proof.
  unfold gaussian_noise, randn, draw, getitem, normal, drawn.
  unfold_monad. simpl.
  normalise_cursor (cursor (gen w)).
  by destruct (Np.mul _ _).
Qed.

Lemma gaussian_noise_planar p0 p1 p2 rx ry (target : PointCloud) w :
  range target = [rx; ry] →
  gaussian_noise [p0; p1; p2] target w =
    (Ok (p0 * (fl 0.5 / fl 3) * normal w 0,
         p1 * (fl 180 / fl 3) * normal w 1,
         [p2 * (rx / fl 3) * normal w 2; p2 * (ry / fl 3) * normal w 3]),
     drawn 4 w).
Proof.
  intros Hr. unfold gaussian_noise, randn, draw, getitem, normal, drawn.
  unfold_monad. simpl. rewrite Hr. simpl.
  by normalise_cursor (cursor (gen w)).
Qed.

Lemma uniform_noise_planar p0 p1 p2 rx ry (target : PointCloud) w :
  range target = [rx; ry] →
  uniform_noise [p0; p1; p2] target w =
    (Ok (p0 * fl 0.5 * (2 * normal w 0 - 1),
         p1 * fl 180 * (2 * uniform w 1 - 1),
         [p2 * rx * (2 * uniform w 2 - 1); p2 * ry * (2 * uniform w 3 - 1)]),
     drawn 4 w).
Proof.
  intros Hr. unfold uniform_noise, rand, randn, draw, getitem, normal, uniform, drawn.
  unfold_monad. simpl. rewrite Hr. simpl.
  by normalise_cursor (cursor (gen w)).
Qed.

Lemma keeps_heap_bind {A B} (m : M world A) (k : A → M world B) :
  keeps_heap m → (∀ a, keeps_heap (k a)) → keeps_heap (m ≫= k).
Proof.
  intros Hm Hk w. unfold_monad. specialize (Hm w).
  destruct (m w) as [[a|e] w1]; simpl in *; [|done].
  by rewrite Hk.
Qed.

Lemma keeps_heap_ret {A} (a : A) : keeps_heap (mret a).
Proof. done. Qed.
Lemma keeps_heap_raise {A} e : keeps_heap (raise e : M world A).
Proof. done. Qed.
Lemma keeps_heap_lift {A} (r : result A) : keeps_heap (lift r).
Proof. done. Qed.
Lemma keeps_heap_getitem {A} (xs : list A) i : keeps_heap (getitem xs i).
Proof. done. Qed.
Lemma keeps_heap_draw read k : keeps_heap (draw read k).
Proof. done. Qed.

Ltac keeps_heap :=
  repeat first
    [ apply keeps_heap_ret | apply keeps_heap_raise | apply keeps_heap_lift
    | apply keeps_heap_getitem | apply keeps_heap_draw
    | apply keeps_heap_bind; [|intros ?]
    | match goal with |- keeps_heap (match ?x with _ => _ end) => destruct x end
    | match goal with |- keeps_heap (if ?x then _ else _) => destruct x end ].

Lemma keeps_heap_gaussian_noise pct (target : PointCloud) :
  keeps_heap (gaussian_noise pct target).
Proof. unfold gaussian_noise, randn. keeps_heap. Qed.

Lemma keeps_heap_uniform_noise pct (target : PointCloud) :
  keeps_heap (uniform_noise pct target).
Proof. unfold uniform_noise, randn, rand. keeps_heap. Qed.

Lemma noisy_alignment_unfold source target noise_type noise_percentage rotation :
  noisy_alignment_similarity_transform source target noise_type
    noise_percentage rotation =
  (percentage_triple noise_percentage ≫=
     perturb_with source target noise_type rotation).
Proof. reflexivity. Qed.

Lemma keeps_heap_perturb_with source target noise_type rotation pct :
  keeps_heap (perturb_with source target noise_type rotation pct).
Proof.
  unfold perturb_with. keeps_heap;
    auto using keeps_heap_gaussian_noise, keeps_heap_uniform_noise.
Qed.

Lemma perturb_with_gaussian source target noise_type rotation pct s r t w w' :
  py_is noise_type lit_gaussian = true →
  gaussian_noise pct target w = (Ok (s, r, t), w') →
  perturb_with source target noise_type rotation pct w =
    (Ok (compose_after (AlignmentSimilarity source target rotation)
           (compose_after (Translation t (n_dims source))
              (compose_after (scale_about_centre target (1 + s))
                 (rotate_ccw_about_centre target r)))), w').
Proof.
  intros Hg Hn. unfold perturb_with. rewrite Hg.
  unfold_monad. by rewrite Hn.
Qed.

Lemma perturb_with_gaussian_raise source target noise_type rotation pct e w w' :
  py_is noise_type lit_gaussian = true →
  gaussian_noise pct target w = (Raise e, w') →
  perturb_with source target noise_type rotation pct w = (Raise e, w').
Proof.
  intros Hg Hn. unfold perturb_with. rewrite Hg.
  unfold_monad. by rewrite Hn.
Qed.

Lemma uniform_is_not_gaussian noise_type :
  py_is noise_type lit_uniform = true → py_is noise_type lit_gaussian = false.
Proof.
  unfold py_is. intros H%bool_decide_eq_true.
  apply bool_decide_eq_false. by rewrite H.
Qed.

Lemma perturb_with_uniform source target noise_type rotation pct s r t w w' :
  py_is noise_type lit_uniform = true →
  uniform_noise pct target w = (Ok (s, r, t), w') →
  perturb_with source target noise_type rotation pct w =
    (Ok (compose_after (AlignmentSimilarity source target rotation)
           (compose_after (Translation t (n_dims source))
              (compose_after (scale_about_centre target (1 + s))
                 (rotate_ccw_about_centre target r)))), w').
Proof.
  intros Hu Hn. unfold perturb_with.
  rewrite (uniform_is_not_gaussian _ Hu), Hu.
  unfold_monad. by rewrite Hn.
Qed.

Lemma percentage_triple_float p w :
  percentage_triple (PyFloat p) w = (Ok [p; p; p], w).
Proof. reflexivity. Qed.

Lemma percentage_triple_three l p0 p1 p2 w :
  heap w !! l = Some [p0; p1; p2] →
  percentage_triple (PyList l) w = (Ok [p0; p1; p2], w).
Proof.
  intros H. unfold percentage_triple, load. unfold_monad. by rewrite H.
Qed.

Lemma percentage_triple_single l p w :
  heap w !! l = Some [p] →
  percentage_triple (PyList l) w =
    (Ok [p; p; p], {| heap := <[l := [p; p; p]]> (heap w); gen := gen w |}).
Proof.
  intros H. unfold percentage_triple, load, store. unfold_monad.
  by rewrite H.
Qed.

End noise_facts.

(** ** The planar instance satisfies the laws *)

Section planar_facts.
Import Planar.

Lemma after_identity f : after f (uniform_scale 1) = f.
Proof.
  destruct f; unfold after, uniform_scale; simpl; f_equal; ring.
Qed.

Lemma scale_about_one pc : scale_about pc 1 = uniform_scale 1.
Proof.
  unfold scale_about, about, uniform_scale; simpl; f_equal; ring.
Qed.

Lemma rotate_about_zero pc : rotate_about pc 0 = uniform_scale 1.
Proof.
  unfold rotate_about.
  assert (0 * fl (355 # 113) / fl 360 = 0) as -> by (apply Qc_is_canon; reflexivity).
  assert ((1 - 0 * 0) / (1 + 0 * 0) = 1) as -> by (apply Qc_is_canon; reflexivity).
  assert (2 * 0 / (1 + 0 * 0) = 0) as -> by (apply Qc_is_canon; reflexivity).
  unfold about, uniform_scale; simpl; f_equal; ring.
Qed.

Lemma translation_zero : translation [0; 0] = uniform_scale 1.
Proof. reflexivity. Qed.

Lemma apply_uniform_scale_one pc : apply_affine (uniform_scale 1) pc = pc.
Proof.
  unfold apply_affine. induction pc as [|p pc IH]; [done|].
  cbn [map]. f_equal; [|exact IH].
  destruct p as [|x [|y [|z p]]]; try done.
  simpl. f_equal; [|f_equal]; ring.
Qed.

Global Instance planar_neutral : NeutralTransforms planar.
Proof.
  split; simpl.
  - intros f target. by rewrite scale_about_one, after_identity.
  - intros f target. by rewrite rotate_about_zero, after_identity.
  - intros f _. by rewrite translation_zero, after_identity.
Qed.

Global Instance planar_unit_scale : UnitScale planar.
Proof. split; simpl. intros _ s. apply apply_uniform_scale_one. Qed.

End planar_facts.

(** ** Claims on [noisy_alignment_similarity_transform] *)

Section noise_claims.
Import Noise Planar Samples.

(** C10.  When [noise_percentage] is a list object holding a single entry
    [p], the call extends that very object to [[p, p, p]]: whatever the
    outcome of the call, the caller's list reads [[p, p, p]] afterwards and
    no other list object has changed. *)
Theorem single_entry_list_is_extended_in_place `{MP : Menpo}
    (source target : PointCloud) noise_type rotation l p w :
  heap w !! l = Some [p] →
  heap (noisy_alignment_similarity_transform source target noise_type
          (PyList l) rotation w).2 = <[l := [p; p; p]]> (heap w).
Proof.
  intros Hl. rewrite noisy_alignment_unfold.
  rewrite (bind_ok _ _ _ _ _ (percentage_triple_single _ _ _ Hl)).
  by rewrite keeps_heap_perturb_with.
Qed.

Lemma single_entry_list_is_extended_in_place_witness :
  heap (noisy_alignment_similarity_transform (MP := planar)
          unit_square wide_square lit_uniform (PyList 1%positive) false
          w_single).2
  = <[1%positive := [fl 0.1; fl 0.1; fl 0.1]]> (heap w_single).
Proof.
  apply (single_entry_list_is_extended_in_place (MP := planar)).
  reflexivity.
Defined.

(** C1.  In the ['uniform'] branch the scale noise is computed from a
    [randn] draw.  With percentage 0.1 and a generator whose next draw reads
    as 3 under [randn] (and as 1/2 under [rand]) the scale noise is
    [0.1 * 0.5 * (2 * 3 - 1) = 0.25] and the call returns the scaling by
    1.25 about the centre of the target; the draw of U(-1, 1) obtained from
    the [rand] reading is 0, and no [u] of [-1, 1] gives
    [0.1 * 0.5 * u = 0.25]. *)
Theorem uniform_scale_noise_reads_randn :
  (uniform_noise (MP := planar) [fl 0.1; fl 0.1; fl 0.1] unit_square
     w_three).1 = Ok (fl 0.25, 0, [0; 0]) ∧
  (noisy_alignment_similarity_transform (MP := planar) unit_square
     unit_square lit_uniform (PyFloat (fl 0.1)) false w_three).1
    = Ok (scale_about unit_square (fl 1.25)) ∧
  2 * uniform w_three 0 - 1 = 0 ∧
  ∀ u, -1 ≤ u → u ≤ 1 → fl 0.25 ≠ fl 0.1 * fl 0.5 * u.
Proof.
  split; [compute_done|]. split; [compute_done|]. split; [compute_done|].
  intros u _ Hu Heq.
  assert (u = fl 5) as ->.
  { assert (fl 0.1 * fl 0.5 * u * fl 20 = fl 0.25 * fl 20) as E
      by by rewrite <- Heq.
    assert (fl 0.1 * fl 0.5 * u * fl 20 = u) as E1.
    { transitivity (fl 0.1 * fl 0.5 * fl 20 * u); [ring|].
      assert (fl 0.1 * fl 0.5 * fl 20 = 1) as -> by compute_done.
      ring. }
    rewrite E1 in E. rewrite E. compute_done. }
  revert Hu. compute_done.
Qed.

(** C2, as stated, fails: on a target of extent 3 along both axes, with
    percentage 1 and normal draws all equal to 1, the translation noise is
    [1 * (3 / 3) * 1 = 1] per axis and not [1 * 3 * 1 = 3]. *)
Lemma gaussian_translation_without_third_cex :
  range (Menpo := planar) wide_square = [fl 3; fl 3] ∧
  (gaussian_noise (MP := planar) [1; 1; 1] wide_square w_one).1
    = Ok (fl (1 # 6), fl 60, [1; 1]) ∧
  [1; 1] ≠ [1 * fl 3 * normal w_one 2; 1 * fl 3 * normal w_one 3].
Proof. split; [compute_done|]. split; compute_done. Qed.

(** C2, amended.  For the constant ['gaussian'], every source and target,
    and percentages [p0, p1, p2], the translation perturbation is
    [p2 * (target.range() / 3) * n], the product numpy forms of the range
    divided by three with a vector [n] of two standard-normal draws: the
    third applies to the translation as it does to the scale and the
    rotation.  The call returns the alignment composed with that
    translation, scale and rotation (and raises when numpy cannot form the
    product).  On a target with two axes of extents [rx] and [ry] the
    translation is [p2 * (rx / 3) * n0] and [p2 * (ry / 3) * n1]. *)
Theorem gaussian_translation_scaled_by_third `{MP : Menpo}
    (source target : PointCloud) noise_type noise_percentage rotation
    p0 p1 p2 w w1 :
  py_is noise_type lit_gaussian = true →
  percentage_triple noise_percentage w = (Ok [p0; p1; p2], w1) →
  let s := p0 * (fl 0.5 / fl 3) * normal w1 0 in
  let r := p1 * (fl 180 / fl 3) * normal w1 1 in
  let t := Np.mul (Np.scale p2 (Np.div (range target) (fl 3)))
             [normal w1 2; normal w1 3] in
  gaussian_noise [p0; p1; p2] target w1 =
    (match t with Ok t => Ok (s, r, t) | Raise e => Raise e end,
     drawn 4 w1) ∧
  noisy_alignment_similarity_transform source target noise_type
    noise_percentage rotation w =
    (match t with
     | Ok t =>
         Ok (compose_after (AlignmentSimilarity source target rotation)
               (compose_after (Translation t (n_dims source))
                  (compose_after (scale_about_centre target (1 + s))
                     (rotate_ccw_about_centre target r))))
     | Raise e => Raise e
     end, drawn 4 w1) ∧
  (∀ rx ry, range target = [rx; ry] →
     t = Ok [p2 * (rx / fl 3) * normal w1 2; p2 * (ry / fl 3) * normal w1 3]).
Proof.
  intros Hg Hp s r t.
  pose proof (gaussian_noise_eval p0 p1 p2 target w1) as Hn.
  fold s r t in Hn. split; [exact Hn|]. split.
  - rewrite noisy_alignment_unfold, (bind_ok _ _ _ _ _ Hp).
    destruct t as [t'|e].
    + by apply perturb_with_gaussian.
    + by apply perturb_with_gaussian_raise.
  - intros rx ry Hr. subst t. by rewrite Hr.
Qed.

Lemma gaussian_translation_scaled_by_third_witness :
  let s := 1 * (fl 0.5 / fl 3) * normal w_one 0 in
  let r := 1 * (fl 180 / fl 3) * normal w_one 1 in
  let t := Np.mul (Np.scale 1 (Np.div (range (Menpo := planar) wide_square)
                                 (fl 3)))
             [normal w_one 2; normal w_one 3] in
  gaussian_noise (MP := planar) [1; 1; 1] wide_square w_one =
    (match t with Ok t => Ok (s, r, t) | Raise e => Raise e end,
     drawn 4 w_one) ∧
  noisy_alignment_similarity_transform (MP := planar) unit_square wide_square
    lit_gaussian (PyFloat 1) false w_one =
    (match t with
     | Ok t =>
         Ok (after (align unit_square wide_square)
               (after (translation t)
                  (after (scale_about wide_square (1 + s))
                     (rotate_about wide_square r))))
     | Raise e => Raise e
     end, drawn 4 w_one) ∧
  (∀ rx ry, range (Menpo := planar) wide_square = [rx; ry] →
     t = Ok [1 * (rx / fl 3) * normal w_one 2;
             1 * (ry / fl 3) * normal w_one 3]).
Proof.
  apply (gaussian_translation_scaled_by_third (MP := planar)
           unit_square wide_square lit_gaussian (PyFloat 1) false
           1 1 1 w_one w_one);
    reflexivity.
Defined.

(** C5, as stated, fails on two kinds of input.  The zero scalar given as
    the int [0] is not a float, and [len(0)] raises [TypeError].  A target
    with three axes has a range of three entries, which cannot be multiplied
    with the two draws of [rand(2)]: numpy raises [ValueError]. *)
Lemma zero_noise_everywhere_cex :
  (noisy_alignment_similarity_transform (MP := planar) unit_square
     unit_square lit_uniform (PyInt 0) false w_three).1
    = Raise (TypeError "object of type 'int' has no len()") ∧
  (noisy_alignment_similarity_transform (MP := planar) unit_cube_diagonal
     unit_cube_diagonal lit_uniform (PyFloat 0) false w_three).1
    = Raise (ValueError "operands could not be broadcast together").
Proof. split; compute_done. Qed.

Lemma zero_gaussian_noise `{MP : Menpo} (target : PointCloud) rx ry w :
  range target = [rx; ry] →
  gaussian_noise [0; 0; 0] target w = (Ok (0, 0, [0; 0]), drawn 4 w).
Proof.
  intros Hr. rewrite (gaussian_noise_planar _ _ _ _ _ _ _ Hr).
  by rewrite !Qcmult_0_l.
Qed.

Lemma zero_uniform_noise `{MP : Menpo} (target : PointCloud) rx ry w :
  range target = [rx; ry] →
  uniform_noise [0; 0; 0] target w = (Ok (0, 0, [0; 0]), drawn 4 w).
Proof.
  intros Hr. rewrite (uniform_noise_planar _ _ _ _ _ _ _ Hr).
  by rewrite !Qcmult_0_l.
Qed.

Lemma zero_perturb_with `{MP : Menpo} `{!NeutralTransforms MP}
    (source target : PointCloud) noise_type rotation w :
  length (range target) = 2%nat →
  py_is noise_type lit_gaussian = true ∨ py_is noise_type lit_uniform = true →
  perturb_with source target noise_type rotation [0; 0; 0] w =
    (Ok (AlignmentSimilarity source target rotation), drawn 4 w).
Proof.
  intros Hlen Hnt.
  destruct (range target) as [|rx [|ry [|? ?]]] eqn:Hr; try done.
  assert (compose_after (AlignmentSimilarity source target rotation)
            (compose_after (Translation [0; 0] (n_dims source))
               (compose_after (scale_about_centre target (1 + 0))
                  (rotate_ccw_about_centre target 0)))
          = AlignmentSimilarity source target rotation) as Hid.
  { rewrite Qcplus_0_r.
    by rewrite compose_rotate_zero, compose_scale_one, compose_translate_zero. }
  destruct Hnt as [Hg|Hu].
  - rewrite (perturb_with_gaussian _ _ _ _ _ _ _ _ _ _ Hg
               (zero_gaussian_noise _ _ _ _ Hr)).
    by rewrite Hid.
  - rewrite (perturb_with_uniform _ _ _ _ _ _ _ _ _ _ Hu
               (zero_uniform_noise _ _ _ _ Hr)).
    by rewrite Hid.
Qed.

(** C5, amended.  For a target with two axes, a [noise_type] that is one of
    the two constants, and [noise_percentage] the float [0.0], a list
    [[0.0, 0.0, 0.0]] or a list [[0.0]], the call raises nothing and returns
    exactly the similarity alignment of source and target (given that
    menpo's scale by one, rotation by zero and translation by zero are
    neutral for composition). *)
Theorem zero_noise_is_plain_alignment `{MP : Menpo} `{!NeutralTransforms MP}
    (source target : PointCloud) noise_type noise_percentage rotation w :
  length (range target) = 2%nat →
  py_is noise_type lit_gaussian = true ∨ py_is noise_type lit_uniform = true →
  (noise_percentage = PyFloat 0 ∨
   ∃ l, noise_percentage = PyList l ∧
        (heap w !! l = Some [0; 0; 0] ∨ heap w !! l = Some [0])) →
  (noisy_alignment_similarity_transform source target noise_type
     noise_percentage rotation w).1
  = Ok (AlignmentSimilarity source target rotation).
Proof.
  intros Hlen Hnt Hp. rewrite noisy_alignment_unfold.
  destruct Hp as [->|(l & -> & [Hl|Hl])].
  - rewrite (bind_ok _ _ _ _ _ (percentage_triple_float _ _)).
    by rewrite zero_perturb_with.
  - rewrite (bind_ok _ _ _ _ _ (percentage_triple_three _ _ _ _ _ Hl)).
    by rewrite zero_perturb_with.
  - rewrite (bind_ok _ _ _ _ _ (percentage_triple_single _ _ _ Hl)).
    by rewrite zero_perturb_with.
Qed.

Lemma zero_noise_is_plain_alignment_witness :
  (noisy_alignment_similarity_transform (MP := planar) unit_square
     wide_square lit_gaussian (PyFloat 0) true w_three).1
  = Ok (align unit_square wide_square).
Proof.
  apply (zero_noise_is_plain_alignment (MP := planar)
           unit_square wide_square lit_gaussian (PyFloat 0) true w_three).
  - reflexivity.
  - left. reflexivity.
  - left. reflexivity.
Defined.

(** The error of line 68 is raised exactly when [noise_type] is neither of
    the two constant objects, compared by identity.  (Percentages and target
    are taken such that the lines before line 68 raise nothing.) *)
Lemma noise_type_error_iff_other_object `{MP : Menpo}
    (source target : PointCloud) noise_type rotation p rx ry w :
  range target = [rx; ry] →
  (noisy_alignment_similarity_transform source target noise_type
     (PyFloat p) rotation w).1 = Raise (ValueError unexpected_noise_type)
  ↔ py_is noise_type lit_gaussian = false ∧ py_is noise_type lit_uniform = false.
Proof.
  intros Hr. rewrite noisy_alignment_unfold.
  rewrite (bind_ok _ _ _ _ _ (percentage_triple_float _ _)).
  destruct (py_is noise_type lit_gaussian) eqn:Hg.
  - rewrite (perturb_with_gaussian _ _ _ _ _ _ _ _ _ _ Hg
               (gaussian_noise_planar _ _ _ _ _ _ _ Hr)).
    simpl. split; [done|]. by intros [? _].
  - destruct (py_is noise_type lit_uniform) eqn:Hu.
    + rewrite (perturb_with_uniform _ _ _ _ _ _ _ _ _ _ Hu
                 (uniform_noise_planar _ _ _ _ _ _ _ Hr)).
      simpl. split; [done|]. by intros [_ ?].
    + unfold perturb_with. rewrite Hg, Hu. by unfold_monad.
Qed.

(** A live string that differs from both constants in its characters is
    neither of the two objects. *)
Lemma other_chars_other_object noise_type :
  live_str noise_type →
  chars noise_type ≠ "gaussian" → chars noise_type ≠ "uniform" →
  py_is noise_type lit_gaussian = false ∧ py_is noise_type lit_uniform = false.
Proof.
  intros [Lg Lu] Hg Hu. unfold py_is.
  split; apply bool_decide_eq_false; intros E.
  - apply Hg. by rewrite (Lg E).
  - apply Hu. by rewrite (Lu E).
Qed.

(** The message of that error names both supported values. *)
Lemma unexpected_noise_type_names_both :
  ∃ a b c,
    unexpected_noise_type = a +:+ "gaussian" +:+ b +:+ "uniform" +:+ c.
Proof.
  by exists "Unexpected noise type. Supported values are {", ", ", "}".
Qed.

(** C6.  The comparison of lines 51 and 59 is by identity.  A string equal
    to ['gaussian'] that is another object than the constant is a live
    string whose characters are a supported value, and the call raises the
    [ValueError] of line 68 on it. *)
Theorem equal_string_other_object_is_rejected :
  chars built_gaussian = "gaussian" ∧
  py_eq built_gaussian lit_gaussian = true ∧
  live_str built_gaussian ∧
  (noisy_alignment_similarity_transform (MP := planar) unit_square
     unit_square built_gaussian (PyFloat (fl 0.1)) false w_three).1
    = Raise (ValueError
        "Unexpected noise type. Supported values are {gaussian, uniform}").
Proof.
  split; [done|]. split; [done|]. split; [by split|]. compute_done.
Qed.

End noise_claims.

(** ** Computations that leave the state alone *)

Lemma keeps_state_bind {S A B} (m : M S A) (k : A → M S B) :
  keeps_state m → (∀ a, keeps_state (k a)) → keeps_state (m ≫= k).
Proof.
  intros Hm Hk s. unfold_monad. specialize (Hm s).
  destruct (m s) as [[a|e] s1]; simpl in *; subst; [|done].
  apply Hk.
Qed.

Lemma keeps_state_ret {S A} (a : A) : keeps_state (mret a : M S A).
Proof. done. Qed.
Lemma keeps_state_raise {S A} e : keeps_state (raise e : M S A).
Proof. done. Qed.
Lemma keeps_state_lift {S A} (r : result A) : keeps_state (lift r : M S A).
Proof. done. Qed.
Lemma keeps_state_get {S} : keeps_state (get : M S S).
Proof. done. Qed.

Lemma keeps_state_foldM {S A B} (body : B → A → M S B) xs :
  (∀ b x, keeps_state (body b x)) → ∀ b, keeps_state (foldM body b xs).
Proof.
  intros Hb. induction xs as [|x xs IH]; intros b; simpl.
  - apply keeps_state_ret.
  - apply keeps_state_bind; [apply Hb | intros b'; apply IH].
Qed.

Ltac keeps_state :=
  repeat first
    [ apply keeps_state_ret | apply keeps_state_raise | apply keeps_state_lift
    | apply keeps_state_get
    | apply keeps_state_bind; [|intros ?]
    | apply keeps_state_foldM; intros ? ?
    | match goal with |- keeps_state (match ?x with _ => _ end) => destruct x end
    | match goal with |- keeps_state (if ?x then _ else _) => destruct x end ].

Lemma keeps_state_ok {S A} (m : M S A) s a s' :
  keeps_state m → m s = (Ok a, s') → s' = s.
Proof. intros Hm H. specialize (Hm s). by rewrite H in Hm. Qed.

(** ** Claims on the multi-scale fitter *)

Section fitter_facts.
Import Fitter.
Context `{AL : Algorithms}.

Lemma keeps_state_prepare_level self tmp_image acc i :
  keeps_state (prepare_level self tmp_image acc i).
Proof.
  destruct acc as [feature_image images]. unfold prepare_level, getitem.
  keeps_state.
Qed.

Lemma keeps_state_lms {S} (i : Image Pixels) group :
  keeps_state (lms i group : M S PointCloud).
Proof. unfold lms. keeps_state. Qed.

Lemma delitem_ok group st u st' :
  delitem group st = (Ok u, st') →
  st' = {| image := {| pixels := pixels (image st);
                       landmarks := delete group (landmarks (image st)) |};
           calls := calls st |}.
Proof.
  unfold delitem. destruct (landmarks (image st) !! group); [|done].
  by intros [= _ <-].
Qed.

Lemma prepare_image_final_state self initial_shape gt_shape crop_image st r st' :
  _prepare_image self initial_shape gt_shape crop_image st = (Ok r, st') →
  st' = {| image := {| pixels := pixels (image st);
                       landmarks := detached gt_shape (landmarks (image st)) |};
           calls := calls st |}.
Proof.
  intros H. unfold _prepare_image in H.
  step H. step H. step H. step H. step H. step H.
  destruct a4 as [? images].
  step H. step H. step H. step H.
  injection H as _ <-.
  apply keeps_state_ok in Hs2; [|by keeps_state].
  apply keeps_state_ok in Hs3; [|by keeps_state].
  apply keeps_state_ok in Hs4;
    [|by apply keeps_state_foldM; intros; apply keeps_state_prepare_level].
  apply keeps_state_ok in Hs5;
    [|by apply keeps_state_foldM; intros; apply keeps_state_bind;
         [apply keeps_state_lms | intros; apply keeps_state_ret]].
  apply keeps_state_ok in Hs6;
    [|destruct gt_shape; keeps_state; apply keeps_state_lms].
  injection Hs1 as <- <-. injection Hs as _ <-.
  subst. apply delitem_ok in Hs7. subst s7.
  destruct gt_shape as [g|].
  - apply delitem_ok in Hs8. injection Hs0 as _ <-. subst s8. simpl.
    do 2 f_equal.
    rewrite (delete_insert_ne _ "__initial_shape" "__gt_shape") by done.
    by rewrite delete_insert_eq, delete_insert_eq.
  - injection Hs8 as _ <-. injection Hs0 as _ <-. simpl.
    do 2 f_equal. by rewrite delete_insert_eq.
Qed.

Lemma logged_nil st : logged st [] = st.
Proof. destruct st. unfold logged. simpl. by rewrite app_nil_r. Qed.

Lemma logged_logged st xs ys : logged (logged st xs) ys = logged st (xs ++ ys).
Proof. unfold logged. simpl. by rewrite app_assoc. Qed.

Lemma fit_level_inv self images gts budgets shape gt results i st r st' :
  fit_level self images gts budgets (shape, gt, results) i st = (r, st') →
  (st' = st ∧ is_ok r = false) ∨
  ∃ c, st' = logged st [c] ∧
       algorithms self !! i = Some (call_algorithm c) ∧
       images !! i = Some (call_image c) ∧
       budgets !! i = Some (call_max_iters c) ∧
       call_shape c = shape ∧
       match run_call c with
       | Raise e => r = Raise e
       | Ok res =>
           match next_shape self i res with
           | Ok shape' => r = Ok (shape', call_gt_shape c, results ++ [res])
           | Raise e => r = Raise e
           end
       end.
Proof.
  unfold fit_level, getitem, run_recorded, index. unfold_monad.
  destruct gts as [gs|]; [destruct (gs !! i) as [g|]|]; simpl;
    try (intros [= <- <-]; by left);
    (destruct (algorithms self !! i) as [a|]; simpl;
       [|intros [= <- <-]; by left]);
    (destruct (images !! i) as [im|]; simpl;
       [|intros [= <- <-]; by left]);
    (destruct (budgets !! i) as [mi|]; simpl;
       [|intros [= <- <-]; by left]);
    intros H;
    (destruct run as [res|e] eqn:Hrun;
       [destruct next_shape as [shape'|e] eqn:Hns|]);
    injection H as <- <-; right;
    (eexists (Build_call _ _ _ _ _); unfold run_call, logged; simpl;
     do 5 (split; [reflexivity|]));
    rewrite Hrun; try rewrite Hns; done.
Qed.

Lemma fit_loop_inv self images gts budgets n :
  ∀ i0 shape gt results st r st',
  foldM (fit_level self images gts budgets) (shape, gt, results) (seq i0 n) st
    = (r, st') →
  ∃ new, st' = logged st new ∧
    (length new ≤ n)%nat ∧
    (is_ok r = true → length new = n) ∧
    (∀ j c, new !! j = Some c →
       algorithms self !! (i0 + j)%nat = Some (call_algorithm c) ∧
       images !! (i0 + j)%nat = Some (call_image c) ∧
       budgets !! (i0 + j)%nat = Some (call_max_iters c)) ∧
    (∀ c, new !! 0%nat = Some c → call_shape c = shape) ∧
    (∀ j c c', new !! j = Some c → new !! S j = Some c' →
       ∃ res, run_call c = Ok res ∧
              next_shape self (i0 + j) res = Ok (call_shape c')).
Proof.
  induction n as [|n IH]; intros i0 shape gt results st r st'; cbn [foldM seq].
  - intros [= <- <-]. exists []. rewrite logged_nil.
    repeat split; done.
  - unfold mbind at 1, M_bind at 1, bind at 1.
    destruct (fit_level _ _ _ _ _ _ st) as [r1 st1] eqn:Hl.
    apply fit_level_inv in Hl as [[-> Hr1]|(c & -> & Ha & Hi & Hb & Hs & Hrun)].
    { destruct r1 as [?|e]; [done|]. intros H. injection H as ? ?. subst st' r.
      exists []. rewrite logged_nil.
      repeat split; try done; simpl; lia. }
    assert (∀ e, r = Raise e → st' = logged st [c] →
      ∃ new, st' = logged st new ∧ (length new ≤ S n)%nat ∧
        (is_ok r = true → length new = S n) ∧
        (∀ j c0, new !! j = Some c0 →
           algorithms self !! (i0 + j)%nat = Some (call_algorithm c0) ∧
           images !! (i0 + j)%nat = Some (call_image c0) ∧
           budgets !! (i0 + j)%nat = Some (call_max_iters c0)) ∧
        (∀ c0, new !! 0%nat = Some c0 → call_shape c0 = shape) ∧
        (∀ j c0 c', new !! j = Some c0 → new !! S j = Some c' →
           ∃ res, run_call c0 = Ok res ∧
                  next_shape self (i0 + j) res = Ok (call_shape c'))) as Hstop.
    { intros e -> ->. exists [c]. split; [done|]. split; [simpl; lia|].
      split; [done|]. split; [|split].
      - intros [|j] c0 Hj; [|done]. injection Hj as <-.
        by rewrite Nat.add_0_r.
      - by intros c0 [= <-].
      - by intros [|j] c0 c' Hj Hj'. }
    destruct (run_call c) as [res|e] eqn:Hrc.
    2:{ subst r1. intros H. injection H as ? ?. by eapply Hstop. }
    destruct (next_shape self i0 res) as [shape'|e] eqn:Hns.
    2:{ subst r1. intros H. injection H as ? ?. by eapply Hstop. }
    subst r1. intros Hrest.
    apply IH in Hrest as (new & -> & Hlen & Hok & Hidx & Hfirst & Hchain).
    exists (c :: new). rewrite logged_logged.
    split; [done|]. split; [simpl; lia|].
    split; [intros Hr; simpl; by rewrite Hok|].
    split; [|split].
    + intros [|j] c0 Hj.
      * injection Hj as <-. by rewrite Nat.add_0_r.
      * replace (i0 + S j)%nat with (S i0 + j)%nat by lia. by apply Hidx.
    + by intros c0 [= <-].
    + intros [|j] c0 c' Hj Hj'.
      * injection Hj as <-. simpl in Hj'. exists res.
        rewrite Nat.add_0_r. split; [done|].
        by rewrite (Hfirst _ Hj').
      * replace (i0 + S j)%nat with (S i0 + j)%nat by lia.
        by apply (Hchain j).
Qed.

Lemma fit_mismatch self images initial_shape gt_shapes max_iters st e :
  check_max_iters max_iters (n_scales self) = Raise e →
  _fit self images initial_shape gt_shapes max_iters st = (Raise e, st).
Proof. intros H. unfold _fit. unfold_monad. by rewrite H. Qed.

Lemma fit_inv self images initial_shape gt_shapes max_iters st budgets :
  check_max_iters max_iters (n_scales self) = Ok budgets →
  ∃ new,
    (_fit self images initial_shape gt_shapes max_iters st).2 = logged st new ∧
    (length new ≤ n_scales self)%nat ∧
    (is_ok (_fit self images initial_shape gt_shapes max_iters st).1 = true →
     length new = n_scales self) ∧
    (∀ j c, new !! j = Some c →
       algorithms self !! j = Some (call_algorithm c) ∧
       images !! j = Some (call_image c) ∧
       budgets !! j = Some (call_max_iters c)) ∧
    (∀ c, new !! 0%nat = Some c → call_shape c = initial_shape) ∧
    (∀ j c c', new !! j = Some c → new !! S j = Some c' →
       ∃ res, run_call c = Ok res ∧
              next_shape self j res = Ok (call_shape c')).
Proof.
  intros Hc. unfold _fit.
  rewrite (bind_ok _ _ st budgets st) by (unfold_monad; by rewrite Hc).
  unfold mbind, M_bind, bind.
  destruct (foldM _ _ _ st) as [r st'] eqn:Hloop.
  apply fit_loop_inv in Hloop as (new & -> & Hlen & Hok & Hidx & Hfirst & Hchain).
  exists new.
  assert (∀ A (x : result A) (s : fstate), (x, s).2 = s) as Hsnd by done.
  destruct r as [[[? ?] results]|e]; simpl; repeat split; auto;
    by apply (Hidx j).
Qed.

Lemma non_decreasing_lookup xs i j x y :
  non_decreasing xs → (i ≤ j)%nat → xs !! i = Some x → xs !! j = Some y →
  x ≤ y.
Proof.
  intros Hs%Sorted_StronglySorted; [|intros ???; apply Qcle_trans].
  revert i j. induction Hs as [|z xs Hs IH Hz]; intros i j Hij Hi Hj; [done|].
  destruct i as [|i], j as [|j]; simpl in *; try lia.
  - injection Hi as <-. injection Hj as <-. apply Qcle_refl.
  - injection Hi as <-. rewrite Forall_forall in Hz.
    apply Hz. by eapply list_elem_of_lookup_2.
  - apply (IH i j); [lia|done..].
Qed.

(** The last pass hands the final shape on unchanged (and raises nothing,
    although [scales[i + 1]] does not exist). *)
Lemma next_shape_last self i res :
  S i = n_scales self → next_shape self i res = Ok (final_shape res).
Proof.
  unfold n_scales, next_shape, index, index_last. intros Hn.
  rewrite last_lookup, <- Hn. simpl.
  destruct (scales self !! i) as [si|] eqn:Hi.
  - simpl. by rewrite decide_False by (intros H; by apply H).
  - apply lookup_ge_None in Hi. lia.
Qed.

(** An earlier pass hands on the final shape rescaled by the ratio of the
    next scale factor to the current one. *)
Lemma next_shape_rescaled `{!UnitScale MP} self i res si sn :
  non_decreasing (scales self) → Forall (λ s, s ≠ 0) (scales self) →
  scales self !! i = Some si → scales self !! S i = Some sn →
  next_shape self i res =
    Ok (transform_apply (Scale (sn / si) (n_dims (final_shape res)))
          (final_shape res)).
Proof.
  intros Hmono Hnz Hi Hn.
  assert (si ≠ 0) as Hsi.
  { rewrite Forall_forall in Hnz. apply Hnz. by eapply list_elem_of_lookup_2. }
  unfold next_shape, index, index_last. rewrite Hi. simpl.
  destruct (last (scales self)) as [sl|] eqn:Hl.
  2:{ rewrite last_lookup in Hl. apply lookup_ge_None in Hl.
      apply lookup_lt_Some in Hn. lia. }
  simpl. replace (i + 1)%nat with (S i) by lia. rewrite Hn. simpl.
  unfold truediv. rewrite (decide_False (P := si = 0)) by done. simpl.
  destruct (decide (si ≠ sl)) as [Hne|Heq]; [done|].
  assert (si = sl) as <- by (by destruct (decide (si = sl)); [|exfalso; auto]).
  assert (sn = si) as ->.
  { rewrite last_lookup in Hl. apply Qcle_antisym.
    - eapply (non_decreasing_lookup _ (S i) (pred (length (scales self))));
        [done| |done..].
      apply lookup_lt_Some in Hn. lia.
    - eapply (non_decreasing_lookup _ i (S i)); [done|lia|done..]. }
  assert (si / si = 1) as -> by (by apply Qcmult_inv_r).
  by rewrite apply_Scale_one.
Qed.

Lemma next_shape_ok self i res :
  (i < n_scales self)%nat → Forall (λ s, s ≠ 0) (scales self) →
  is_ok (next_shape self i res) = true.
Proof.
  unfold n_scales. intros Hi Hnz.
  destruct (lookup_lt_is_Some_2 (scales self) i Hi) as [si Hsi].
  assert (si ≠ 0) as Hne.
  { rewrite Forall_forall in Hnz. apply Hnz. by eapply list_elem_of_lookup_2. }
  unfold next_shape, index, index_last. rewrite Hsi, last_lookup. simpl.
  destruct (scales self !! pred (length (scales self))) as [sl|] eqn:Hl.
  2:{ apply lookup_ge_None in Hl. lia. }
  simpl. destruct (decide (si ≠ sl)) as [Hd|Hd]; [|done].
  destruct (scales self !! (i + 1)%nat) as [sn|] eqn:Hn.
  - simpl. unfold truediv. by rewrite decide_False.
  - apply lookup_ge_None in Hn.
    assert (i = pred (length (scales self))) as -> by lia.
    rewrite Hsi in Hl. by injection Hl as ->.
Qed.

(** With one image, one algorithm and one budget per scale, algorithms that
    raise nothing and scale factors other than zero, every pass of the loop
    completes. *)
Lemma fit_loop_completes self images gts budgets :
  length images = n_scales self →
  length (algorithms self) = n_scales self →
  length budgets = n_scales self →
  (∀ gs, gts = Some gs → length gs = n_scales self) →
  (∀ a im s g k, is_ok (run a im s g k) = true) →
  Forall (λ s, s ≠ 0) (scales self) →
  ∀ n i0 acc st, (i0 + n = n_scales self)%nat →
    is_ok (foldM (fit_level self images gts budgets) acc (seq i0 n) st).1 = true.
Proof.
  intros Him Hal Hbu Hgt Hrun Hnz.
  induction n as [|n IH]; intros i0 [[shape gt] results] st Hn; [done|].
  cbn [foldM seq]. unfold mbind at 1, M_bind at 1, bind at 1.
  assert (∃ acc' st', fit_level self images gts budgets
                        (shape, gt, results) i0 st = (Ok acc', st'))
    as (acc' & st' & ->); [|apply IH; lia].
  unfold fit_level, getitem, run_recorded, index. unfold_monad.
  destruct (lookup_lt_is_Some_2 (algorithms self) i0) as [a ->]; [lia|].
  destruct (lookup_lt_is_Some_2 images i0) as [im ->]; [lia|].
  destruct (lookup_lt_is_Some_2 budgets i0) as [mi ->]; [lia|].
  pose proof (next_shape_ok self i0) as Hns.
  destruct gts as [gs|].
  - destruct (lookup_lt_is_Some_2 gs i0) as [g ->];
      [rewrite (Hgt gs eq_refl); lia|].
    simpl. specialize (Hrun a im shape (Some g) mi).
    destruct run as [res|]; [|done].
    specialize (Hns res). destruct next_shape; [eauto|].
    discriminate Hns; [lia|done].
  - simpl. specialize (Hrun a im shape gt mi).
    destruct run as [res|]; [|done].
    specialize (Hns res). destruct next_shape; [eauto|].
    discriminate Hns; [lia|done].
Qed.

Lemma check_max_iters_length max_iters n budgets :
  check_max_iters max_iters n = Ok budgets → length budgets = n.
Proof.
  destruct max_iters as [k|ks]; simpl.
  - intros [= <-]. apply length_replicate.
  - destruct (decide (length ks = n)); [|done]. by intros [= <-].
Qed.

Lemma fit_completes self images initial_shape gt_shapes max_iters st budgets :
  check_max_iters max_iters (n_scales self) = Ok budgets →
  length images = n_scales self →
  length (algorithms self) = n_scales self →
  (∀ gs, gt_shapes = Some gs → length gs = n_scales self) →
  (∀ a im s g k, is_ok (run a im s g k) = true) →
  Forall (λ s, s ≠ 0) (scales self) →
  is_ok (_fit self images initial_shape gt_shapes max_iters st).1 = true.
Proof.
  intros Hc Him Hal Hgt Hrun Hnz. unfold _fit.
  rewrite (bind_ok _ _ st budgets st) by (unfold_monad; by rewrite Hc).
  pose proof (fit_loop_completes self images gt_shapes budgets Him Hal
                (check_max_iters_length _ _ _ Hc) Hgt Hrun Hnz
                (n_scales self) 0%nat (initial_shape, None, []) st eq_refl)
    as Hloop.
  unfold mbind, M_bind, bind.
  destruct (foldM _ _ _ st) as [[[[? ?] ?]|e] st']; [done|done].
Qed.

End fitter_facts.

Section fitter_claims.
Import Fitter Planar Samples.

(** The budgets received on a two-scale fitter, as the recorded calls show
    them: an int goes to both scales, a list entry to its scale. *)
Example budgets_of_a_two_scale_fit :
  call_max_iters <$>
    calls (_fit two_scales [annotated; annotated] unit_square None
             (MaxItersInt 3) (fitting annotated)).2 = [3%Z; 3%Z] ∧
  call_max_iters <$>
    calls (_fit two_scales [annotated; annotated] unit_square None
             (MaxItersList [3%Z; 4%Z]) (fitting annotated)).2 = [3%Z; 4%Z].
Proof. split; compute_done. Qed.

Lemma fit_keeps_image `{AL : Algorithms} (self : MultiFitter)
    images initial_shape gt_shapes max_iters st :
  image (_fit self images initial_shape gt_shapes max_iters st).2 = image st.
Proof.
  destruct (check_max_iters max_iters (n_scales self)) as [budgets|e] eqn:Hc.
  - destruct (fit_inv self images initial_shape gt_shapes max_iters st
                budgets Hc) as (new & -> & _). done.
  - by rewrite (fit_mismatch _ _ _ _ _ _ _ Hc).
Qed.

(** C9, as stated, fails on an image that already holds a group named
    [__initial_shape]: the call returns normally, and that group is gone
    afterwards. *)
Lemma stale_group_is_removed_cex :
  is_ok (_prepare_image two_scales unit_square None None (fitting stale)).1
    = true ∧
  landmarks (image (fitting stale))
    = {[ "PTS" := unit_square; "__initial_shape" := wide_square ]} ∧
  landmarks (image (_prepare_image two_scales unit_square None None
                      (fitting stale)).2)
    = {[ "PTS" := unit_square ]} ∧
  landmarks (image (_prepare_image two_scales unit_square None None
                      (fitting stale)).2)
    ≠ landmarks (image (fitting stale)).
Proof. repeat split; compute_done. Qed.

(** C9, amended.  On an image that holds no group named [__initial_shape]
    (and none named [__gt_shape] when [gt_shape] is given), a call of
    [_prepare_image] or of [fit_from_shape] that returns normally leaves
    the image as it was: same pixels, same landmark mapping. *)
Theorem fitting_restores_landmarks `{AL : Algorithms}
    (self : MultiFitter) initial_shape gt_shape crop_image st :
  landmarks (image st) !! "__initial_shape" = None →
  (is_Some gt_shape → landmarks (image st) !! "__gt_shape" = None) →
  (let out := _prepare_image self initial_shape gt_shape crop_image st in
   is_ok out.1 = true → image out.2 = image st) ∧
  (∀ max_iters,
     let out := fit_from_shape self initial_shape max_iters gt_shape
                  crop_image st in
     is_ok out.1 = true → image out.2 = image st).
Proof.
  intros Hi Hg.
  assert (∀ r st', _prepare_image self initial_shape gt_shape crop_image st
                     = (Ok r, st') → image st' = image st) as Hprep.
  { intros r st' ->%prepare_image_final_state. simpl.
    destruct (image st) as [px lm]. simpl in *. f_equal.
    unfold detached. destruct gt_shape as [g|].
    - rewrite (delete_id _ "__initial_shape") by done.
      apply delete_id. by apply Hg.
    - by apply delete_id. }
  split.
  - intros out. subst out.
    destruct (_prepare_image _ _ _ _ st) as [[r|e] st'] eqn:Hr; [|done].
    intros _. by apply (Hprep r).
  - intros max_iters out. subst out.
    destruct (fit_from_shape _ _ _ _ _ st) as [[r|e] st'] eqn:Hr; [|done].
    intros _. simpl. unfold fit_from_shape in Hr.
    step Hr. destruct a as [[imgs shapes] gts].
    step Hr. step Hr. step Hr. step Hr.
    apply Hprep in Hs.
    apply keeps_state_ok in Hs0; [|by keeps_state].
    apply keeps_state_ok in Hs1; [|by keeps_state].
    apply keeps_state_ok in Hs3; [|by keeps_state].
    apply keeps_state_ok in Hr; [|by keeps_state].
    subst. rewrite <- Hs.
    pose proof (fit_keeps_image self imgs a0 gts max_iters s) as Hk.
    by rewrite Hs2 in Hk.
Qed.

Lemma fitting_restores_landmarks_witness :
  (is_ok (_prepare_image two_scales unit_square (Some unit_square)
            (Some (fl 0.5)) (fitting annotated)).1 = true →
   image (_prepare_image two_scales unit_square (Some unit_square)
            (Some (fl 0.5)) (fitting annotated)).2
     = image (fitting annotated)) ∧
  (∀ max_iters,
     is_ok (fit_from_shape two_scales unit_square max_iters
              (Some unit_square) (Some (fl 0.5)) (fitting annotated)).1 = true →
     image (fit_from_shape two_scales unit_square max_iters
              (Some unit_square) (Some (fl 0.5)) (fitting annotated)).2
       = image (fitting annotated)).
Proof.
  apply (fitting_restores_landmarks (AL := stepper) two_scales unit_square
           (Some unit_square) (Some (fl 0.5)) (fitting annotated)).
  - reflexivity.
  - intros _. reflexivity.
Defined.

End fitter_claims.

(** * Further properties *)

(** ** More on the monad *)
Lemma returns {S A} (m : M S A) s :
  is_ok (m s).1 = true → ∃ a s', m s = (Ok a, s').
Proof. destruct (m s) as [[a|e] s']; [eauto | done]. Qed.

Lemma raises {S A} (m : M S A) s :
  is_ok (m s).1 = false → ∃ e s', m s = (Raise e, s').
Proof. destruct (m s) as [[a|e] s']; [done | eauto]. Qed.

Lemma bind_inv_raise {S A B} (m : M S A) (k : A → M S B) s e s2 :
  (m ≫= k) s = (Raise e, s2) →
  m s = (Raise e, s2) ∨ ∃ a s1, m s = (Ok a, s1) ∧ k a s1 = (Raise e, s2).
Proof.
  unfold_monad. destruct (m s) as [[a|e'] s1]; [eauto|].
  intros [= <- <-]. by left.
Qed.

Lemma keeps_state_raise_inv {S A} (m : M S A) s e s' :
  keeps_state m → m s = (Raise e, s') → s' = s.
Proof. intros Hm H. specialize (Hm s). by rewrite H in Hm. Qed.

(** A computation under which a property of the state is kept, whatever
    the outcome. *)
Lemma bind_preserves {S A B} (P : S → Prop) (m : M S A) (k : A → M S B) s :
  P (m s).2 → (∀ a s', P s' → P (k a s').2) → P ((m ≫= k) s).2.
Proof.
  intros Hm Hk. unfold_monad. destruct (m s) as [[a|e] s1]; [|done].
  by apply Hk.
Qed.

Lemma foldM_preserves {S A B} (P : S → Prop) (body : B → A → M S B) xs :
  (∀ b x s, P s → P (body b x s).2) → ∀ b s, P s → P (foldM body b xs s).2.
Proof.
  intros Hb. induction xs as [|x xs IH]; intros b s Hs; simpl; [done|].
  apply bind_preserves; [by apply Hb|]. intros b' s' Hs'. by apply IH.
Qed.

Lemma keeps_state_preserves {S A} (P : S → Prop) (m : M S A) s :
  keeps_state m → P s → P (m s).2.
Proof. intros Hm Hs. by rewrite Hm. Qed.

(** ** Inequalities on floats *)

(** Inequalities on floats are settled on the underlying fractions. *)
Ltac to_Q :=
  unfold Qcle, Qclt in *;
  unfold Qcminus, Qcplus, Qcmult, Qcopp, Q2Qc in *; simpl in *;
  rewrite ?Qred_correct in *.

Lemma Qc_centred (u : Qc) : 0 ≤ u → u < 1 → -1 ≤ 2 * u - 1 ∧ 2 * u - 1 ≤ 1.
Proof. intros H0 H1. to_Q. split; lra. Qed.

Lemma Qc_scaled (a v : Qc) :
  0 ≤ a → -1 ≤ v ∧ v ≤ 1 → - a ≤ a * v ∧ a * v ≤ a.
Proof. intros Ha [H0 H1]. to_Q. split; nra. Qed.

Lemma Qc_mult_nonneg (a b : Qc) : 0 ≤ a → 0 ≤ b → 0 ≤ a * b.
Proof. intros Ha Hb. to_Q. nra. Qed.

(** ** More on [noisy_alignment_similarity_transform] and the perturbed
       shapes *)

Section noise_extras.
Import Noise Shapes Planar Samples.

Lemma percentage_triple_gen `{MP : Menpo} noise_percentage w :
  gen (percentage_triple noise_percentage w).2 = gen w.
Proof.
  destruct noise_percentage as [x|n|l]; try done.
  unfold percentage_triple, load, store. unfold_monad.
  destruct (heap w !! l) as [xs|]; [|done].
  by destruct (decide (length xs = 1%nat)).
Qed.

(** The noise of either branch reads the first three entries of the list
    only. *)
Lemma gaussian_noise_eval3 `{MP : Menpo} pct p0 p1 p2 (target : PointCloud) w :
  pct !! 0%nat = Some p0 → pct !! 1%nat = Some p1 → pct !! 2%nat = Some p2 →
  gaussian_noise pct target w = gaussian_noise [p0; p1; p2] target w.
Proof.
  intros H0 H1 H2. unfold gaussian_noise, getitem, index.
  by rewrite H0, H1, H2.
Qed.

Lemma uniform_noise_eval3 `{MP : Menpo} pct p0 p1 p2 (target : PointCloud) w :
  pct !! 0%nat = Some p0 → pct !! 1%nat = Some p1 → pct !! 2%nat = Some p2 →
  uniform_noise pct target w = uniform_noise [p0; p1; p2] target w.
Proof.
  intros H0 H1 H2. unfold uniform_noise, getitem, index.
  by rewrite H0, H1, H2.
Qed.

Lemma uniform_noise_eval `{MP : Menpo} p0 p1 p2 (target : PointCloud) w :
  uniform_noise [p0; p1; p2] target w =
    (match Np.mul (Np.scale p2 (range target))
             (Np.sub (Np.scale 2 [uniform w 2; uniform w 3]) 1) with
     | Ok t => Ok (p0 * fl 0.5 * (2 * normal w 0 - 1),
                   p1 * fl 180 * (2 * uniform w 1 - 1), t)
     | Raise e => Raise e
     end, drawn 4 w).
Proof.
  unfold uniform_noise, rand, randn, draw, getitem, normal, uniform, drawn.
  unfold_monad. simpl.
  replace (cursor (gen w) + 0)%nat with (cursor (gen w)) by lia.
  replace (cursor (gen w) + 1 + 1)%nat with (cursor (gen w) + 2)%nat by lia.
  replace (S (cursor (gen w) + 2))%nat with (cursor (gen w) + 3)%nat by lia.
  replace (cursor (gen w) + 2 + 2)%nat with (cursor (gen w) + 4)%nat by lia.
  by destruct (Np.mul _ _).
Qed.

(** A list too short for one of the three entries raises [IndexError] at
    the line that reads the missing entry, after the draws of the lines
    before it. *)
Lemma gaussian_noise_short `{MP : Menpo} pct (target : PointCloud) w :
  (length pct < 3)%nat →
  gaussian_noise pct target w = (Raise IndexError, drawn (length pct) w).
Proof.
  intros Hlen. unfold gaussian_noise, randn, draw, getitem, index, drawn.
  unfold_monad.
  destruct pct as [|p0 [|p1 [|p2 pct]]]; simpl in *; try lia.
  - by rewrite Nat.add_0_r; destruct w as [h [t c]].
  - done.
  - by replace (cursor (gen w) + 1 + 1)%nat with (cursor (gen w) + 2)%nat by lia.
Qed.

Lemma uniform_noise_short `{MP : Menpo} pct (target : PointCloud) w :
  (length pct < 3)%nat →
  uniform_noise pct target w = (Raise IndexError, drawn (length pct) w).
Proof.
  intros Hlen. unfold uniform_noise, rand, randn, draw, getitem, index, drawn.
  unfold_monad.
  destruct pct as [|p0 [|p1 [|p2 pct]]]; simpl in *; try lia.
  - by rewrite Nat.add_0_r; destruct w as [h [t c]].
  - done.
  - by replace (cursor (gen w) + 1 + 1)%nat with (cursor (gen w) + 2)%nat by lia.
Qed.

Lemma perturb_with_uniform_raise `{MP : Menpo} source target noise_type
    rotation pct e w w' :
  py_is noise_type lit_uniform = true →
  uniform_noise pct target w = (Raise e, w') →
  perturb_with source target noise_type rotation pct w = (Raise e, w').
Proof.
  intros Hu Hn. unfold perturb_with.
  rewrite (uniform_is_not_gaussian _ Hu), Hu.
  unfold_monad. by rewrite Hn.
Qed.

Lemma perturb_with_unsupported `{MP : Menpo} source target noise_type
    rotation pct w :
  py_is noise_type lit_gaussian = false →
  py_is noise_type lit_uniform = false →
  perturb_with source target noise_type rotation pct w
    = (Raise (ValueError unexpected_noise_type), w).
Proof. intros Hg Hu. unfold perturb_with. by rewrite Hg, Hu. Qed.

(** The state either noise leaves: [k] draws further, with [k] at most
    four, and exactly four when the noise is returned. *)
Lemma gaussian_noise_draws `{MP : Menpo} pct (target : PointCloud) w :
  ∃ k, (k ≤ 4)%nat ∧ (gaussian_noise pct target w).2 = drawn k w ∧
       (is_ok (gaussian_noise pct target w).1 = true → k = 4%nat).
Proof.
  destruct (decide (length pct < 3)%nat) as [Hs|Hl].
  - rewrite (gaussian_noise_short _ _ _ Hs). exists (length pct).
    split; [lia|]. by split.
  - destruct pct as [|p0 [|p1 [|p2 pct]]]; simpl in Hl; try lia.
    rewrite (gaussian_noise_eval3 _ p0 p1 p2) by done.
    rewrite gaussian_noise_eval. exists 4%nat. by split.
Qed.

Lemma uniform_noise_draws `{MP : Menpo} pct (target : PointCloud) w :
  ∃ k, (k ≤ 4)%nat ∧ (uniform_noise pct target w).2 = drawn k w ∧
       (is_ok (uniform_noise pct target w).1 = true → k = 4%nat).
Proof.
  destruct (decide (length pct < 3)%nat) as [Hs|Hl].
  - rewrite (uniform_noise_short _ _ _ Hs). exists (length pct).
    split; [lia|]. by split.
  - destruct pct as [|p0 [|p1 [|p2 pct]]]; simpl in Hl; try lia.
    rewrite (uniform_noise_eval3 _ p0 p1 p2) by done.
    rewrite uniform_noise_eval. exists 4%nat. by split.
Qed.

Lemma perturb_with_draws `{MP : Menpo} source target noise_type rotation pct w :
  ∃ k, (k ≤ 4)%nat ∧
    (perturb_with source target noise_type rotation pct w).2 = drawn k w ∧
    (is_ok (perturb_with source target noise_type rotation pct w).1 = true →
     k = 4%nat).
Proof.
  destruct (py_is noise_type lit_gaussian) eqn:Hg.
  - destruct (gaussian_noise_draws pct target w) as (k & Hk & Hst & Hok).
    exists k. split; [done|].
    destruct (gaussian_noise pct target w) as [[[[s r] t]|e] w'] eqn:Hn.
    + by rewrite (perturb_with_gaussian _ _ _ _ _ _ _ _ _ _ Hg Hn).
    + by rewrite (perturb_with_gaussian_raise _ _ _ _ _ _ _ _ Hg Hn).
  - destruct (py_is noise_type lit_uniform) eqn:Hu.
    + destruct (uniform_noise_draws pct target w) as (k & Hk & Hst & Hok).
      exists k. split; [done|].
      destruct (uniform_noise pct target w) as [[[[s r] t]|e] w'] eqn:Hn.
      * by rewrite (perturb_with_uniform _ _ _ _ _ _ _ _ _ _ Hu Hn).
      * by rewrite (perturb_with_uniform_raise _ _ _ _ _ _ _ _ Hu Hn).
    + rewrite (perturb_with_unsupported _ _ _ _ _ _ Hg Hu).
      exists 0%nat. split; [lia|]. split; [|done].
      unfold drawn. destruct w as [h [t c]]. simpl. by rewrite Nat.add_0_r.
Qed.

(** X1.  A call writes to the heap of list objects only when
    [noise_percentage] is a list of exactly one entry: with a float, an int
    or a list of any other length, every list object is afterwards as it
    was, whatever the outcome. *)
Theorem only_single_entry_list_is_written `{MP : Menpo}
    (source target : PointCloud) noise_type noise_percentage rotation w :
  (∀ l p, noise_percentage = PyList l → heap w !! l ≠ Some [p]) →
  heap (noisy_alignment_similarity_transform source target noise_type
          noise_percentage rotation w).2 = heap w.
Proof.
  intros Hnp. rewrite noisy_alignment_unfold.
  assert (heap (percentage_triple noise_percentage w).2 = heap w) as Hpt.
  { destruct noise_percentage as [x|n|l]; try done.
    unfold percentage_triple, load, store. unfold_monad.
    destruct (heap w !! l) as [xs|] eqn:Hl; [|done].
    destruct (decide (length xs = 1%nat)) as [H1|]; [|done].
    destruct xs as [|p [|? ?]]; try done.
    by destruct (Hnp l p eq_refl). }
  unfold mbind, M_bind, bind.
  destruct (percentage_triple noise_percentage w) as [[pct|e] w1]; [|done].
  by rewrite keeps_heap_perturb_with.
Qed.

Lemma only_single_entry_list_is_written_witness :
  heap (noisy_alignment_similarity_transform (MP := planar) unit_square
          wide_square lit_uniform (PyFloat (fl 0.1)) false w_single).2
  = heap w_single.
Proof.
  apply (only_single_entry_list_is_written (MP := planar)).
  intros l p H. discriminate H.
Defined.

(** X2.  The random generator after a call: its tape is the one before, its
    cursor has advanced by at most four draws, and by exactly four when the
    call returns a transform (one draw for the scale, one for the rotation,
    two for the translation, in either branch). *)
Theorem returning_call_takes_four_draws `{MP : Menpo}
    (source target : PointCloud) noise_type noise_percentage rotation w :
  let out := noisy_alignment_similarity_transform source target noise_type
               noise_percentage rotation w in
  tape (gen out.2) = tape (gen w) ∧
  (cursor (gen w) ≤ cursor (gen out.2) ≤ cursor (gen w) + 4)%nat ∧
  (is_ok out.1 = true → cursor (gen out.2) = (cursor (gen w) + 4)%nat).
Proof.
  intros out. subst out. rewrite noisy_alignment_unfold.
  pose proof (percentage_triple_gen noise_percentage w) as Hg.
  unfold mbind, M_bind, bind.
  destruct (percentage_triple noise_percentage w) as [[pct|e] w1];
    simpl in Hg.
  - destruct (perturb_with_draws source target noise_type rotation pct w1)
      as (k & Hk & -> & Hok).
    simpl. rewrite Hg. split; [done|]. split; [lia|].
    intros H. by rewrite (Hok H).
  - simpl. rewrite Hg. split; [done|]. split; [lia|done].
Qed.

(** X3.  A [noise_type] that is neither of the two constant objects makes
    the call raise the [ValueError] of line 68 (for a float or a list
    [noise_percentage]), and the random generator has not been drawn from:
    the test comes before any draw. *)
Theorem unsupported_noise_type_draws_nothing `{MP : Menpo}
    (source target : PointCloud) noise_type noise_percentage rotation w :
  py_is noise_type lit_gaussian = false →
  py_is noise_type lit_uniform = false →
  (∀ n, noise_percentage ≠ PyInt n) →
  (∀ l, noise_percentage = PyList l → is_Some (heap w !! l)) →
  let out := noisy_alignment_similarity_transform source target noise_type
               noise_percentage rotation w in
  out.1 = Raise (ValueError unexpected_noise_type) ∧ gen out.2 = gen w.
Proof.
  intros Hg Hu Hint Hlist out. subst out. rewrite noisy_alignment_unfold.
  pose proof (percentage_triple_gen noise_percentage w) as Hgen.
  unfold mbind, M_bind, bind.
  destruct (percentage_triple noise_percentage w) as [[pct|e] w1] eqn:Hp.
  - by rewrite (perturb_with_unsupported _ _ _ _ _ _ Hg Hu).
  - exfalso. destruct noise_percentage as [x|n|l].
    + discriminate Hp.
    + by apply (Hint n).
    + destruct (Hlist l eq_refl) as [xs Hl].
      unfold percentage_triple, load, store in Hp.
      unfold mbind, M_bind, bind, mret, M_ret, ret, modify in Hp.
      rewrite Hl in Hp. by destruct (decide (length xs = 1%nat)).
Qed.

Lemma unsupported_noise_type_draws_nothing_witness :
  (noisy_alignment_similarity_transform (MP := planar) unit_square
     wide_square built_gaussian (PyList 1%positive) false w_single).1
  = Raise (ValueError unexpected_noise_type) ∧
  gen (noisy_alignment_similarity_transform (MP := planar) unit_square
         wide_square built_gaussian (PyList 1%positive) false w_single).2
  = gen w_single.
Proof.
  apply (unsupported_noise_type_draws_nothing (MP := planar)).
  - reflexivity.
  - reflexivity.
  - intros n H. discriminate H.
  - intros l H. injection H as <-. by eexists.
Defined.

(** X4.  A list [noise_percentage] with no entry or with two entries is used
    as it is, and the call raises [IndexError] at the first entry it misses:
    before any draw for the empty list, after the two draws of the scale and
    the rotation for a list of two. *)
Theorem short_percentage_list_raises_index_error `{MP : Menpo}
    (source target : PointCloud) noise_type rotation l xs w :
  heap w !! l = Some xs →
  length xs = 0%nat ∨ length xs = 2%nat →
  py_is noise_type lit_gaussian = true ∨ py_is noise_type lit_uniform = true →
  noisy_alignment_similarity_transform source target noise_type (PyList l)
    rotation w = (Raise IndexError, drawn (length xs) w).
Proof.
  intros Hl Hlen Hnt. rewrite noisy_alignment_unfold.
  assert (percentage_triple (PyList l) w = (Ok xs, w)) as Hp.
  { unfold percentage_triple, load. unfold_monad. rewrite Hl.
    rewrite decide_False by lia. done. }
  rewrite (bind_ok _ _ _ _ _ Hp).
  assert (length xs < 3)%nat as Hs by lia.
  destruct Hnt as [Hg|Hu].
  - apply perturb_with_gaussian_raise; [done|].
    by apply gaussian_noise_short.
  - apply perturb_with_uniform_raise; [done|].
    by apply uniform_noise_short.
Qed.

Lemma short_percentage_list_raises_index_error_witness :
  noisy_alignment_similarity_transform (MP := planar) unit_square wide_square
    lit_uniform (PyList 2%positive) false w_pair
  = (Raise IndexError, drawn 2 w_pair).
Proof.
  apply (short_percentage_list_raises_index_error (MP := planar) unit_square
           wide_square lit_uniform false 2%positive [fl 0.1; fl 0.2] w_pair).
  - reflexivity.
  - right. reflexivity.
  - right. reflexivity.
Defined.

Lemma perturb_with_eval3 `{MP : Menpo} source target noise_type rotation
    pct p0 p1 p2 w :
  pct !! 0%nat = Some p0 → pct !! 1%nat = Some p1 → pct !! 2%nat = Some p2 →
  perturb_with source target noise_type rotation pct w =
  perturb_with source target noise_type rotation [p0; p1; p2] w.
Proof.
  intros H0 H1 H2. unfold perturb_with.
  destruct (py_is noise_type lit_gaussian); [|destruct (py_is noise_type lit_uniform)].
  - unfold mbind, M_bind, bind.
    by rewrite (gaussian_noise_eval3 pct p0 p1 p2).
  - unfold mbind, M_bind, bind.
    by rewrite (uniform_noise_eval3 pct p0 p1 p2).
  - done.
Qed.

(** X5.  Only the first three entries of a list [noise_percentage] are
    read: a list with more than three entries gives the same outcome and
    leaves the same state as a list holding its first three entries. *)
Theorem entries_after_the_third_are_ignored `{MP : Menpo}
    (source target : PointCloud) noise_type rotation l l' p0 p1 p2 rest w :
  heap w !! l = Some (p0 :: p1 :: p2 :: rest) →
  heap w !! l' = Some [p0; p1; p2] →
  noisy_alignment_similarity_transform source target noise_type (PyList l)
    rotation w
  = noisy_alignment_similarity_transform source target noise_type (PyList l')
      rotation w.
Proof.
  intros Hl Hl'. rewrite !noisy_alignment_unfold.
  rewrite (bind_ok _ _ _ _ _ (percentage_triple_three _ _ _ _ _ Hl')).
  assert (percentage_triple (PyList l) w = (Ok (p0 :: p1 :: p2 :: rest), w))
    as Hp.
  { unfold percentage_triple, load. unfold_monad. rewrite Hl.
    rewrite decide_False by (simpl; lia). done. }
  rewrite (bind_ok _ _ _ _ _ Hp).
  by apply perturb_with_eval3.
Qed.

Lemma entries_after_the_third_are_ignored_witness :
  noisy_alignment_similarity_transform (MP := planar) unit_square wide_square
    lit_gaussian (PyList 3%positive) true w_lists
  = noisy_alignment_similarity_transform (MP := planar) unit_square
      wide_square lit_gaussian (PyList 4%positive) true w_lists.
Proof.
  apply (entries_after_the_third_are_ignored (MP := planar) unit_square
           wide_square lit_gaussian true 3%positive 4%positive
           (fl 0.1) (fl 0.2) (fl 0.3) [fl 0.4; fl 0.5] w_lists);
    reflexivity.
Defined.

(** X6.  In the ['uniform'] branch, with percentages [p0, p1, p2] that are
    not negative and draws of [rand] in [0, 1), the rotation noise lies
    within [p1 * 180] degrees of zero and the translation noise along each
    axis within [p2] times the extent of the target along that axis.  (No
    such bound holds for the scale noise, which reads a normal draw.) *)
Theorem uniform_rotation_and_translation_are_bounded `{MP : Menpo}
    (source target : PointCloud) noise_type rotation p0 p1 p2 rx ry w :
  py_is noise_type lit_uniform = true →
  range target = [rx; ry] →
  0 ≤ p1 → 0 ≤ p2 → 0 ≤ rx → 0 ≤ ry →
  (∀ i, 0 ≤ uniform w i ∧ uniform w i < 1) →
  ∃ s r tx ty,
    perturb_with source target noise_type rotation [p0; p1; p2] w =
      (Ok (compose_after (AlignmentSimilarity source target rotation)
             (compose_after (Translation [tx; ty] (n_dims source))
                (compose_after (scale_about_centre target (1 + s))
                   (rotate_ccw_about_centre target r)))), drawn 4 w) ∧
    (- (p1 * fl 180) ≤ r ∧ r ≤ p1 * fl 180) ∧
    (- (p2 * rx) ≤ tx ∧ tx ≤ p2 * rx) ∧
    (- (p2 * ry) ≤ ty ∧ ty ≤ p2 * ry).
Proof.
  intros Hu Hr Hp1 Hp2 Hrx Hry Hdraw.
  eexists _, _, _, _. split.
  - apply perturb_with_uniform; [done|].
    by apply uniform_noise_planar.
  - assert (0 ≤ fl 180) as H180 by compute_done.
    split; [|split]; apply Qc_scaled;
      try (apply Qc_centred; apply Hdraw);
      by apply Qc_mult_nonneg.
Qed.

Lemma uniform_rotation_and_translation_are_bounded_witness :
  ∃ s r tx ty,
    perturb_with (MP := planar) unit_square wide_square lit_uniform false
      [fl 0.1; fl 0.2; fl 0.3] w_three =
      (Ok (after (align unit_square wide_square)
             (after (translation [tx; ty])
                (after (scale_about wide_square (1 + s))
                   (rotate_about wide_square r)))), drawn 4 w_three) ∧
    (- (fl 0.2 * fl 180) ≤ r ∧ r ≤ fl 0.2 * fl 180) ∧
    (- (fl 0.3 * fl 3) ≤ tx ∧ tx ≤ fl 0.3 * fl 3) ∧
    (- (fl 0.3 * fl 3) ≤ ty ∧ ty ≤ fl 0.3 * fl 3).
Proof.
  apply (uniform_rotation_and_translation_are_bounded (MP := planar)
           unit_square wide_square lit_uniform false (fl 0.1) (fl 0.2)
           (fl 0.3) (fl 3) (fl 3) w_three).
  - reflexivity.
  - compute_done.
  - compute_done.
  - compute_done.
  - compute_done.
  - compute_done.
  - intros i. split; compute_done.
Defined.

Lemma zero_noise_transform `{MP : Menpo} `{!NeutralTransforms MP}
    (source target : PointCloud) noise_type noise_percentage rotation w :
  length (range target) = 2%nat →
  py_is noise_type lit_gaussian = true ∨ py_is noise_type lit_uniform = true →
  (noise_percentage = PyFloat 0 ∨
   ∃ l, noise_percentage = PyList l ∧
        (heap w !! l = Some [0; 0; 0] ∨ heap w !! l = Some [0])) →
  ∃ w', noisy_alignment_similarity_transform source target noise_type
          noise_percentage rotation w
        = (Ok (AlignmentSimilarity source target rotation), w').
Proof.
  intros Hlen Hnt Hp. rewrite noisy_alignment_unfold.
  destruct Hp as [->|(l & -> & [Hl|Hl])].
  - rewrite (bind_ok _ _ _ _ _ (percentage_triple_float _ _)).
    rewrite zero_perturb_with by done. by eexists.
  - rewrite (bind_ok _ _ _ _ _ (percentage_triple_three _ _ _ _ _ Hl)).
    rewrite zero_perturb_with by done. by eexists.
  - rewrite (bind_ok _ _ _ _ _ (percentage_triple_single _ _ _ Hl)).
    rewrite zero_perturb_with by done. by eexists.
Qed.

(** X7.  With zero noise the two perturbed-shape functions are plain
    alignments: [noisy_shape_from_bounding_box] returns what
    [align_shape_with_bounding_box] returns for the similarity alignment
    with the same [rotation] flag, and [noisy_shape_from_shape] returns the
    reference shape moved by the similarity alignment onto the target
    (given that menpo's scale by one, rotation by zero and translation by
    zero are neutral for composition, and a target with two axes). *)
Theorem zero_noise_shapes_are_aligned_shapes
    `{MP : Menpo} `{!NeutralTransforms MP}
    (shape target : PointCloud) noise_type noise_percentage rotation w :
  length (range target) = 2%nat →
  py_is noise_type lit_gaussian = true ∨ py_is noise_type lit_uniform = true →
  (noise_percentage = PyFloat 0 ∨
   ∃ l, noise_percentage = PyList l ∧
        (heap w !! l = Some [0; 0; 0] ∨ heap w !! l = Some [0])) →
  (noisy_shape_from_bounding_box shape target noise_type noise_percentage
     rotation w).1
  = Ok (align_shape_with_bounding_box shape target
          (λ s t, AlignmentSimilarity s t rotation)) ∧
  (noisy_shape_from_shape shape target noise_type noise_percentage
     rotation w).1
  = Ok (transform_apply (AlignmentSimilarity shape target rotation) shape).
Proof.
  intros Hlen Hnt Hp. split.
  - destruct (zero_noise_transform (bounding_box shape) target noise_type
                noise_percentage rotation w Hlen Hnt Hp) as [w' Hw].
    unfold noisy_shape_from_bounding_box.
    by rewrite (bind_ok _ _ _ _ _ Hw).
  - destruct (zero_noise_transform shape target noise_type
                noise_percentage rotation w Hlen Hnt Hp) as [w' Hw].
    unfold noisy_shape_from_shape.
    by rewrite (bind_ok _ _ _ _ _ Hw).
Qed.

Lemma zero_noise_shapes_are_aligned_shapes_witness :
  (noisy_shape_from_bounding_box (MP := planar) unit_square wide_square
     lit_uniform (PyFloat 0) true w_three).1
  = Ok (align_shape_with_bounding_box (MP := planar) unit_square wide_square
          (λ s t, align s t)) ∧
  (noisy_shape_from_shape (MP := planar) unit_square wide_square
     lit_uniform (PyFloat 0) true w_three).1
  = Ok (apply_affine (align unit_square wide_square) unit_square).
Proof.
  apply (zero_noise_shapes_are_aligned_shapes (MP := planar) unit_square
           wide_square lit_uniform (PyFloat 0) true w_three).
  - reflexivity.
  - right. reflexivity.
  - left. reflexivity.
Defined.

End noise_extras.

(** ** [noisy_target_alignment_transform] *)

Section target_extras.
Import Noise Target Planar Samples.

Lemma each_map {A B} (f : A → result B) (g : A → B) xs :
  Forall (λ x, f x = Ok (g x)) xs → each f xs = Ok (map g xs).
Proof.
  induction 1 as [|x xs Hx _ IH]; [done|]. simpl. by rewrite Hx, IH.
Qed.

Lemma mul_same_length a b :
  length a = length b → Np.mul a b = Ok (zip_with Qcmult a b).
Proof. intros H. unfold Np.mul. by rewrite decide_True. Qed.

Lemma add_same_length a b :
  length a = length b → add a b = Ok (zip_with Qcplus a b).
Proof. intros H. unfold add. by rewrite decide_True. Qed.

Lemma reshape_rows {A} n d (l : list A) :
  length l = (n * d)%nat →
  Forall (λ row, length row = d) (reshape (replicate n d) l).
Proof.
  revert l. induction n as [|n IH]; intros l Hl; simpl; [constructor|].
  constructor.
  - rewrite length_take. simpl in Hl. lia.
  - apply IH. rewrite length_drop. simpl in Hl. lia.
Qed.

Lemma reshape_lookup {A} n d (l : list A) i j :
  length l = (n * d)%nat → (i < n)%nat → (j < d)%nat →
  reshape (replicate n d) l !! i ≫= (.!! j) = l !! (i * d + j)%nat.
Proof.
  intros Hl Hi Hj.
  rewrite (sublist_lookup_reshape l i d n) by lia.
  unfold sublist_lookup. rewrite option_guard_True by nia. simpl.
  rewrite lookup_take_lt by done. by rewrite lookup_drop.
Qed.

Lemma randn2_eval n d w :
  randn2 n d w =
    (Ok (reshape (replicate n d)
           (map (λ i, as_randn (tape (gen w) i)) (seq (cursor (gen w)) (n * d)))),
     drawn (n * d) w).
Proof. reflexivity. Qed.

Lemma map_zip {A B C} (f : A → B → C) l k :
  map (λ pq, f pq.1 pq.2) (zip l k) = zip_with f l k.
Proof.
  revert k. induction l as [|x l IH]; intros [|y k]; simpl; [done..|].
  by rewrite IH.
Qed.

Lemma draw_lookup (read : sample → Qc) k w i :
  (i < k)%nat →
  map (λ i, read (tape (gen w) i)) (seq (cursor (gen w)) k) !! i
  = Some (read (tape (gen w) (cursor (gen w) + i))).
Proof.
  intros Hi. rewrite list_lookup_fmap, lookup_seq_lt by done. done.
Qed.

(** The outcome on a well-shaped target, once [noise_std * target.range()]
    is an array [a] with one entry per axis. *)
Lemma noisy_target_scaled `{PA : PointArrays} (source target : PointCloud)
    alignment_transform_cls noise_std a w :
  well_shaped target →
  match noise_std with
  | StdFloat x => Ok (Np.scale x (range target))
  | StdList xs => Np.mul xs (range target)
  end = Ok a →
  length a = n_dims target →
  noisy_target_alignment_transform source target alignment_transform_cls
    noise_std w =
  (Ok (alignment_transform_cls source
         (new_PointCloud
            (zip_with (zip_with Qcplus) (points target)
               (map (zip_with Qcmult a)
                  (reshape (replicate (n_points target) (n_dims target))
                     (map (λ i, as_randn (tape (gen w) i))
                        (seq (cursor (gen w))
                           (n_points target * n_dims target)))))))),
   drawn (n_points target * n_dims target) w).
Proof.
  intros (Hrows & Hcols & Hrange) Hstd Ha.
  unfold noisy_target_alignment_transform. rewrite Hstd.
  unfold mbind at 1, M_bind at 1, bind at 1, lift at 1.
  unfold mbind at 1, M_bind at 1, bind at 1. rewrite randn2_eval.
  set (flat := map _ (seq _ _)).
  assert (length flat = (n_points target * n_dims target)%nat) as Hflat.
  { unfold flat. by rewrite length_map, length_seq. }
  pose proof (reshape_rows _ _ _ Hflat) as Hshape.
  set (R := reshape _ flat) in *.
  assert (mul_rows a (n_dims target) R = Ok (map (zip_with Qcmult a) R))
    as Hmul.
  { unfold mul_rows, compatible. rewrite Ha.
    rewrite bool_decide_eq_true_2 by (by left).
    apply each_map. eapply Forall_impl; [exact Hshape|].
    intros row Hrow. apply mul_same_length. congruence. }
  unfold mbind at 1, M_bind at 1, bind at 1, lift at 1. rewrite Hmul.
  set (N := map _ R).
  assert (add_rows (points target) N
          = Ok (zip_with (zip_with Qcplus) (points target) N)) as Hadd.
  { unfold add_rows.
    rewrite (each_map _ (λ pq, zip_with Qcplus pq.1 pq.2)).
    - by rewrite map_zip.
    - apply Forall_forall. intros [p q] Hpq. simpl.
      apply add_same_length.
      pose proof (elem_of_zip_l _ _ _ _ Hpq) as Hp.
      pose proof (elem_of_zip_r _ _ _ _ Hpq) as Hq.
      rewrite Forall_forall in Hcols. rewrite (Hcols p Hp).
      unfold N in Hq. apply list_elem_of_fmap in Hq as (row & -> & Hrow).
      rewrite Forall_forall in Hshape.
      rewrite length_zip_with, Ha, (Hshape row Hrow). lia. }
  unfold mbind at 1, M_bind at 1, bind at 1, lift at 1. by rewrite Hadd.
Qed.

(** An entry of the noisy array. *)
Lemma noisy_entry `{PA : PointArrays} (target : PointCloud) a w
    i j row p s :
  well_shaped target → length a = n_dims target →
  points target !! i = Some row → row !! j = Some p → a !! j = Some s →
  zip_with (zip_with Qcplus) (points target)
    (map (zip_with Qcmult a)
       (reshape (replicate (n_points target) (n_dims target))
          (map (λ i, as_randn (tape (gen w) i))
             (seq (cursor (gen w)) (n_points target * n_dims target)))))
    !! i ≫= (.!! j)
  = Some (p + s * normal w (i * n_dims target + j)).
Proof.
  intros (Hrows & Hcols & Hrange) Ha Hi Hj Haj.
  set (flat := map _ (seq _ _)).
  assert (length flat = (n_points target * n_dims target)%nat) as Hflat.
  { unfold flat. by rewrite length_map, length_seq. }
  assert (i < n_points target)%nat as Hin.
  { rewrite <- Hrows. by eapply lookup_lt_Some. }
  assert (j < n_dims target)%nat as Hjd.
  { rewrite <- Ha. by eapply lookup_lt_Some. }
  pose proof (reshape_lookup _ _ flat i j Hflat Hin Hjd) as HR.
  destruct (reshape (replicate (n_points target) (n_dims target)) flat !! i)
    as [Ri|] eqn:HRi.
  2:{ apply lookup_ge_None in HRi.
      rewrite length_reshape, length_replicate in HRi. lia. }
  simpl in HR.
  rewrite lookup_zip_with, Hi. simpl.
  rewrite list_lookup_fmap, HRi. simpl.
  rewrite lookup_zip_with, Hj. simpl.
  rewrite lookup_zip_with, Haj. simpl. rewrite HR.
  unfold flat. rewrite draw_lookup by nia. done.
Qed.

(** X8.  With a float [noise_std] [x], on a target whose arrays have menpo's
    shapes, the call draws [n_points * n_dims] normal samples and returns
    the alignment of the source with the point cloud built from the noisy
    array: the coordinate [j] of point [i] is the one of the target plus
    [x * target.range()[j] * n], [n] being the draw of position
    [i * n_dims + j].  The noise is scaled by the extent of the target
    along its own axis. *)
Theorem white_noise_is_scaled_per_axis `{PA : PointArrays}
    (source target : PointCloud) alignment_transform_cls x w :
  well_shaped target →
  ∃ noisy,
    noisy_target_alignment_transform source target alignment_transform_cls
      (StdFloat x) w
    = (Ok (alignment_transform_cls source (new_PointCloud noisy)),
       drawn (n_points target * n_dims target) w) ∧
    length noisy = n_points target ∧
    ∀ i j row p r,
      points target !! i = Some row → row !! j = Some p →
      range target !! j = Some r →
      noisy !! i ≫= (.!! j)
      = Some (p + x * r * normal w (i * n_dims target + j)).
Proof.
  intros Hws. pose proof Hws as (Hrows & Hcols & Hrange).
  assert (length (Np.scale x (range target)) = n_dims target) as Ha.
  { unfold Np.scale. by rewrite length_map. }
  eexists. split; [|split].
  - by apply (noisy_target_scaled _ _ _ (StdFloat x) _ _ Hws eq_refl Ha).
  - rewrite length_zip_with, length_map, length_reshape, length_replicate.
    lia.
  - intros i j row p r Hi Hj Hr.
    apply (noisy_entry target _ w i j row p (x * r) Hws Ha Hi Hj).
    unfold Np.scale. by rewrite list_lookup_fmap, Hr.
Qed.

Lemma add_zero_row (p a r : list Qc) :
  length p = length a → length a = length r → Forall (λ s, s = 0) a →
  zip_with Qcplus p (zip_with Qcmult a r) = p.
Proof.
  revert a r. induction p as [|x p IH]; intros [|s a] [|y r] Hp Ha Hz;
    simpl in *; try done.
  apply Forall_cons in Hz as [-> Hz].
  rewrite Qcmult_0_l, Qcplus_0_r. f_equal. apply IH; [lia|lia|done].
Qed.

Lemma add_zero_rows d (P R : list (list Qc)) a :
  Forall (λ row, length row = d) P → Forall (λ row, length row = d) R →
  length R = length P → length a = d → Forall (λ s, s = 0) a →
  zip_with (zip_with Qcplus) P (map (zip_with Qcmult a) R) = P.
Proof.
  intros HP HR Hlen Ha Hz. revert R HR Hlen.
  induction HP as [|p P Hp _ IH]; intros [|r R] HR Hlen; simpl in *;
    try done.
  apply Forall_cons in HR as [Hr HR].
  rewrite add_zero_row; [|congruence|congruence|done].
  f_equal. apply IH; [done|lia].
Qed.

(** X9.  With [noise_std] the float [0.0], the noisy array is the array of the
    target: the call returns the alignment of the source with the point
    cloud rebuilt from [target.points] (and still consumes
    [n_points * n_dims] draws). *)
Theorem zero_std_aligns_with_the_target `{PA : PointArrays}
    (source target : PointCloud) alignment_transform_cls w :
  well_shaped target →
  noisy_target_alignment_transform source target alignment_transform_cls
    (StdFloat 0) w
  = (Ok (alignment_transform_cls source (new_PointCloud (points target))),
     drawn (n_points target * n_dims target) w).
Proof.
  intros Hws. pose proof Hws as (Hrows & Hcols & Hrange).
  assert (length (Np.scale 0 (range target)) = n_dims target) as Ha.
  { unfold Np.scale. by rewrite length_map. }
  rewrite (noisy_target_scaled _ _ _ (StdFloat 0) _ _ Hws eq_refl Ha).
  rewrite (add_zero_rows (n_dims target)); [done|done| | |done|].
  - apply reshape_rows. by rewrite length_map, length_seq.
  - by rewrite length_reshape, length_replicate.
  - unfold Np.scale. apply Forall_fmap, Forall_forall. intros s _. simpl.
    apply Qcmult_0_l.
Qed.

(** X10.  A list [noise_std] is multiplied with [target.range()], so that it is
    matched with the axes and not with the points: with one entry per axis,
    entry [j] scales the noise of coordinate [j] of every point; with any
    other number of entries (one entry and targets of one axis apart) the
    product cannot be formed, and the call raises [ValueError] before any
    draw. *)
Theorem std_list_is_matched_with_the_axes `{PA : PointArrays}
    (source target : PointCloud) alignment_transform_cls xs w :
  well_shaped target →
  (length xs = n_dims target →
   ∃ noisy,
     noisy_target_alignment_transform source target alignment_transform_cls
       (StdList xs) w
     = (Ok (alignment_transform_cls source (new_PointCloud noisy)),
        drawn (n_points target * n_dims target) w) ∧
     ∀ i j row p r s,
       points target !! i = Some row → row !! j = Some p →
       range target !! j = Some r → xs !! j = Some s →
       noisy !! i ≫= (.!! j)
       = Some (p + s * r * normal w (i * n_dims target + j))) ∧
  (length xs ≠ n_dims target → length xs ≠ 1%nat → n_dims target ≠ 1%nat →
   noisy_target_alignment_transform source target alignment_transform_cls
     (StdList xs) w
   = (Raise (ValueError "operands could not be broadcast together"), w)).
Proof.
  intros Hws. pose proof Hws as (Hrows & Hcols & Hrange). split.
  - intros Hxs.
    assert (Np.mul xs (range target) = Ok (zip_with Qcmult xs (range target)))
      as Hmul by (apply mul_same_length; congruence).
    assert (length (zip_with Qcmult xs (range target)) = n_dims target) as Ha.
    { rewrite length_zip_with. lia. }
    eexists. split.
    + by apply (noisy_target_scaled _ _ _ (StdList xs) _ _ Hws Hmul Ha).
    + intros i j row p r s Hi Hj Hr Hs.
      apply (noisy_entry target _ w i j row p (s * r) Hws Ha Hi Hj).
      by rewrite lookup_zip_with, Hs, Hr.
  - intros Hne H1 Hd1.
    unfold noisy_target_alignment_transform, Np.mul.
    rewrite decide_False by congruence.
    destruct xs as [|x [|x' xs]]; simpl in *; try done.
    + destruct (range target) as [|r [|r' rs]]; simpl in *; try done; lia.
    + destruct (range target) as [|r [|r' rs]]; simpl in *; try done; lia.
Qed.

Lemma white_noise_is_scaled_per_axis_witness :
  ∃ noisy : cloud,
    noisy_target_alignment_transform (PA := planar_arrays) unit_square
      wide_square align (StdFloat (fl 0.1)) w_one
    = (Ok (align unit_square noisy), drawn (4 * 2) w_one) ∧
    length noisy = 4%nat ∧
    ∀ i j row p r,
      wide_square !! i = Some row → row !! j = Some p →
      cloud_range wide_square !! j = Some r →
      noisy !! i ≫= (.!! j) = Some (p + fl 0.1 * r * normal w_one (i * 2 + j)).
Proof.
  apply (white_noise_is_scaled_per_axis (PA := planar_arrays) unit_square
           wide_square align (fl 0.1) w_one).
  repeat split; repeat constructor.
Defined.

Lemma zero_std_aligns_with_the_target_witness :
  noisy_target_alignment_transform (PA := planar_arrays) unit_square
    wide_square align (StdFloat 0) w_one
  = (Ok (align unit_square wide_square), drawn (4 * 2) w_one).
Proof.
  apply (zero_std_aligns_with_the_target (PA := planar_arrays) unit_square
           wide_square align w_one).
  repeat split; repeat constructor.
Defined.

Lemma std_list_is_matched_with_the_axes_witness :
  noisy_target_alignment_transform (PA := planar_arrays) unit_square
    wide_square align (StdList [fl 0.1; fl 0.2; fl 0.3; fl 0.4]) w_one
  = (Raise (ValueError "operands could not be broadcast together"), w_one).
Proof.
  apply (std_list_is_matched_with_the_axes (PA := planar_arrays) unit_square
           wide_square align [fl 0.1; fl 0.2; fl 0.3; fl 0.4] w_one).
  - repeat split; repeat constructor.
  - simpl. lia.
  - simpl. lia.
  - simpl. lia.
Defined.

End target_extras.

(** ** More on the multi-scale fitter *)

Section fitter_extras.
Import Fitter Planar Samples.

Lemma prepare_level_appends `{AL : Algorithms} (self : MultiFitter)
    tmp_image fi imgs i st fi' imgs' st' :
  prepare_level self tmp_image (fi, imgs) i st = (Ok (fi', imgs'), st') →
  ∃ x, imgs' = imgs ++ [x].
Proof.
  intros H. unfold prepare_level in H.
  step H. step H. step H. step H. step H. step H.
  injection H as _ <- _. eauto.
Qed.

Lemma prepare_levels_length `{AL : Algorithms} (self : MultiFitter)
    tmp_image n :
  ∀ i0 fi imgs st fi' imgs' st',
  foldM (prepare_level self tmp_image) (fi, imgs) (seq i0 n) st
    = (Ok (fi', imgs'), st') →
  length imgs' = (length imgs + n)%nat.
Proof.
  induction n as [|n IH]; intros i0 fi imgs st fi' imgs' st'; cbn [foldM seq].
  - intros [= _ <- _]. lia.
  - intros H. step H. destruct a as [fi1 imgs1].
    apply prepare_level_appends in Hs as [x ->].
    apply IH in H. rewrite H, length_app. simpl. lia.
Qed.

Lemma lms_fold `{AL : Algorithms} {S} group (ims : list (Image Pixels)) :
  ∀ acc (st : S) out st',
  foldM (λ acc i, s ← lms i group; mret (acc ++ [s])) acc ims st
    = (Ok out, st') →
  ∃ ss, out = acc ++ ss ∧
        Forall2 (λ im s, landmarks im !! group = Some s) ims ss.
Proof.
  induction ims as [|im ims IH]; intros acc st out st'; cbn [foldM].
  - intros [= <- _]. exists []. by rewrite app_nil_r.
  - intros H. step H. step Hs. injection Hs as <- <-.
    unfold lms in Hs0. destruct (landmarks im !! group) as [s|] eqn:Hl; [|done].
    injection Hs0 as <- <-.
    apply IH in H as (ss & -> & Hss). exists (s :: ss).
    rewrite <- app_assoc. split; [done|]. by constructor.
Qed.

Lemma prepare_image_lists `{AL : Algorithms}
    (self : MultiFitter) initial_shape gt_shape crop_image st
    images shapes gts st' :
  _prepare_image self initial_shape gt_shape crop_image st
    = (Ok (images, shapes, gts), st') →
  length images = n_scales self ∧
  length shapes = n_scales self ∧
  Forall2 (λ im s, landmarks im !! "__initial_shape" = Some s) images shapes ∧
  match gt_shape with
  | None => gts = None
  | Some _ =>
      ∃ gs, gts = Some gs ∧ length gs = n_scales self ∧
        Forall2 (λ im s, landmarks im !! "__gt_shape" = Some s) images gs
  end.
Proof.
  intros H. unfold _prepare_image in H.
  step H. step H. step H. step H. step H. step H.
  destruct a4 as [fi imgs].
  step H. step H. step H. step H.
  injection H as <- <- <- _.
  apply prepare_levels_length in Hs4. simpl in Hs4.
  apply lms_fold in Hs5 as (ss & -> & Hss). simpl.
  pose proof (Forall2_length _ _ _ Hss) as Hlen.
  split; [done|]. split; [congruence|]. split; [done|].
  destruct gt_shape as [g|].
  - apply bind_inv_ok in Hs6 as (l & sx & Hl & Hs6).
    injection Hs6 as <- _.
    apply lms_fold in Hl as (gs & -> & Hgs). simpl.
    exists gs. split; [done|]. split; [|done].
    pose proof (Forall2_length _ _ _ Hgs). congruence.
  - by injection Hs6 as <- _.
Qed.

(** X11.  A call of [_prepare_image] that returns gives one image and one
    initial shape per scale, the [i]-th initial shape being the shape the
    [i]-th image holds under [__initial_shape]; the ground-truth shapes are
    [None] when no ground truth is given, and otherwise one per scale, the
    [i]-th being the shape the [i]-th image holds under [__gt_shape]. *)
Theorem prepared_lists_have_one_entry_per_scale `{AL : Algorithms}
    (self : MultiFitter) initial_shape gt_shape crop_image st
    images shapes gts st' :
  _prepare_image self initial_shape gt_shape crop_image st
    = (Ok (images, shapes, gts), st') →
  length images = n_scales self ∧
  length shapes = n_scales self ∧
  (∀ i im, images !! i = Some im →
     ∃ s, shapes !! i = Some s ∧
          landmarks im !! "__initial_shape" = Some s) ∧
  match gt_shape with
  | None => gts = None
  | Some _ =>
      ∃ gs, gts = Some gs ∧ length gs = n_scales self ∧
        ∀ i im, images !! i = Some im →
          ∃ g, gs !! i = Some g ∧ landmarks im !! "__gt_shape" = Some g
  end.
Proof.
  intros H.
  destruct (prepare_image_lists _ _ _ _ _ _ _ _ _ H)
    as (Himages & Hshapes & Hinit & Hgt).
  split; [done|]. split; [done|]. split.
  - intros i im Hi.
    destruct (Forall2_lookup_l _ _ _ _ _ Hinit Hi) as (s & Hs & Hlm).
    by exists s.
  - destruct gt_shape as [g|]; [|done].
    destruct Hgt as (gs & -> & Hlen & Hall).
    exists gs. split; [done|]. split; [done|].
    intros i im Hi.
    destruct (Forall2_lookup_l _ _ _ _ _ Hall Hi) as (g' & Hg & Hlm).
    by exists g'.
Qed.

Lemma prepared_lists_have_one_entry_per_scale_witness :
  ∃ images shapes gts st',
    _prepare_image two_scales unit_square (Some unit_square) (Some (fl 0.5))
      (fitting annotated) = (Ok (images, shapes, gts), st') ∧
    length images = n_scales two_scales ∧
    length shapes = n_scales two_scales ∧
    (∀ i im, images !! i = Some im →
       ∃ s, shapes !! i = Some s ∧
            landmarks im !! "__initial_shape" = Some s) ∧
    ∃ gs, gts = Some gs ∧ length gs = n_scales two_scales ∧
      ∀ i im, images !! i = Some im →
        ∃ g, gs !! i = Some g ∧ landmarks im !! "__gt_shape" = Some g.
Proof.
  destruct (returns (_prepare_image two_scales unit_square (Some unit_square)
                       (Some (fl 0.5))) (fitting annotated))
    as ([[images shapes] gts] & st' & H); [vm_compute; reflexivity|].
  exists images, shapes, gts, st'. split; [exact H|].
  exact (prepared_lists_have_one_entry_per_scale (AL := stepper) two_scales
           unit_square (Some unit_square) (Some (fl 0.5)) (fitting annotated)
           images shapes gts st' H).
Defined.

Lemma setitem_eval `{AL : Algorithms} group shape st :
  setitem group shape st =
    (Ok tt, {| image := {| pixels := pixels (image st);
                           landmarks := <[group := shape]> (landmarks (image st)) |};
               calls := calls st |}).
Proof. reflexivity. Qed.

Lemma delitem_present `{AL : Algorithms} group st shape :
  landmarks (image st) !! group = Some shape → is_ok (delitem group st).1 = true.
Proof. intros H. unfold delitem. by rewrite H. Qed.

Lemma failed_preparation_state `{AL : Algorithms} (self : MultiFitter)
    initial_shape gt_shape crop_image st e st' :
  _prepare_image self initial_shape gt_shape crop_image st = (Raise e, st') →
  st' = {| image := {| pixels := pixels (image st);
                       landmarks := transient initial_shape gt_shape
                                      (landmarks (image st)) |};
           calls := calls st |}.
Proof.
  intros H. unfold _prepare_image in H.
  apply bind_inv_raise in H as [H | (u1 & t1 & H1 & H)]; [discriminate H|].
  rewrite setitem_eval in H1. injection H1 as _ <-.
  apply bind_inv_raise in H as [H | (u2 & t2 & H2 & H)];
    [by destruct gt_shape|].
  assert (t2 = {| image := {| pixels := pixels (image st);
                              landmarks := transient initial_shape gt_shape
                                             (landmarks (image st)) |};
                  calls := calls st |}) as Ht2.
  { destruct gt_shape as [g|].
    - rewrite setitem_eval in H2. by injection H2 as _ <-.
    - by injection H2 as _ <-. }
  clear H2.
  assert (landmarks (image t2) !! "__initial_shape" = Some initial_shape)
    as Hi.
  { rewrite Ht2. simpl. unfold transient. destruct gt_shape.
    - rewrite lookup_insert_ne by done. by rewrite lookup_insert_eq.
    - by rewrite lookup_insert_eq. }
  assert (∀ g, gt_shape = Some g →
            landmarks (image t2) !! "__gt_shape" = Some g) as Hg.
  { intros g ->. rewrite Ht2. simpl. by rewrite lookup_insert_eq. }
  rewrite <- Ht2. clear Ht2.
  apply bind_inv_raise in H as [H | (t3 & t3' & H3 & H)]; [discriminate H|].
  injection H3 as <- <-.
  apply bind_inv_raise in H as [H | (im1 & t4 & H4 & H)].
  { apply keeps_state_raise_inv in H; [done|]. by keeps_state. }
  apply keeps_state_ok in H4; [|by keeps_state]. subst t4.
  apply bind_inv_raise in H as [H | (im2 & t5 & H5 & H)].
  { apply keeps_state_raise_inv in H; [done|]. by keeps_state. }
  apply keeps_state_ok in H5; [|by keeps_state]. subst t5.
  apply bind_inv_raise in H as [H | (acc & t6 & H6 & H)].
  { apply keeps_state_raise_inv in H; [done|].
    by apply keeps_state_foldM; intros; apply keeps_state_prepare_level. }
  apply keeps_state_ok in H6;
    [|by apply keeps_state_foldM; intros; apply keeps_state_prepare_level].
  subst t6. destruct acc as [fi images].
  apply bind_inv_raise in H as [H | (shapes & t7 & H7 & H)].
  { apply keeps_state_raise_inv in H; [done|].
    by apply keeps_state_foldM; intros; apply keeps_state_bind;
      [apply keeps_state_lms | intros; apply keeps_state_ret]. }
  apply keeps_state_ok in H7;
    [|by apply keeps_state_foldM; intros; apply keeps_state_bind;
         [apply keeps_state_lms | intros; apply keeps_state_ret]].
  subst t7.
  apply bind_inv_raise in H as [H | (gts & t8 & H8 & H)].
  { apply keeps_state_raise_inv in H; [done|].
    destruct gt_shape; keeps_state; apply keeps_state_lms. }
  apply keeps_state_ok in H8;
    [|destruct gt_shape; keeps_state; apply keeps_state_lms].
  subst t8. exfalso.
  apply bind_inv_raise in H as [H | (u9 & t9 & H9 & H)].
  { unfold delitem in H. by rewrite Hi in H. }
  apply delitem_ok in H9. subst t9.
  apply bind_inv_raise in H as [H | (u10 & t10 & H10 & H)]; [|discriminate H].
  destruct gt_shape as [g|]; [|discriminate H].
  unfold delitem in H. simpl in H.
  rewrite lookup_delete_ne in H by done.
  by rewrite (Hg g eq_refl) in H.
Qed.

Lemma transient_initial_shape `{MP : Menpo} (initial_shape : PointCloud)
    gt_shape lm :
  transient initial_shape gt_shape lm !! "__initial_shape"
  = Some initial_shape.
Proof.
  unfold transient. destruct gt_shape.
  - rewrite lookup_insert_ne by done. by rewrite lookup_insert_eq.
  - by rewrite lookup_insert_eq.
Qed.

(** X12.  Nothing undoes lines 320-322 when the preparation fails: a call of
    [_prepare_image] that raises leaves the image with the group
    [__initial_shape] (and [__gt_shape], when a ground truth is given)
    attached, its other groups and its pixels as they were; a call of
    [fit_from_shape] then raises the same exception with the image in that
    state, and no algorithm has been run. *)
Theorem failed_preparation_leaves_transient_groups `{AL : Algorithms}
    (self : MultiFitter) initial_shape gt_shape crop_image st e st' :
  _prepare_image self initial_shape gt_shape crop_image st = (Raise e, st') →
  st' = {| image := {| pixels := pixels (image st);
                       landmarks := transient initial_shape gt_shape
                                      (landmarks (image st)) |};
           calls := calls st |} ∧
  landmarks (image st') !! "__initial_shape" = Some initial_shape ∧
  ∀ max_iters,
    fit_from_shape self initial_shape max_iters gt_shape crop_image st
      = (Raise e, st').
Proof.
  intros H. pose proof (failed_preparation_state _ _ _ _ _ _ _ H) as Hst.
  split; [done|]. split.
  - rewrite Hst. simpl. apply transient_initial_shape.
  - intros max_iters. unfold fit_from_shape. by apply bind_raise.
Qed.

Lemma failed_preparation_leaves_transient_groups_witness :
  ∃ e st',
    _prepare_image featureless unit_square None None (fitting annotated)
      = (Raise e, st') ∧
    st' = fitting (@Build_Image planar (Qc * Qc) (pixels annotated)
                     (transient (MP := planar) unit_square None
                        (landmarks annotated))) ∧
    landmarks (image st') !! "__initial_shape" = Some unit_square ∧
    ∀ max_iters,
      fit_from_shape featureless unit_square max_iters None None
        (fitting annotated) = (Raise e, st').
Proof.
  destruct (raises (_prepare_image featureless unit_square None None)
              (fitting annotated)) as (e & st' & H); [vm_compute; reflexivity|].
  exists e, st'. split; [exact H|].
  exact (failed_preparation_leaves_transient_groups (AL := stepper)
           featureless unit_square None None (fitting annotated) e st' H).
Defined.

Lemma logged_inj `{AL : Algorithms} (st : fstate) xs ys :
  logged st xs = logged st ys → xs = ys.
Proof. unfold logged. intros [= H]. by apply app_inv_head in H. Qed.

(** One pass of the loop of [_fit], as to the ground truth it hands on and
    the result it appends. *)
Lemma fit_level_outcome `{AL : Algorithms} (self : MultiFitter)
    images gts budgets shape gt results i st r st' :
  fit_level self images gts budgets (shape, gt, results) i st = (r, st') →
  (st' = st ∧ is_ok r = false) ∨
  ∃ c, st' = logged st [c] ∧
       call_gt_shape c = match gts with Some gs => gs !! i | None => gt end ∧
       match r with
       | Ok (_, gt', results') =>
           gt' = call_gt_shape c ∧
           ∃ res, run_call c = Ok res ∧ results' = results ++ [res]
       | Raise e => ∀ e', run_call c = Raise e' → e = e'
       end.
Proof.
  unfold fit_level, getitem, run_recorded, index. unfold_monad.
  destruct gts as [gs|]; [destruct (gs !! i) as [g|]|]; simpl;
    try (intros [= <- <-]; by left);
    (destruct (algorithms self !! i) as [a|]; simpl;
       [|intros [= <- <-]; by left]);
    (destruct (images !! i) as [im|]; simpl;
       [|intros [= <- <-]; by left]);
    (destruct (budgets !! i) as [mi|]; simpl;
       [|intros [= <- <-]; by left]);
    intros H;
    (destruct run as [res|e] eqn:Hrun;
       [destruct next_shape as [shape'|e] eqn:Hns|]);
    injection H as <- <-; right;
    (eexists (Build_call _ _ _ _ _); unfold run_call, logged; simpl;
     do 2 (split; [reflexivity|]));
    rewrite Hrun; first [by eauto | by intros ? [= <-] | by intros ? [=]].
Qed.

Lemma fit_loop_outcome `{AL : Algorithms} (self : MultiFitter)
    images gts budgets n :
  ∀ i0 shape gt results st r st',
  foldM (fit_level self images gts budgets) (shape, gt, results) (seq i0 n) st
    = (r, st') →
  ∃ new, st' = logged st new ∧
    (∀ j c, new !! j = Some c →
       call_gt_shape c =
         match gts with Some gs => gs !! (i0 + j)%nat | None => gt end) ∧
    match r with
    | Ok (_, gt', results') =>
        (gts = None → gt' = gt) ∧
        ∃ ress, results' = results ++ ress ∧
                Forall2 (λ c res, run_call c = Ok res) new ress
    | Raise e => ∀ c e', last new = Some c → run_call c = Raise e' → e = e'
    end.
Proof.
  induction n as [|n IH]; intros i0 shape gt results st r st'; cbn [foldM seq].
  - intros [= <- <-]. exists []. rewrite logged_nil.
    split; [done|]. split; [done|]. split; [done|].
    exists []. by rewrite app_nil_r.
  - unfold mbind at 1, M_bind at 1, bind at 1.
    destruct (fit_level _ _ _ _ _ _ st) as [r1 st1] eqn:Hl.
    apply fit_level_outcome in Hl as [[-> Hr1]|(c & -> & Hgt & Hr1)].
    { destruct r1 as [?|e]; [done|]. intros [= <- <-].
      exists []. rewrite logged_nil. by repeat split. }
    destruct r1 as [[[shape1 gt1] results1]|e].
    2:{ intros [= <- <-]. exists [c]. split; [done|]. split.
        - intros [|j] c0 Hj; [|done]. injection Hj as <-.
          by rewrite Nat.add_0_r.
        - intros c0 e' [= <-]. apply Hr1. }
    destruct Hr1 as (-> & res & Hres & ->).
    intros Hrest.
    apply IH in Hrest as (new & -> & Hgts & Hr).
    exists (c :: new). rewrite logged_logged.
    split; [done|]. split.
    + intros [|j] c0 Hj.
      * injection Hj as <-. by rewrite Nat.add_0_r.
      * replace (i0 + S j)%nat with (S i0 + j)%nat by lia.
        rewrite (Hgts j c0 Hj). destruct gts; [done|]. done.
    + destruct r as [[[shape2 gt2] results2]|e].
      * destruct Hr as (Hsame & ress & -> & Hall). split.
        -- intros ->. by rewrite (Hsame eq_refl).
        -- exists (res :: ress). rewrite <- app_assoc.
           split; [done|]. by constructor.
      * intros c0 e' Hlast Hrun. destruct new as [|c1 new].
        -- injection Hlast as <-. congruence.
        -- by apply (Hr c0 e').
Qed.

(** The loop of [_fit], once the budgets are validated. *)
Lemma fit_unfold `{AL : Algorithms} (self : MultiFitter)
    images initial_shape gt_shapes max_iters st budgets :
  check_max_iters max_iters (n_scales self) = Ok budgets →
  _fit self images initial_shape gt_shapes max_iters st =
    match foldM (fit_level self images gt_shapes budgets)
            (initial_shape, None, []) (seq 0 (n_scales self)) st with
    | (Ok (_, _, algorithm_results), st') => (Ok algorithm_results, st')
    | (Raise e, st') => (Raise e, st')
    end.
Proof.
  intros Hc. unfold _fit.
  rewrite (bind_ok _ _ st budgets st) by (unfold_monad; by rewrite Hc).
  unfold mbind, M_bind, bind.
  by destruct (foldM _ _ _ st) as [[[[? ?] ?]|e] st'].
Qed.

(** X13.  A call of [_fit] that returns has run the algorithm of every
    scale once, in the order of the scales, and returns the list of what
    these runs returned: entry [i] is the result of running [algorithms[i]]
    on [images[i]]. *)
Theorem fit_returns_one_result_per_scale `{AL : Algorithms}
    (self : MultiFitter) images initial_shape gt_shapes max_iters st
    results st' :
  _fit self images initial_shape gt_shapes max_iters st = (Ok results, st') →
  length results = n_scales self ∧
  ∃ new, st' = logged st new ∧ length new = n_scales self ∧
    ∀ i res, results !! i = Some res →
      ∃ c, new !! i = Some c ∧ run_call c = Ok res ∧
           algorithms self !! i = Some (call_algorithm c) ∧
           images !! i = Some (call_image c).
Proof.
  intros H.
  destruct (check_max_iters max_iters (n_scales self)) as [budgets|e] eqn:Hc.
  2:{ by rewrite (fit_mismatch _ _ _ _ _ _ _ Hc) in H. }
  destruct (fit_inv self images initial_shape gt_shapes max_iters st
              budgets Hc) as (new & Hst & _ & Hlen & Hidx & _).
  rewrite H in Hst, Hlen. simpl in Hst, Hlen. specialize (Hlen eq_refl).
  rewrite (fit_unfold _ _ _ _ _ _ _ Hc) in H.
  destruct (foldM _ _ _ st) as [[[[shape gt] results']|e] st1] eqn:Hloop;
    [|done].
  injection H as -> ->.
  apply fit_loop_outcome in Hloop as (new' & Hst' & _ & _ & ress & Hress & Hall).
  rewrite Hst in Hst'. apply logged_inj in Hst' as <-.
  simpl in Hress. subst ress.
  pose proof (Forall2_length _ _ _ Hall) as Hl.
  split; [congruence|]. exists new. split; [done|]. split; [done|].
  intros i res Hi.
  destruct (Forall2_lookup_r _ _ _ _ _ Hall Hi) as (c & Hc' & Hrun).
  exists c. split; [done|]. split; [done|].
  by destruct (Hidx i c Hc') as (? & ? & _).
Qed.

Lemma fit_returns_one_result_per_scale_witness :
  ∃ results st',
    _fit two_scales [annotated; annotated] unit_square None (MaxItersInt 3)
      (fitting annotated) = (Ok results, st') ∧
    length results = n_scales two_scales ∧
    ∃ new, st' = logged (fitting annotated) new ∧
      length new = n_scales two_scales ∧
      ∀ i res, results !! i = Some res →
        ∃ c, new !! i = Some c ∧ run_call c = Ok res ∧
             algorithms two_scales !! i = Some (call_algorithm c) ∧
             [annotated; annotated] !! i = Some (call_image c).
Proof.
  destruct (returns (_fit two_scales [annotated; annotated] unit_square None
                       (MaxItersInt 3)) (fitting annotated))
    as (results & st' & H); [vm_compute; reflexivity|].
  exists results, st'. split; [exact H|].
  exact (fit_returns_one_result_per_scale (AL := stepper) two_scales
           [annotated; annotated] unit_square None (MaxItersInt 3)
           (fitting annotated) results st' H).
Defined.

(** X14.  An exception raised by the run of a scale ends the fit: it is the
    exception [_fit] raises, and the run that raised it is the last one
    made (the later scales are not run, and the results of the earlier ones
    are lost). *)
Theorem algorithm_error_stops_the_fit `{AL : Algorithms}
    (self : MultiFitter) images initial_shape gt_shapes max_iters st :
  ∃ new,
    (_fit self images initial_shape gt_shapes max_iters st).2
      = logged st new ∧
    ∀ i c e, new !! i = Some c → run_call c = Raise e →
      (_fit self images initial_shape gt_shapes max_iters st).1 = Raise e ∧
      length new = S i.
Proof.
  destruct (check_max_iters max_iters (n_scales self)) as [budgets|e] eqn:Hc.
  2:{ exists []. rewrite (fit_mismatch _ _ _ _ _ _ _ Hc). simpl.
      by rewrite logged_nil. }
  rewrite (fit_unfold _ _ _ _ _ _ _ Hc).
  destruct (foldM _ _ _ st) as [r st1] eqn:Hloop.
  pose proof Hloop as Hloop'.
  apply fit_loop_inv in Hloop' as (new & Hst & _ & _ & _ & _ & Hchain).
  apply fit_loop_outcome in Hloop as (new' & Hst' & _ & Hr).
  rewrite Hst in Hst'. apply logged_inj in Hst' as <-.
  exists new. split; [by destruct r as [[[? ?] ?]|?]|].
  intros i c e Hi Hrun.
  assert (length new = S i) as Hlen.
  { destruct (new !! S i) as [c'|] eqn:Hn.
    - destruct (Hchain i c c' Hi Hn) as (res & Hres & _). congruence.
    - apply lookup_ge_None in Hn. apply lookup_lt_Some in Hi. lia. }
  split; [|done].
  destruct r as [[[shape gt] results]|e0].
  - destruct Hr as (_ & ress & _ & Hall).
    destruct (Forall2_lookup_l _ _ _ _ _ Hall Hi) as (res & _ & Hres).
    congruence.
  - simpl. f_equal. apply (Hr c e); [|done].
    rewrite last_lookup, Hlen. done.
Qed.

(** With two scales and the budgets [0] and [3], the first run raises: the
    fit raises that exception after this one run. *)
Example refused_budget_ends_the_fit :
  (_fit two_brittle [annotated; annotated] unit_square None
     (MaxItersList [0%Z; 3%Z])
     (@Fitter.Build_fstate planar pictures brittle annotated [])).1
    = Raise (ValueError "no iteration left") ∧
  length (calls (_fit two_brittle [annotated; annotated] unit_square None
                   (MaxItersList [0%Z; 3%Z])
                   (@Fitter.Build_fstate planar pictures brittle annotated
                      [])).2) = 1%nat.
Proof. split; compute_done. Qed.

(** The runs a call of [_fit] makes, whatever its outcome. *)
Lemma fit_calls `{AL : Algorithms}
    (self : MultiFitter) images initial_shape gt_shapes max_iters st :
  ∃ new,
    (_fit self images initial_shape gt_shapes max_iters st).2
      = logged st new ∧
    (length new ≤ n_scales self)%nat ∧
    ∀ i c, new !! i = Some c →
      algorithms self !! i = Some (call_algorithm c) ∧
      images !! i = Some (call_image c) ∧
      (i = 0%nat → call_shape c = initial_shape) ∧
      call_gt_shape c =
        match gt_shapes with Some gs => gs !! i | None => None end.
Proof.
  destruct (check_max_iters max_iters (n_scales self)) as [budgets|e] eqn:Hc.
  2:{ exists []. rewrite (fit_mismatch _ _ _ _ _ _ _ Hc). simpl.
      rewrite logged_nil. split; [done|]. split; [lia|done]. }
  destruct (fit_inv self images initial_shape gt_shapes max_iters st
              budgets Hc) as (new & Hst & Hlen & _ & Hidx & Hfirst & _).
  rewrite (fit_unfold _ _ _ _ _ _ _ Hc) in Hst |- *.
  destruct (foldM _ _ _ st) as [r st1] eqn:Hloop.
  apply fit_loop_outcome in Hloop as (new' & Hst' & Hgt & _).
  assert (st1 = logged st new) as Hst1 by (by destruct r as [[[? ?] ?]|?]).
  rewrite Hst1 in Hst'. apply logged_inj in Hst' as <-.
  exists new. split; [by destruct r as [[[? ?] ?]|?]|]. split; [done|].
  intros i c Hi. destruct (Hidx i c Hi) as (Ha & Him & _).
  split; [done|]. split; [done|]. split.
  - intros ->. by apply Hfirst.
  - by rewrite (Hgt i c Hi).
Qed.

(** X15.  The ground truth of a run: with [gt_shapes] a list, the run of
    scale [i] receives [gt_shapes[i]]; with [gt_shapes] [None], every run
    receives [None]. *)
Theorem ground_truth_reaches_every_run `{AL : Algorithms}
    (self : MultiFitter) images initial_shape gt_shapes max_iters st :
  ∃ new,
    (_fit self images initial_shape gt_shapes max_iters st).2
      = logged st new ∧
    ∀ i c, new !! i = Some c →
      call_gt_shape c =
        match gt_shapes with Some gs => gs !! i | None => None end.
Proof.
  destruct (check_max_iters max_iters (n_scales self)) as [budgets|e] eqn:Hc.
  2:{ exists []. rewrite (fit_mismatch _ _ _ _ _ _ _ Hc). simpl.
      by rewrite logged_nil. }
  rewrite (fit_unfold _ _ _ _ _ _ _ Hc).
  destruct (foldM _ _ _ st) as [r st1] eqn:Hloop.
  apply fit_loop_outcome in Hloop as (new & Hst & Hgt & _).
  exists new. split; [by destruct r as [[[? ?] ?]|?]|].
  intros i c Hi. by rewrite (Hgt i c Hi).
Qed.

(** [fit_from_shape] once the preparation has returned. *)
Lemma fit_from_shape_prepared `{AL : Algorithms} (self : MultiFitter)
    initial_shape max_iters gt_shape crop_image st images shapes gts st1 :
  _prepare_image self initial_shape gt_shape crop_image st
    = (Ok (images, shapes, gts), st1) →
  fit_from_shape self initial_shape max_iters gt_shape crop_image st =
    match index_last shapes, index shapes 0 with
    | Ok top, Ok first =>
        match _fit self images first gts max_iters st1 with
        | (Ok algorithm_results, st2) =>
            (_fitter_result (image st2) algorithm_results
               (AlignmentAffine top initial_shape) gt_shape, st2)
        | (Raise e, st2) => (Raise e, st2)
        end
    | Raise e, _ => (Raise e, st1)
    | Ok _, Raise e => (Raise e, st1)
    end.
Proof.
  intros Hp. unfold fit_from_shape. rewrite (bind_ok _ _ _ _ _ Hp).
  unfold getlast, getitem. unfold_monad.
  destruct (index_last shapes) as [top|e]; [|done].
  destruct (index shapes 0) as [first|e]; [|done].
  by destruct (_fit _ _ _ _ _ st1) as [[results|e] st2].
Qed.

Lemma fit_from_shape_state `{AL : Algorithms} (self : MultiFitter)
    initial_shape max_iters gt_shape crop_image st images shapes gts st1 :
  _prepare_image self initial_shape gt_shape crop_image st
    = (Ok (images, shapes, gts), st1) →
  (fit_from_shape self initial_shape max_iters gt_shape crop_image st).2 = st1
  ∨ ∃ first, shapes !! 0%nat = Some first ∧
      (fit_from_shape self initial_shape max_iters gt_shape crop_image st).2
      = (_fit self images first gts max_iters st1).2.
Proof.
  intros Hp. rewrite (fit_from_shape_prepared _ _ _ _ _ _ _ _ _ _ Hp).
  destruct (index_last shapes) as [top|e]; [|by left].
  unfold index. destruct (shapes !! 0%nat) as [first|]; [|by left].
  right. exists first. split; [done|].
  by destruct (_fit _ _ _ _ _ st1) as [[results|e] st2].
Qed.

(** X16.  Once the preparation has returned, the image is free of the
    transient groups whatever happens next: whether [fit_from_shape]
    returns or raises (in [_fit], in an algorithm, or in building the
    result), the image afterwards has the pixels it had and the landmark
    mapping it had without [__initial_shape] (and [__gt_shape], when a
    ground truth is given). *)
Theorem prepared_fit_leaves_no_transient_group `{AL : Algorithms}
    (self : MultiFitter) initial_shape max_iters gt_shape crop_image st :
  is_ok (_prepare_image self initial_shape gt_shape crop_image st).1 = true →
  image (fit_from_shape self initial_shape max_iters gt_shape crop_image st).2
  = {| pixels := pixels (image st);
       landmarks := detached gt_shape (landmarks (image st)) |}.
Proof.
  intros Hok.
  destruct (_prepare_image self initial_shape gt_shape crop_image st)
    as [[[[images shapes] gts]|e] st1] eqn:Hp; [|done].
  pose proof (prepare_image_final_state _ _ _ _ _ _ _ Hp) as Hst1.
  destruct (fit_from_shape_state self initial_shape max_iters _ _ _ _ _ _ _ Hp)
    as [->|(first & _ & ->)].
  - by rewrite Hst1.
  - rewrite fit_keeps_image. by rewrite Hst1.
Qed.

Lemma prepared_fit_leaves_no_transient_group_witness :
  image (fit_from_shape two_scales unit_square (MaxItersList [5%Z])
           (Some unit_square) None (fitting stale)).2
  = {| pixels := pixels (image (fitting stale));
       landmarks := detached (MP := planar) (Some unit_square)
                      (landmarks (image (fitting stale))) |}.
Proof.
  apply (prepared_fit_leaves_no_transient_group (AL := stepper) two_scales
           unit_square (MaxItersList [5%Z]) (Some unit_square) None
           (fitting stale)).
  vm_compute. reflexivity.
Defined.

(** X17.  A fitter without scales: [_fit] returns the empty list without
    running anything, and [fit_from_shape] never returns: when the
    preparation succeeds, reading [initial_shapes[-1]] raises
    [IndexError].  No algorithm is run. *)
Theorem fitter_without_scales_cannot_fit `{AL : Algorithms}
    (self : MultiFitter) images initial_shape max_iters gt_shapes gt_shape
    crop_image k st :
  scales self = [] →
  _fit self images initial_shape gt_shapes (MaxItersInt k) st = (Ok [], st) ∧
  is_ok (fit_from_shape self initial_shape max_iters gt_shape crop_image
           st).1 = false ∧
  calls (fit_from_shape self initial_shape max_iters gt_shape crop_image
           st).2 = calls st ∧
  (is_ok (_prepare_image self initial_shape gt_shape crop_image st).1 = true →
   (fit_from_shape self initial_shape max_iters gt_shape crop_image st).1
   = Raise IndexError).
Proof.
  intros Hs.
  assert (n_scales self = 0%nat) as Hn by (unfold n_scales; by rewrite Hs).
  split.
  { unfold _fit, check_max_iters. rewrite Hn. by unfold_monad. }
  destruct (_prepare_image self initial_shape gt_shape crop_image st)
    as [[[[imgs shapes] gts]|e] st1] eqn:Hp.
  - pose proof (prepare_image_final_state _ _ _ _ _ _ _ Hp) as Hst1.
    destruct (prepare_image_lists _ _ _ _ _ _ _ _ _ Hp) as (_ & Hlen & _).
    rewrite Hn in Hlen. destruct shapes; [|done].
    rewrite (fit_from_shape_prepared _ _ _ _ _ _ _ _ _ _ Hp). simpl.
    split; [done|]. split; [by rewrite Hst1|done].
  - pose proof (failed_preparation_state _ _ _ _ _ _ _ Hp) as Hst1.
    unfold fit_from_shape. rewrite (bind_raise _ _ _ _ _ Hp).
    split; [done|]. split; [by rewrite Hst1|done].
Qed.

Lemma fitter_without_scales_cannot_fit_witness :
  _fit scaleless [] unit_square None (MaxItersInt 3) (fitting annotated)
    = (Ok [], fitting annotated) ∧
  is_ok (fit_from_shape scaleless unit_square (MaxItersInt 3) None None
           (fitting annotated)).1 = false ∧
  calls (fit_from_shape scaleless unit_square (MaxItersInt 3) None None
           (fitting annotated)).2 = calls (fitting annotated) ∧
  (is_ok (_prepare_image scaleless unit_square None None
            (fitting annotated)).1 = true →
   (fit_from_shape scaleless unit_square (MaxItersInt 3) None None
      (fitting annotated)).1 = Raise IndexError).
Proof.
  apply (fitter_without_scales_cannot_fit (AL := stepper) scaleless []
           unit_square (MaxItersInt 3) None None None 3%Z (fitting annotated)).
  reflexivity.
Defined.

(** X18.  What the runs of [fit_from_shape] receive, once the preparation
    has returned the images of the scales: the run of scale [i] is made on
    the [i]-th image; the first run starts from the shape that image holds
    under [__initial_shape] (the initial shape as moved onto that image,
    not the one given by the caller); and each run receives as ground truth
    the shape its image holds under [__gt_shape] when a ground truth is
    given, and [None] otherwise. *)
Theorem every_run_works_on_its_own_level `{AL : Algorithms}
    (self : MultiFitter) initial_shape max_iters gt_shape crop_image st
    images shapes gts st1 :
  _prepare_image self initial_shape gt_shape crop_image st
    = (Ok (images, shapes, gts), st1) →
  ∃ new,
    (fit_from_shape self initial_shape max_iters gt_shape crop_image st).2
      = logged st1 new ∧
    ∀ i c, new !! i = Some c →
      images !! i = Some (call_image c) ∧
      (i = 0%nat →
       landmarks (call_image c) !! "__initial_shape" = Some (call_shape c)) ∧
      call_gt_shape c =
        match gt_shape with
        | Some _ => landmarks (call_image c) !! "__gt_shape"
        | None => None
        end.
Proof.
  intros Hp.
  destruct (prepare_image_lists _ _ _ _ _ _ _ _ _ Hp)
    as (_ & _ & Hshapes & Hgts).
  destruct (fit_from_shape_state self initial_shape max_iters _ _ _ _ _ _ _ Hp)
    as [->|(first & Hfirst & ->)].
  { exists []. by rewrite logged_nil. }
  destruct (fit_calls self images first gts max_iters st1)
    as (new & Hst & _ & Hcalls).
  exists new. split; [done|].
  intros i c Hi. destruct (Hcalls i c Hi) as (_ & Him & Hshape & Hgt).
  split; [done|]. split.
  - intros ->. rewrite (Hshape eq_refl).
    by destruct (Forall2_lookup_lr _ _ _ _ _ _ Hshapes Him Hfirst).
  - rewrite Hgt. destruct gt_shape as [g|].
    + destruct Hgts as (gs & -> & _ & Hall).
      destruct (Forall2_lookup_l _ _ _ _ _ Hall Him) as (g' & -> & Hg).
      by rewrite Hg.
    + by rewrite Hgts.
Qed.

Lemma every_run_works_on_its_own_level_witness :
  ∃ images shapes gts st1,
    _prepare_image two_scales unit_square (Some unit_square) None
      (fitting annotated) = (Ok (images, shapes, gts), st1) ∧
    ∃ new,
      (fit_from_shape two_scales unit_square (MaxItersInt 3)
         (Some unit_square) None (fitting annotated)).2 = logged st1 new ∧
      ∀ i c, new !! i = Some c →
        images !! i = Some (call_image c) ∧
        (i = 0%nat →
         landmarks (call_image c) !! "__initial_shape"
           = Some (call_shape c)) ∧
        call_gt_shape c = landmarks (call_image c) !! "__gt_shape".
Proof.
  destruct (returns (_prepare_image two_scales unit_square
                       (Some unit_square) None) (fitting annotated))
    as ([[images shapes] gts] & st1 & H); [vm_compute; reflexivity|].
  exists images, shapes, gts, st1. split; [exact H|].
  exact (every_run_works_on_its_own_level (AL := stepper) two_scales
           unit_square (MaxItersInt 3) (Some unit_square) None
           (fitting annotated) images shapes gts st1 H).
Defined.

(** X19.  [fit_from_bb] is the zero-noise case of fitting from a perturbed
    box: the shape [perturb_from_bb] returns for the reference shape, the
    box, and [noisy_shape_from_bounding_box] with zero noise and
    [rotation=True], is the initial shape [fit_from_bb] computes, so that
    [fit_from_shape] from that shape and [fit_from_bb] from the box are the
    same computation. *)
Theorem fit_from_bb_is_fit_from_zero_noise_shape
    `{AL : Algorithms} `{!NeutralTransforms MP}
    (self : MultiFitter) bb max_iters gt_shape crop_image
    noise_type noise_percentage w :
  length (range bb) = 2%nat →
  Noise.py_is noise_type Noise.lit_gaussian = true ∨
  Noise.py_is noise_type Noise.lit_uniform = true →
  (noise_percentage = Noise.PyFloat 0 ∨
   ∃ l, noise_percentage = Noise.PyList l ∧
        (Noise.heap w !! l = Some [0; 0; 0] ∨ Noise.heap w !! l = Some [0])) →
  ∃ shape,
    (Shapes.perturb_from_bb (reference_shape self) bb
       (λ s b, Shapes.noisy_shape_from_bounding_box s b noise_type
                 noise_percentage true) w).1 = Ok shape ∧
    fit_from_bb self bb max_iters gt_shape crop_image
    = fit_from_shape self shape max_iters gt_shape crop_image.
Proof.
  intros Hlen Hnt Hp.
  destruct (zero_noise_transform (bounding_box (reference_shape self)) bb
              noise_type noise_percentage true w Hlen Hnt Hp) as [w' Hw].
  eexists. split.
  - unfold Shapes.perturb_from_bb, Shapes.noisy_shape_from_bounding_box.
    by rewrite (bind_ok _ _ _ _ _ Hw).
  - reflexivity.
Qed.

Lemma fit_from_bb_is_fit_from_zero_noise_shape_witness :
  ∃ shape,
    (Shapes.perturb_from_bb (MP := planar) (reference_shape two_scales)
       wide_square
       (λ s b, Shapes.noisy_shape_from_bounding_box s b Noise.lit_uniform
                 (Noise.PyFloat 0) true) w_three).1 = Ok shape ∧
    fit_from_bb two_scales wide_square (MaxItersInt 3) None None
    = fit_from_shape two_scales shape (MaxItersInt 3) None None.
Proof.
  apply (fit_from_bb_is_fit_from_zero_noise_shape (AL := stepper) two_scales
           wide_square (MaxItersInt 3) None None Noise.lit_uniform
           (Noise.PyFloat 0) w_three).
  - reflexivity.
  - right. reflexivity.
  - left. reflexivity.
Defined.

End fitter_extras.

(** ** The runs of a fit *)

Section run_claims.
Import Fitter Planar Samples.

(** The runs of [fit_from_shape] once the preparation has returned and the
    budgets are validated. *)
Lemma fit_from_shape_runs `{AL : Algorithms} (self : MultiFitter)
    initial_shape max_iters gt_shape crop_image st images shapes gts st1
    budgets :
  _prepare_image self initial_shape gt_shape crop_image st
    = (Ok (images, shapes, gts), st1) →
  check_max_iters max_iters (n_scales self) = Ok budgets →
  ∃ new,
    (fit_from_shape self initial_shape max_iters gt_shape crop_image st).2
      = logged st1 new ∧
    (∀ i c, new !! i = Some c →
       algorithms self !! i = Some (call_algorithm c) ∧
       images !! i = Some (call_image c) ∧
       budgets !! i = Some (call_max_iters c)) ∧
    (can_run self → length new = n_scales self).
Proof.
  intros Hp Hc.
  destruct (prepare_image_lists _ _ _ _ _ _ _ _ _ Hp)
    as (Himages & Hshapes & _ & Hgts).
  rewrite (fit_from_shape_prepared _ _ _ _ _ _ _ _ _ _ Hp).
  destruct shapes as [|first shapes].
  { exists []. simpl. rewrite logged_nil. split; [done|]. split; [done|].
    intros (Hpos & _). simpl in Hshapes. lia. }
  assert (∃ top, index_last (first :: shapes) = Ok top) as [top ->].
  { unfold index_last. destruct (last (first :: shapes)) eqn:Hl; [eauto|].
    by apply last_None in Hl. }
  unfold index. simpl.
  destruct (fit_inv self images first gts max_iters st1 budgets Hc)
    as (new & Hnew & _ & Hok & Hidx & _).
  exists new. split.
  { by destruct (_fit _ _ _ _ _ st1) as [[results|e] st2]. }
  split; [done|].
  intros (Hpos & Halg & Hrun & Hnz). apply Hok.
  apply (fit_completes _ _ _ _ _ _ budgets); try done.
  intros gs ->. destruct gt_shape as [g|]; [|done].
  by destruct Hgts as (gs' & [= ->] & Hlen & _).
Qed.

(** C3.  The iteration budgets of [fit_from_shape], once the preparation of
    the image has returned the per-scale [images].  The runs of the
    per-scale algorithms are the calls [new] recorded after the
    preparation; on a fitter that can run there are [n_scales] of them,
    and the [i]-th is the run of [algorithms[i]] on [images[i]].
    (a) With [max_iters] an int [k], every run receives [k].  (b) With a
    list of exactly [n_scales] entries, the [i]-th run receives
    [max_iters[i]].  (c) With a list of any other length the call raises
    and no run has been recorded: the state is the one the preparation has
    left; the exception is the configuration error when the fitter has a
    scale at all (with no scale, [initial_shapes[-1]] has raised before). *)
Theorem every_scale_runs_with_its_budget `{AL : Algorithms}
    (self : MultiFitter) initial_shape gt_shape crop_image st
    images shapes gts st1 :
  _prepare_image self initial_shape gt_shape crop_image st
    = (Ok (images, shapes, gts), st1) →
  (∀ k,
     let out := fit_from_shape self initial_shape (MaxItersInt k) gt_shape
                  crop_image st in
     ∃ new, out.2 = logged st1 new ∧
       (can_run self → length new = n_scales self) ∧
       ∀ i c, new !! i = Some c →
         call_max_iters c = k ∧
         algorithms self !! i = Some (call_algorithm c) ∧
         images !! i = Some (call_image c)) ∧
  (∀ ks, length ks = n_scales self →
     let out := fit_from_shape self initial_shape (MaxItersList ks) gt_shape
                  crop_image st in
     ∃ new, out.2 = logged st1 new ∧
       (can_run self → length new = n_scales self) ∧
       ∀ i c, new !! i = Some c →
         ks !! i = Some (call_max_iters c) ∧
         algorithms self !! i = Some (call_algorithm c) ∧
         images !! i = Some (call_image c)) ∧
  (∀ ks, length ks ≠ n_scales self →
     let out := fit_from_shape self initial_shape (MaxItersList ks) gt_shape
                  crop_image st in
     is_ok out.1 = false ∧ out.2 = st1 ∧ calls st1 = calls st ∧
     ((0 < n_scales self)%nat →
      out.1 = Raise (ValueError max_iters_mismatch))).
Proof.
  intros Hp. split; [|split].
  - intros k out. subst out.
    destruct (fit_from_shape_runs self initial_shape (MaxItersInt k) _ _ _ _
                _ _ _ (replicate (n_scales self) k) Hp eq_refl)
      as (new & Hst & Hidx & Hlive).
    exists new. split; [done|]. split; [done|].
    intros i c Hi. destruct (Hidx i c Hi) as (Ha & Him & Hb).
    by apply lookup_replicate in Hb as [-> _].
  - intros ks Hlen out. subst out.
    destruct (fit_from_shape_runs self initial_shape (MaxItersList ks) _ _ _
                _ _ _ _ ks Hp) as (new & Hst & Hidx & Hlive).
    { simpl. by rewrite decide_True. }
    exists new. split; [done|]. split; [done|].
    intros i c Hi. by destruct (Hidx i c Hi) as (Ha & Him & Hb).
  - intros ks Hlen out. subst out.
    pose proof (prepare_image_final_state _ _ _ _ _ _ _ Hp) as Hst1.
    destruct (prepare_image_lists _ _ _ _ _ _ _ _ _ Hp)
      as (_ & Hshapes & _).
    rewrite (fit_from_shape_prepared _ _ _ _ _ _ _ _ _ _ Hp).
    assert (calls st1 = calls st) as Hcalls by (by rewrite Hst1).
    destruct shapes as [|first shapes].
    { simpl. repeat split; try done. simpl in Hshapes. lia. }
    assert (∃ top, index_last (first :: shapes) = Ok top) as [top ->].
    { unfold index_last. destruct (last (first :: shapes)) eqn:Hl; [eauto|].
      by apply last_None in Hl. }
    unfold index. simpl.
    rewrite (fit_mismatch self images first gts (MaxItersList ks) st1
               (ValueError max_iters_mismatch)).
    + by repeat split.
    + simpl. by rewrite decide_False.
Qed.

Lemma can_run_two_scales : can_run (AL := stepper) two_scales.
Proof.
  split; [vm_compute; lia|]. split; [reflexivity|]. split; [done|].
  repeat constructor; compute_done.
Qed.

Lemma every_scale_runs_with_its_budget_witness :
  ∃ images shapes gts st1,
    _prepare_image two_scales unit_square None None (fitting annotated)
      = (Ok (images, shapes, gts), st1) ∧
    (∃ new,
       (fit_from_shape two_scales unit_square (MaxItersInt 3) None None
          (fitting annotated)).2 = logged st1 new ∧
       length new = 2%nat ∧
       ∀ i c, new !! i = Some c →
         call_max_iters c = 3%Z ∧
         algorithms two_scales !! i = Some (call_algorithm c) ∧
         images !! i = Some (call_image c)) ∧
    (∃ new,
       (fit_from_shape two_scales unit_square (MaxItersList [3%Z; 4%Z]) None
          None (fitting annotated)).2 = logged st1 new ∧
       length new = 2%nat ∧
       ∀ i c, new !! i = Some c →
         [3%Z; 4%Z] !! i = Some (call_max_iters c) ∧
         algorithms two_scales !! i = Some (call_algorithm c) ∧
         images !! i = Some (call_image c)) ∧
    fit_from_shape two_scales unit_square (MaxItersList [5%Z]) None None
      (fitting annotated)
    = (Raise (ValueError max_iters_mismatch), st1) ∧
    calls st1 = [].
Proof.
  destruct (returns (_prepare_image two_scales unit_square None None)
              (fitting annotated))
    as ([[images shapes] gts] & st1 & H); [vm_compute; reflexivity|].
  destruct (every_scale_runs_with_its_budget (AL := stepper) two_scales
              unit_square None None (fitting annotated) images shapes gts st1
              H) as (Ha & Hb & Hc).
  exists images, shapes, gts, st1. split; [exact H|]. split; [|split].
  - destruct (Ha 3%Z) as (new & Hst & Hlive & Hbud).
    exists new. split; [exact Hst|]. split; [|exact Hbud].
    apply Hlive, can_run_two_scales.
  - destruct (Hb [3%Z; 4%Z] eq_refl) as (new & Hst & Hlive & Hbud).
    exists new. split; [exact Hst|]. split; [|exact Hbud].
    apply Hlive, can_run_two_scales.
  - destruct (Hc [5%Z]) as (Hok & Hst & Hcalls & Herr).
    { vm_compute. lia. }
    split; [|exact Hcalls].
    destruct (fit_from_shape two_scales unit_square (MaxItersList [5%Z]) None
                None (fitting annotated)) as [r st2].
    simpl in *. rewrite Hst, Herr; [reflexivity|]. vm_compute. lia.
Defined.

(** C4.  With scale factors that never decrease and are not zero: the first
    run of [_fit] starts from [initial_shape], and the shape given to the
    run of scale [i + 1] is the [final_shape] of the result of the run of
    scale [i], rescaled by [scales[i + 1] / scales[i]].  A call that returns
    has made [n_scales] runs and returns their results as the runs gave
    them, the last one included: after the run of the last scale nothing is
    rescaled.  The call does return when the budgets are valid, there is an
    image and an algorithm per scale (and a ground-truth shape per scale
    when given) and no algorithm raises. *)
Theorem next_scale_starts_from_rescaled_shape
    `{AL : Algorithms} `{!UnitScale MP}
    (self : MultiFitter) images initial_shape gt_shapes max_iters st :
  non_decreasing (scales self) →
  Forall (λ s, s ≠ 0) (scales self) →
  let out := _fit self images initial_shape gt_shapes max_iters st in
  ∃ new, out.2 = logged st new ∧
    (∀ c, new !! 0%nat = Some c → call_shape c = initial_shape) ∧
    (∀ i c c', new !! i = Some c → new !! S i = Some c' →
       ∃ res si sn,
         run_call c = Ok res ∧
         scales self !! i = Some si ∧ scales self !! S i = Some sn ∧
         call_shape c' =
           transform_apply (Scale (sn / si) (n_dims (final_shape res)))
             (final_shape res)) ∧
    (∀ results, out.1 = Ok results →
       length new = n_scales self ∧
       Forall2 (λ c res, run_call c = Ok res) new results) ∧
    (is_ok (check_max_iters max_iters (n_scales self)) = true →
     length images = n_scales self →
     length (algorithms self) = n_scales self →
     (∀ gs, gt_shapes = Some gs → length gs = n_scales self) →
     (∀ a im s g k, is_ok (run a im s g k) = true) →
     is_ok out.1 = true) ∧
    (∀ i res, S i = n_scales self →
       next_shape self i res = Ok (final_shape res)).
Proof.
  intros Hmono Hnz out. subst out.
  destruct (check_max_iters max_iters (n_scales self)) as [budgets|e] eqn:Hc.
  - destruct (fit_inv self images initial_shape gt_shapes max_iters st
                budgets Hc) as (new & Hst & Hlen & Hok & _ & Hfirst & Hchain).
    exists new. split; [done|]. split; [done|]. split; [|split; [|split]].
    + intros i c c' Hi Hi'.
      destruct (Hchain i c c' Hi Hi') as (res & Hrun & Hns).
      assert (S i < n_scales self)%nat as Hlt.
      { apply lookup_lt_Some in Hi'. lia. }
      unfold n_scales in Hlt.
      destruct (lookup_lt_is_Some_2 (scales self) i) as [si Hsi]; [lia|].
      destruct (lookup_lt_is_Some_2 (scales self) (S i)) as [sn Hsn]; [lia|].
      exists res, si, sn. repeat split; try done.
      rewrite (next_shape_rescaled self i res si sn Hmono Hnz Hsi Hsn) in Hns.
      by injection Hns.
    + intros results Hres. split; [apply Hok; by rewrite Hres|].
      rewrite (fit_unfold _ _ _ _ _ _ _ Hc) in Hst, Hres.
      destruct (foldM _ _ _ st) as [[[[shape gt] results']|e] st1] eqn:Hloop;
        [|done].
      simpl in Hst, Hres. injection Hres as ->.
      apply fit_loop_outcome in Hloop
        as (new' & Hst' & _ & _ & ress & Hress & Hall).
      rewrite Hst in Hst'. apply logged_inj in Hst' as <-.
      simpl in Hress. by subst ress.
    + intros _ Him Hal Hgt Hrun.
      by apply (fit_completes _ _ _ _ _ _ budgets).
    + intros i res. apply next_shape_last.
  - exists []. rewrite (fit_mismatch _ _ _ _ _ _ _ Hc). simpl.
    rewrite logged_nil. repeat split; try done.
    intros i res. apply next_shape_last.
Qed.

Lemma next_scale_starts_from_rescaled_shape_witness :
  ∃ c c' res results,
    _fit two_scales [annotated; annotated] unit_square None (MaxItersInt 3)
      (fitting annotated)
    = (Ok results, logged (fitting annotated) [c; c']) ∧
    call_shape c = unit_square ∧
    run_call c = Ok res ∧
    call_shape c' =
      apply_affine (uniform_scale (1 / fl 0.5)) (final_shape res) ∧
    Forall2 (λ c res, run_call c = Ok res) [c; c'] results.
Proof.
  destruct (next_scale_starts_from_rescaled_shape (AL := stepper)
              two_scales [annotated; annotated] unit_square None
              (MaxItersInt 3) (fitting annotated))
    as (new & Hst & Hfirst & Hchain & Hres & Hlive & _).
  - repeat constructor. compute_done.
  - repeat constructor; compute_done.
  - destruct (returns (_fit two_scales [annotated; annotated] unit_square
                         None (MaxItersInt 3)) (fitting annotated))
      as (results & st' & H).
    { apply Hlive; try reflexivity; done. }
    rewrite H in Hst, Hres. simpl in Hst.
    destruct (Hres results eq_refl) as (Hlen & Hall).
    destruct new as [|c [|c' [|? ?]]]; try done.
    destruct (Hchain 0%nat c c' eq_refl eq_refl)
      as (res & si & sn & Hrun & [= <-] & [= <-] & Hshape).
    exists c, c', res, results. rewrite H, Hst.
    split; [reflexivity|]. split; [by apply Hfirst|].
    split; [exact Hrun|]. split; [exact Hshape|exact Hall].
Defined.

End run_claims.

(** ** Claims on [generate_perturbations_from_gt] *)

Section perturbation_facts.
Import Perturbations.
Context `{IO : ImageOps} {E : Type}.
Implicit Types st : pstate (E := E).

Global Instance generated_bb_inj : Inj (=) (=) generated_bb.
Proof.
  intros a b H. unfold generated_bb in H.
  apply (inj (String.app _)) in H. by apply (inj pretty) in H.
Qed.

Lemma generated_names_S k :
  generated_names (S k) = generated_names k ∪ {[ generated_bb k ]}.
Proof.
  unfold generated_names. rewrite seq_S, fmap_app. simpl.
  by rewrite list_to_set_snoc_L.
Qed.

Lemma size_generated_names k : size (generated_names k) = k.
Proof.
  unfold generated_names. rewrite size_list_to_set.
  - by rewrite length_fmap, length_seq.
  - apply NoDup_fmap_2; [apply _|apply NoDup_seq].
Qed.

Lemma elem_of_generated_names key k :
  key ∈ generated_names k ↔ ∃ i, (i < k)%nat ∧ key = generated_bb i.
Proof.
  unfold generated_names. rewrite elem_of_list_to_set, list_elem_of_fmap.
  split.
  - intros (i & -> & Hi). exists i. split; [|done].
    apply elem_of_seq in Hi. lia.
  - intros (i & Hi & ->). exists i. split; [done|].
    apply elem_of_seq. lia.
Qed.

(** *** The mapping once shapes are stored *)

Lemma generated_pairs_fst (vs : list PointCloud) :
  (imap (λ k v, (generated_bb k, v)) vs).*1 = generated_bb <$> seq 0 (length vs).
Proof.
  induction vs as [|v vs IH] using rev_ind; [done|].
  rewrite imap_app, fmap_app, IH, length_app. simpl.
  rewrite Nat.add_0_r, Nat.add_1_r, seq_S, fmap_app. done.
Qed.

Lemma generated_pairs_NoDup (vs : list PointCloud) :
  NoDup (imap (λ k v, (generated_bb k, v)) vs).*1.
Proof.
  rewrite generated_pairs_fst.
  apply NoDup_fmap_2; [apply _|apply NoDup_seq].
Qed.

Lemma generated_pairs_snd (vs : list PointCloud) :
  (imap (λ k v, (generated_bb k, v)) vs).*2 = vs.
Proof.
  induction vs as [|v vs IH] using rev_ind; [done|].
  rewrite imap_app, fmap_app, IH. done.
Qed.

Lemma written_nil lm : written [] lm = lm.
Proof. unfold written. simpl. by rewrite (left_id_L ∅ (∪)). Qed.

Lemma written_snoc vs v lm :
  written (vs ++ [v]) lm = <[generated_bb (length vs) := v]> (written vs lm).
Proof.
  unfold written. rewrite imap_app. simpl. rewrite Nat.add_0_r.
  rewrite list_to_map_snoc.
  - by rewrite insert_union_l.
  - rewrite generated_pairs_fst. intros (i & Hi & Hin)%list_elem_of_fmap.
    apply (inj generated_bb) in Hi as <-. apply elem_of_seq in Hin. lia.
Qed.

Lemma written_lookup vs lm k :
  (k < length vs)%nat → written vs lm !! generated_bb k = vs !! k.
Proof.
  revert k. induction vs as [|v vs IH] using rev_ind; intros k Hk.
  { simpl in Hk. lia. }
  rewrite written_snoc. rewrite length_app in Hk. simpl in Hk.
  destruct (decide (k = length vs)) as [->|Hne].
  - rewrite lookup_insert_eq. by rewrite lookup_app_r, Nat.sub_diag by lia.
  - rewrite lookup_insert_ne by (intros H%(inj generated_bb); lia).
    rewrite IH by lia. by rewrite lookup_app_l by lia.
Qed.

Lemma written_lookup_other vs lm key :
  key ∉ generated_names (length vs) → written vs lm !! key = lm !! key.
Proof.
  induction vs as [|v vs IH] using rev_ind; intros Hkey.
  { by rewrite written_nil. }
  rewrite written_snoc. rewrite length_app in Hkey. simpl in Hkey.
  rewrite Nat.add_1_r, generated_names_S in Hkey.
  rewrite lookup_insert_ne by set_solver. apply IH. set_solver.
Qed.

Lemma dom_written vs lm :
  dom (written vs lm) = dom lm ∪ generated_names (length vs).
Proof.
  induction vs as [|v vs IH] using rev_ind.
  { rewrite written_nil. unfold generated_names. simpl. set_solver. }
  rewrite written_snoc, dom_insert_L, IH, length_app. simpl.
  rewrite Nat.add_1_r, generated_names_S. set_solver.
Qed.

Lemma pixels_finished im : pixels (finished im) = pixels im.
Proof. unfold finished. by destruct has_landmarks_outside_bounds. Qed.

Lemma dom_finished im : dom (landmarks (finished im)) = dom (landmarks im).
Proof.
  unfold finished. destruct has_landmarks_outside_bounds; [|done].
  simpl. by rewrite dom_fmap_L.
Qed.

Lemma stored_refl j st im : images st !! j = Some im → stored j [] st st.
Proof.
  intros Hj. split; [done|]. split; [done|]. exists im, im.
  by rewrite written_nil.
Qed.

Lemma set_landmark_stored j vs st0 st v :
  stored j vs st0 st →
  stored j (vs ++ [v]) st0 (set_landmark j (generated_bb (length vs)) v st).2.
Proof.
  intros (Hlen & Hother & im0 & im & H0 & Hj & Hpx & Hlm).
  unfold set_landmark, update_image, modify, stored. simpl.
  split; [by rewrite length_alter|].
  split; [intros j' Hne; by rewrite list_lookup_alter_ne by done; apply Hother|].
  eexists im0, _. split; [done|].
  split; [by rewrite list_lookup_alter_eq, Hj|]. simpl.
  split; [done|]. by rewrite Hlm, written_snoc.
Qed.

(** *** The accessor *)

(** The groups matching a glob, on a mapping whose shapes have been
    clamped: the matching is on the names alone. *)
Lemma items_matching_fmap glob (f : PointCloud → PointCloud) lm :
  items_matching glob (f <$> lm) = prod_map id f <$> items_matching glob lm.
Proof.
  unfold items_matching. rewrite map_to_list_fmap.
  induction (map_to_list lm) as [|[k v] l IH]; [done|].
  rewrite fmap_cons. rewrite !filter_cons. simpl.
  destruct (decide (fnmatch k glob = true)); simpl; by rewrite IH.
Qed.

Lemma generated_bb_func_constrain im :
  generated_bb_func (constrain_landmarks_to_bounds im)
  = constrain_to_bounds (pixels im) <$> generated_bb_func im.
Proof.
  unfold generated_bb_func, constrain_landmarks_to_bounds. simpl.
  rewrite items_matching_fmap. rewrite <- !list_fmap_compose.
  by apply list_fmap_ext.
Qed.

(** On a mapping none of whose names matches the glob of the accessor, the
    accessor returns the stored shapes, in some order. *)
Lemma generated_bb_func_written ws lm px :
  (∀ k, fnmatch (generated_bb k) "__generated_bb_*" = true) →
  items_matching "__generated_bb_*" lm = [] →
  generated_bb_func {| pixels := px; landmarks := written ws lm |} ≡ₚ ws.
Proof.
  intros Hmatch Hnone. unfold generated_bb_func. simpl.
  rewrite <- (generated_pairs_snd ws) at 2. apply fmap_Permutation.
  apply NoDup_Permutation.
  - unfold items_matching. apply NoDup_filter, NoDup_map_to_list.
  - eapply NoDup_fmap_1, generated_pairs_NoDup.
  - intros [key v]. unfold items_matching, written.
    rewrite list_elem_of_filter, elem_of_map_to_list. simpl.
    rewrite lookup_union_Some_raw.
    rewrite <- (elem_of_list_to_map _ _ _ (generated_pairs_NoDup ws)).
    split.
    + intros [Hkey [Hin|[_ Hlm]]]; [done|]. exfalso.
      assert ((key, v) ∈ items_matching "__generated_bb_*" lm) as Hin.
      { unfold items_matching.
        rewrite list_elem_of_filter, elem_of_map_to_list. by split. }
      rewrite Hnone in Hin. by apply elem_of_nil in Hin.
    + intros Hin. split; [|by left].
      apply elem_of_lookup_imap in Hin as (k & w & [= -> ->] & _).
      apply Hmatch.
Qed.

Lemma generated_bb_func_nil im :
  generated_bb_func im = [] → items_matching "__generated_bb_*" (landmarks im) = [].
Proof. unfold generated_bb_func. apply fmap_nil_inv. Qed.

(** *** Images that only gain generated groups *)

Lemma grown_refl st : grown st st.
Proof.
  split; [done|]. intros j im Hj. exists im. split; [done|].
  split; [done|]. split; [done|]. intros key Hkey. by left.
Qed.

Lemma grown_alter st0 st j (f : Image Pixels → Image Pixels) :
  (∀ im, pixels (f im) = pixels im ∧
         dom (landmarks im) ⊆ dom (landmarks (f im)) ∧
         ∀ key, key ∈ dom (landmarks (f im)) →
           key ∈ dom (landmarks im) ∨ ∃ k, key = generated_bb k) →
  grown st0 st → grown st0 (update_image j f st).2.
Proof.
  intros Hf [Hlen Hims]. unfold update_image, modify, grown. simpl.
  split; [by rewrite length_alter|].
  intros j' im0 Hj'. destruct (Hims j' im0 Hj') as (im & Him & Hpx & Hsub & Hnew).
  destruct (decide (j' = j)) as [->|Hne].
  - exists (f im). rewrite list_lookup_alter_eq, Him. split; [done|].
    destruct (Hf im) as (Hpx' & Hsub' & Hnew').
    split; [congruence|]. split; [set_solver|].
    intros key Hkey. destruct (Hnew' key Hkey) as [Hk|Hk]; [|by right].
    by apply Hnew.
  - exists im. by rewrite list_lookup_alter_ne.
Qed.

Lemma grown_set_landmark st0 st j k shape :
  grown st0 st → grown st0 (set_landmark j (generated_bb k) shape st).2.
Proof.
  apply grown_alter. intros im. simpl. split; [done|].
  rewrite dom_insert_L. split; [set_solver|].
  intros key [->%elem_of_singleton|Hkey]%elem_of_union; eauto.
Qed.

Lemma grown_constrain st0 st j :
  grown st0 st → grown st0 (update_image j constrain_landmarks_to_bounds st).2.
Proof.
  apply grown_alter. intros im. simpl. split; [done|].
  rewrite dom_fmap_L. split; [done|]. by left.
Qed.

(** *** The generator over the groups matching a glob *)

Lemma image_at_lookup j st im :
  images st !! j = Some im → image_at j st = (Ok im, st).
Proof.
  intros H. unfold image_at, getitem, index. unfold_monad. by rewrite H.
Qed.

Lemma image_at_missing j st :
  images st !! j = None → image_at j st = (Raise IndexError, st).
Proof.
  intros H. unfold image_at, getitem, index. unfold_monad. by rewrite H.
Qed.

Lemma keeps_state_image_at j : keeps_state (image_at j (E := E)).
Proof. unfold image_at, getitem. by keeps_state. Qed.

Lemma bb_glob_eq {B} j glob used names (body : B → PointCloud → M pstate B)
    b st im :
  images st !! j = Some im →
  bb_glob j glob used names body b st =
    if decide (size (landmarks im) = used) then
      match names with
      | [] => (Ok b, st)
      | name :: names =>
          match landmarks im !! name with
          | Some v =>
              if fnmatch name glob
              then (body b (bounding_box v)
                      ≫= bb_glob j glob used names body) st
              else bb_glob j glob used names body b st
          | None => (Raise (KeyError name), st)
          end
      end
    else (Raise (RuntimeError changed_size), st).
Proof.
  intros Hj. destruct names as [|name names]; cbn [bb_glob].
  - unfold mbind at 1, M_bind, bind. rewrite (image_at_lookup _ _ _ Hj).
    by destruct (decide _).
  - unfold mbind at 1, M_bind at 1, bind at 1.
    rewrite (image_at_lookup _ _ _ Hj).
    destruct (decide _); [|done]. unfold landmarks_getitem.
    unfold mbind at 1, M_bind at 1, bind at 1, lift.
    destruct (landmarks im !! name) as [v|]; [|done].
    by destruct (fnmatch name glob).
Qed.

Lemma bb_glob_missing {B} j glob used names
    (body : B → PointCloud → M pstate B) b st :
  images st !! j = None →
  bb_glob j glob used names body b st = (Raise IndexError, st).
Proof.
  intros Hj. destruct names; cbn [bb_glob];
    unfold mbind at 1, M_bind at 1, bind at 1;
    by rewrite (image_at_missing _ _ Hj).
Qed.

(** The generator run to its end by a consumer that writes nothing, as
    [list(...)] at line 516: all the matching groups are reached. *)
Lemma bb_glob_list j glob st im kvs :
  images st !! j = Some im →
  ∀ bbs,
  (∀ kv, kv ∈ kvs → landmarks im !! kv.1 = Some kv.2) →
  bb_glob j glob (size (landmarks im)) kvs.*1
    (λ bbs bb, mret (bbs ++ [bb])) bbs st
  = (Ok (bbs ++ map (λ kv, bounding_box kv.2)
                  (filter (λ kv, fnmatch kv.1 glob = true) kvs)), st).
Proof.
  intros Hj. induction kvs as [|[k v] kvs IH]; intros bbs Hin.
  - rewrite (bb_glob_eq _ _ _ _ _ _ _ _ Hj), decide_True by done.
    simpl. by rewrite app_nil_r.
  - rewrite fmap_cons. rewrite (bb_glob_eq _ _ _ _ _ _ _ _ Hj).
    rewrite decide_True by done. simpl.
    pose proof (Hin (k, v) ltac:(apply elem_of_cons; by left)) as Hk.
    simpl in Hk. rewrite Hk.
    rewrite filter_cons. simpl.
    destruct (fnmatch k glob) eqn:Hm.
    + rewrite decide_True by done. unfold mbind, M_bind, bind, mret, M_ret, ret.
      rewrite IH by (intros kv Hkv; apply Hin, elem_of_cons; by right).
      simpl. by rewrite <- app_assoc.
    + rewrite decide_False by done.
      apply IH. intros kv Hkv. apply Hin, elem_of_cons. by right.
Qed.

(** [len(list(bb_glob(images[0])))], line 516. *)
Lemma count_boxes gt_group glob st im :
  images st !! 0%nat = Some im →
  (bbs ← bb_generator gt_group (Some glob) 0
           (λ bbs bb, mret (bbs ++ [bb])) [];
   mret (length bbs)) st
  = (Ok (n_boxes (Some glob) im), st).
Proof.
  intros H0. unfold bb_generator.
  unfold mbind, M_bind, bind. rewrite (image_at_lookup _ _ _ H0).
  unfold mbind, M_bind, bind.
  rewrite (bb_glob_list 0 glob st im (map_to_list (landmarks im)) H0 []).
  - unfold mret, M_ret, ret, n_boxes, items_matching. simpl.
    by rewrite length_map.
  - intros [k v] Hkv. by apply elem_of_map_to_list in Hkv.
Qed.

(** Once the mapping has another number of groups than at the start of the
    iteration, the next step of the generator raises. *)
Lemma bb_glob_changed {B} j glob used names
    (body : B → PointCloud → M pstate B) b st im :
  images st !! j = Some im →
  size (landmarks im) ≠ used →
  bb_glob j glob used names body b st = (Raise (RuntimeError changed_size), st).
Proof.
  intros Hj Hne. rewrite (bb_glob_eq _ _ _ _ _ _ _ _ Hj).
  by rewrite decide_False.
Qed.

Lemma grown_bb_glob {B} st0 j glob used
    (body : B → PointCloud → M pstate B) :
  (∀ b bb s, grown st0 s → grown st0 (body b bb s).2) →
  ∀ names b st, grown st0 st →
    grown st0 (bb_glob j glob used names body b st).2.
Proof.
  intros Hbody. induction names as [|name names IH]; intros b st Hst.
  - destruct (images st !! j) as [im|] eqn:Hj.
    + rewrite (bb_glob_eq _ _ _ _ _ _ _ _ Hj). by destruct (decide _).
    + by rewrite (bb_glob_missing _ _ _ _ _ _ _ Hj).
  - destruct (images st !! j) as [im|] eqn:Hj.
    + rewrite (bb_glob_eq _ _ _ _ _ _ _ _ Hj).
      destruct (decide _); [|done].
      destruct (landmarks im !! name) as [v|]; [|done].
      destruct (fnmatch name glob); [|by apply IH].
      apply bind_preserves; [by apply Hbody|].
      intros b' s' Hs'. by apply IH.
    + by rewrite (bb_glob_missing _ _ _ _ _ _ _ Hj).
Qed.

(** *** Group names an image holds *)

Lemma holds_weaken j (names names' : gset string) st :
  names' ⊆ names → holds j names st → holds j names' st.
Proof. intros Hsub (im & Hj & Hnames). exists im. split; [done|set_solver]. Qed.

Lemma holds_set_landmark j names key shape st :
  holds j names st →
  holds j (names ∪ {[ key ]}) (set_landmark j key shape st).2.
Proof.
  intros (im & Hj & Hnames).
  unfold set_landmark, update_image, modify, holds. simpl.
  eexists. rewrite list_lookup_alter_eq, Hj. split; [done|]. simpl.
  rewrite dom_insert_L. set_solver.
Qed.

Lemma holds_set_landmark_keep j names key shape st :
  holds j names st → holds j names (set_landmark j key shape st).2.
Proof.
  intros H. apply (holds_weaken _ (names ∪ {[ key ]})); [set_solver|].
  by apply holds_set_landmark.
Qed.

(** An image that holds a name it did not hold has more groups. *)
Lemma holds_more j (im : Image Pixels) key st :
  key ∉ dom (landmarks im) →
  holds j (dom (landmarks im) ∪ {[ key ]}) st →
  ∃ im', images st !! j = Some im' ∧
    size (landmarks im') ≠ size (landmarks im).
Proof.
  intros Hkey (im' & Hj & Hsub). exists im'. split; [done|].
  apply subseteq_size in Hsub.
  rewrite size_union, size_singleton in Hsub by set_solver.
  rewrite !size_dom in Hsub. lia.
Qed.

Section with_perturb_func.
Variable perturb_func : PointCloud → PointCloud → M E PointCloud.

Lemma call_perturb_func_inv gt_s bb st p st' :
  call_perturb_func perturb_func gt_s bb st = (Ok p, st') →
  perturb_func gt_s bb (outside st) = (Ok p, outside st') ∧
  images st' = images st.
Proof.
  unfold call_perturb_func.
  destruct (perturb_func gt_s bb (outside st)) as [r e].
  by intros [= -> <-].
Qed.

Lemma grown_call_perturb_func st0 st gt_s bb :
  grown st0 st → grown st0 (call_perturb_func perturb_func gt_s bb st).2.
Proof.
  unfold call_perturb_func. by destruct (perturb_func gt_s bb (outside st)).
Qed.

Lemma grown_perturb_box st0 st n j gt_s bb k :
  grown st0 st → grown st0 (perturb_box perturb_func n j gt_s bb k st).2.
Proof.
  unfold perturb_box. apply foldM_preserves. intros k' _ s Hs.
  apply bind_preserves; [by apply grown_call_perturb_func|].
  intros p s' Hs'. apply bind_preserves; [by apply grown_set_landmark|].
  by intros.
Qed.

Lemma grown_perturb_boxes st0 st n bb_group_glob j gt_s k bb :
  grown st0 st →
  grown st0 (perturb_boxes perturb_func n bb_group_glob j gt_s k bb st).2.
Proof.
  intros Hst. unfold perturb_boxes.
  apply bind_preserves; [by apply grown_perturb_box|].
  intros k' s' Hs'. destruct bb_group_glob; [|done].
  apply bind_preserves; [by apply grown_set_landmark|]. by intros.
Qed.

Lemma grown_perturb_image st0 st n gt_group bb_group_glob j :
  grown st0 st →
  grown st0 (perturb_image perturb_func n gt_group bb_group_glob j st).2.
Proof.
  intros Hst. unfold perturb_image.
  apply bind_preserves.
  { apply keeps_state_preserves; [apply keeps_state_image_at|done]. }
  intros im s1 Hs1. apply bind_preserves; [done|].
  intros gt s2 Hs2. apply bind_preserves.
  { unfold bb_generator. apply bind_preserves.
    { apply keeps_state_preserves; [apply keeps_state_image_at|done]. }
    intros im' s3 Hs3. destruct bb_group_glob as [glob|].
    - apply grown_bb_glob; [|done].
      intros b bb s Hs. by apply grown_perturb_boxes.
    - apply bind_preserves; [done|]. intros s s4 Hs4.
      apply foldM_preserves; [|done].
      intros b bb s' Hs'. by apply grown_perturb_boxes. }
  intros k s4 Hs4. apply bind_preserves.
  { apply keeps_state_preserves; [apply keeps_state_image_at|done]. }
  intros im' s5 Hs5. destruct (has_landmarks_outside_bounds im'); [|done].
  by apply grown_constrain.
Qed.

(** *** Without a glob *)

Lemma call_perturb_func_stored j vs st0 st gt_s bb :
  stored j vs st0 st →
  stored j vs st0 (call_perturb_func perturb_func gt_s bb st).2.
Proof.
  unfold call_perturb_func. by destruct (perturb_func gt_s bb (outside st)).
Qed.

Lemma set_landmark_outside j key shape st :
  outside (set_landmark j key shape st).2 = outside st.
Proof. done. Qed.

Lemma perturb_fold_stored j gt_s bb st0 (xs : list nat) :
  ∀ vs st k' st',
  stored j vs st0 st →
  foldM (λ k _,
           p ← call_perturb_func perturb_func gt_s bb;
           let p_s := bounding_box p in
           set_landmark j (generated_bb k) p_s;;
           mret (k + 1)%nat) (length vs) xs st = (Ok k', st') →
  ∃ ps,
    perturbations perturb_func (length xs) gt_s bb (outside st)
      = (Ok ps, outside st') ∧
    length ps = length xs ∧
    stored j (vs ++ ps) st0 st' ∧ k' = length (vs ++ ps).
Proof.
  induction xs as [|x xs IH]; intros vs st k' st' Hst; cbn [foldM length].
  - intros [= <- <-]. exists []. rewrite app_nil_r.
    split; [done|]. split; [done|]. by split.
  - intros H. apply bind_inv_ok in H as (k1 & st1 & H1 & H).
    apply bind_inv_ok in H1 as (p & st2 & Hp & H1).
    apply bind_inv_ok in H1 as (u & st3 & Hset & H1).
    injection H1 as <- <-.
    assert (stored j (vs ++ [bounding_box p]) st0 st3) as Hst3.
    { pose proof (set_landmark_stored j vs st0 st2 (bounding_box p)) as Hs.
      rewrite Hset in Hs. apply Hs.
      pose proof (call_perturb_func_stored j vs st0 st gt_s bb Hst) as Hc.
      by rewrite Hp in Hc. }
    assert (outside st3 = outside st2) as Hout.
    { pose proof (set_landmark_outside j (generated_bb (length vs))
                    (bounding_box p) st2) as Ho. by rewrite Hset in Ho. }
    apply call_perturb_func_inv in Hp as [Hp _].
    replace (length vs + 1)%nat with (length (vs ++ [bounding_box p])) in H
      by (rewrite length_app; simpl; lia).
    destruct (IH _ _ _ _ Hst3 H) as (ps & Hps & Hlen & Hst' & ->).
    exists (bounding_box p :: ps). rewrite <- app_assoc in Hst' |- *.
    split; [|split; [simpl; lia|by split]].
    cbn [perturbations]. unfold mbind, M_bind, bind. rewrite Hp.
    rewrite <- Hout. unfold mbind, M_bind, bind in Hps. by rewrite Hps.
Qed.

Lemma perturb_image_none n gt_group j st st' :
  perturb_image perturb_func n gt_group None j st = (Ok tt, st') →
  ∃ im gt ws,
    images st !! j = Some im ∧
    landmarks_getitem (landmarks im) gt_group = Ok gt ∧
    perturbations perturb_func n (bounding_box gt) (bounding_box gt)
      (outside st) = (Ok ws, outside st') ∧
    length ws = n ∧
    length (images st') = length (images st) ∧
    (∀ j', j' ≠ j → images st' !! j' = images st !! j') ∧
    images st' !! j
      = Some (finished {| pixels := pixels im;
                          landmarks := written ws (landmarks im) |}).
Proof.
  intros H. unfold perturb_image in H.
  apply bind_inv_ok in H as (im & t1 & Him & H).
  apply bind_inv_ok in H as (gt & t2 & Hgt & H).
  apply bind_inv_ok in H as (k & t3 & Hloop & H).
  apply bind_inv_ok in H as (im2 & t4 & Him2 & H).
  destruct (images st !! j) as [im_|] eqn:Hj;
    [|by rewrite (image_at_missing _ _ Hj) in Him].
  rewrite (image_at_lookup _ _ _ Hj) in Him. injection Him as <- <-.
  unfold lift in Hgt.
  destruct (landmarks_getitem _ _) as [gt_|] eqn:Hlook; [|done].
  injection Hgt as <- <-.
  unfold bb_generator in Hloop.
  apply bind_inv_ok in Hloop as (im1 & t5 & Him1 & Hloop).
  rewrite (image_at_lookup _ _ _ Hj) in Him1. injection Him1 as <- <-.
  apply bind_inv_ok in Hloop as (s & t6 & Hs & Hloop).
  unfold lift in Hs. rewrite Hlook in Hs. injection Hs as <- <-.
  cbn [foldM] in Hloop.
  apply bind_inv_ok in Hloop as (k1 & t7 & Hbox & Hloop).
  injection Hloop as <- <-.
  unfold perturb_boxes in Hbox.
  apply bind_inv_ok in Hbox as (k2 & t8 & Hbox & Hret).
  injection Hret as <- <-.
  unfold perturb_box in Hbox.
  apply (perturb_fold_stored _ _ _ _ _ [] _ _ _ (stored_refl j _ _ Hj)) in Hbox
    as (ws & Hws & Hlen & Hst & _).
  rewrite length_seq in Hws, Hlen. simpl in Hst.
  destruct Hst as (Hl & Hother & im0 & im1 & H0 & H1 & Hpx & Hlm).
  rewrite Hj in H0. injection H0 as <-.
  rewrite (image_at_lookup _ _ _ H1) in Him2. injection Him2 as <- <-.
  assert (im1 = {| pixels := pixels im_;
                   landmarks := written ws (landmarks im_) |}) as Him1.
  { destruct im1. simpl in *. by subst. }
  exists im_, gt_, ws. split; [done|]. split; [done|].
  unfold finished. rewrite <- Him1.
  destruct (has_landmarks_outside_bounds im1) eqn:Hout.
  - unfold update_image, modify in H. injection H as <-. simpl.
    split; [done|]. split; [done|].
    split; [by rewrite length_alter|].
    split; [intros j' Hne; by rewrite list_lookup_alter_ne by done; apply Hother|].
    by rewrite list_lookup_alter_eq, H1.
  - injection H as <-. by repeat split.
Qed.

Lemma images_loop_none n gt_group :
  ∀ m a st st',
  foldM (λ _ j, perturb_image perturb_func n gt_group None j)
        tt (seq a m) st = (Ok tt, st') →
  ∃ es : list E,
    length es = S m ∧ es !! 0%nat = Some (outside st) ∧
    last es = Some (outside st') ∧
    length (images st') = length (images st) ∧
    (∀ j, (j < a ∨ a + m ≤ j)%nat → images st' !! j = images st !! j) ∧
    ∀ i im, (i < m)%nat → images st !! (a + i)%nat = Some im →
      ∃ gt e e' ws,
        landmarks_getitem (landmarks im) gt_group = Ok gt ∧
        es !! i = Some e ∧ es !! S i = Some e' ∧
        perturbations perturb_func n (bounding_box gt) (bounding_box gt) e
          = (Ok ws, e') ∧
        length ws = n ∧
        images st' !! (a + i)%nat
          = Some (finished {| pixels := pixels im;
                              landmarks := written ws (landmarks im) |}).
Proof.
  induction m as [|m IH]; intros a st st'; cbn [seq foldM].
  - intros [= <-]. exists [outside st]. repeat split; try done.
    intros i im Hi. lia.
  - intros H. apply bind_inv_ok in H as ([] & st1 & H1 & H).
    apply perturb_image_none in H1
      as (im & gt & ws & Hj & Hgt & Hws & Hlen & Hl & Hother & Hnew).
    apply IH in H as (es & Hes & Hes0 & Hlast & Hl' & Hout & Hin).
    exists (outside st :: es). split; [simpl; lia|]. split; [done|].
    split.
    { destruct es as [|e es]; [done|]. by rewrite last_cons_cons. }
    split; [congruence|]. split.
    { intros j Hj'. rewrite Hout by lia. apply Hother. lia. }
    intros [|i] im' Hi Him'.
    + rewrite Nat.add_0_r in Him' |- *. rewrite Hj in Him'.
      injection Him' as <-.
      exists gt, (outside st), (outside st1), ws.
      split; [done|]. split; [done|]. split; [done|]. split; [done|].
      split; [done|]. rewrite Hout by lia. done.
    + replace (a + S i)%nat with (S a + i)%nat in Him' |- * by lia.
      rewrite <- Hother in Him' by lia.
      destruct (Hin i im' ltac:(lia) Him')
        as (gt' & e & e' & ws' & H1 & H2 & H3 & H4 & H5 & H6).
      exists gt', e, e', ws'. by repeat split.
Qed.

Lemma generate_none n gt_group st st' :
  generate_perturbations_from_gt perturb_func n gt_group None st
    = (Ok tt, st') →
  ∃ es : list E,
    length es = S (length (images st)) ∧ es !! 0%nat = Some (outside st) ∧
    last es = Some (outside st') ∧
    length (images st') = length (images st) ∧
    ∀ j im, images st !! j = Some im →
      ∃ gt e e' ws,
        landmarks_getitem (landmarks im) gt_group = Ok gt ∧
        es !! j = Some e ∧ es !! S j = Some e' ∧
        perturbations perturb_func n (bounding_box gt) (bounding_box gt) e
          = (Ok ws, e') ∧
        length ws = n ∧
        images st' !! j
          = Some (finished {| pixels := pixels im;
                              landmarks := written ws (landmarks im) |}).
Proof.
  intros H. unfold generate_perturbations_from_gt in H.
  apply bind_inv_ok in H as (n_bbs & t1 & H1 & H).
  apply bind_inv_ok in H as (u & t2 & H2 & H).
  apply bind_inv_ok in H as (t3' & t3 & H3 & H).
  injection H1 as <- <-. simpl in H2. injection H2 as <-.
  injection H3 as <- <-. subst t2.
  apply images_loop_none in H as (es & Hes & Hes0 & Hlast & Hl & _ & Hin).
  exists es. split; [done|]. split; [done|]. split; [done|]. split; [done|].
  intros j im Hj. apply (Hin j im); [|done].
  by apply lookup_lt_Some in Hj.
Qed.

(** Without a glob, a call whose every ground-truth lookup succeeds and
    whose [perturb_func] raises nothing returns. *)
Lemma perturb_fold_returns j gt_s bb (xs : list nat) :
  (∀ gt_s bb e, is_ok (perturb_func gt_s bb e).1 = true) →
  ∀ k st,
  is_ok (foldM (λ k _,
           p ← call_perturb_func perturb_func gt_s bb;
           let p_s := bounding_box p in
           set_landmark j (generated_bb k) p_s;;
           mret (k + 1)%nat) k xs st).1 = true.
Proof.
  intros Htotal. induction xs as [|x xs IH]; intros k st; cbn [foldM]; [done|].
  unfold mbind at 1, M_bind at 1, bind at 1.
  unfold mbind at 1, M_bind at 1, bind at 1.
  unfold call_perturb_func at 1.
  specialize (Htotal gt_s bb (outside st)).
  destruct (perturb_func gt_s bb (outside st)) as [[p|e] e']; [|done].
  simpl. apply IH.
Qed.

Lemma perturb_image_none_returns n gt_group j st im :
  (∀ gt_s bb e, is_ok (perturb_func gt_s bb e).1 = true) →
  images st !! j = Some im →
  is_ok (landmarks_getitem (landmarks im) gt_group) = true →
  is_ok (perturb_image perturb_func n gt_group None j st).1 = true.
Proof.
  intros Htotal Hj Hgt.
  destruct (landmarks_getitem (landmarks im) gt_group) as [gt|] eqn:Hlook;
    [|done].
  unfold perturb_image, bb_generator.
  unfold mbind at 1, M_bind at 1, bind at 1.
  rewrite (image_at_lookup _ _ _ Hj).
  unfold mbind at 1, M_bind at 1, bind at 1, lift at 1. rewrite Hlook.
  unfold mbind at 1, M_bind at 1, bind at 1.
  unfold mbind at 1, M_bind at 1, bind at 1.
  rewrite (image_at_lookup _ _ _ Hj).
  unfold mbind at 1, M_bind at 1, bind at 1, lift at 1. rewrite Hlook.
  cbn [foldM]. unfold perturb_boxes, perturb_box.
  unfold mbind at 1, M_bind at 1, bind at 1.
  unfold mbind at 1, M_bind at 1, bind at 1.
  pose proof (perturb_fold_returns j (bounding_box gt) (bounding_box gt)
                (seq 0 n) Htotal 0%nat st) as Hfold.
  pose proof (grown_perturb_box st st n j (bounding_box gt)
                (bounding_box gt) 0 (grown_refl st)) as Hgrown.
  unfold perturb_box in Hgrown.
  destruct (foldM _ 0%nat (seq 0 n) st) as [[k|e] st1]; [|done].
  simpl in Hgrown. unfold mret at 1 2, M_ret, ret.
  destruct Hgrown as [_ Hims].
  destruct (Hims j im Hj) as (im1 & Hj1 & _).
  unfold mbind at 1, M_bind at 1, bind at 1.
  rewrite (image_at_lookup _ _ _ Hj1).
  by destruct (has_landmarks_outside_bounds im1).
Qed.

Lemma images_loop_none_returns n gt_group :
  (∀ gt_s bb e, is_ok (perturb_func gt_s bb e).1 = true) →
  ∀ m a st,
  (a + m ≤ length (images st))%nat →
  (∀ j im, (a ≤ j)%nat → images st !! j = Some im →
     is_ok (landmarks_getitem (landmarks im) gt_group) = true) →
  is_ok (foldM (λ _ j, perturb_image perturb_func n gt_group None j)
           tt (seq a m) st).1 = true.
Proof.
  intros Htotal. induction m as [|m IH]; intros a st Hlen Hgt;
    cbn [seq foldM]; [done|].
  destruct (lookup_lt_is_Some_2 (images st) a) as [im Hj]; [lia|].
  pose proof (perturb_image_none_returns n gt_group a st im Htotal Hj
                (Hgt a im (le_n a) Hj)) as Hret.
  unfold mbind, M_bind, bind.
  destruct (perturb_image perturb_func n gt_group None a st)
    as [[[]|e] st1] eqn:H1; [|done].
  apply perturb_image_none in H1
    as (_ & _ & _ & _ & _ & _ & _ & Hl & Hother & _).
  apply IH; [lia|]. intros j im' Hj' Him'. apply (Hgt j); [lia|].
  rewrite <- Hother; [done|lia].
Qed.

Lemma generate_none_returns n gt_group st :
  (∀ gt_s bb e, is_ok (perturb_func gt_s bb e).1 = true) →
  (∀ j im, images st !! j = Some im →
     is_ok (landmarks_getitem (landmarks im) gt_group) = true) →
  is_ok (generate_perturbations_from_gt perturb_func n gt_group None st).1
    = true.
Proof.
  intros Htotal Hgt. unfold generate_perturbations_from_gt.
  unfold mbind at 1, M_bind at 1, bind at 1. unfold mret at 1, M_ret, ret.
  unfold mbind at 1, M_bind at 1, bind at 1. simpl.
  unfold mbind at 1, M_bind at 1, bind at 1, get.
  apply images_loop_none_returns; [done|simpl; lia|].
  intros j im _. apply Hgt.
Qed.

(** *** With a glob *)

Lemma holds_call_perturb_func j names gt_s bb st :
  holds j names st →
  holds j names (call_perturb_func perturb_func gt_s bb st).2.
Proof.
  unfold call_perturb_func. by destruct (perturb_func gt_s bb (outside st)).
Qed.

Lemma holds_perturb_fold j names gt_s bb (xs : list nat) k st :
  holds j names st →
  holds j names
    (foldM (λ k _,
              p ← call_perturb_func perturb_func gt_s bb;
              let p_s := bounding_box p in
              set_landmark j (generated_bb k) p_s;;
              mret (k + 1)%nat) k xs st).2.
Proof.
  revert k st. apply foldM_preserves. intros k' _ s Hs.
  apply bind_preserves; [by apply holds_call_perturb_func|].
  intros p s' Hs'. apply bind_preserves; [by apply holds_set_landmark_keep|].
  by intros.
Qed.

(** A pass of the loop over the source boxes that comes to its end has
    written under the name its counter stood at. *)
Lemma perturb_boxes_holds n glob j gt_s k bb names st k' st' :
  holds j names st →
  perturb_boxes perturb_func n (Some glob) j gt_s k bb st = (Ok k', st') →
  holds j (names ∪ {[ generated_bb k ]}) st'.
Proof.
  intros Hst H. unfold perturb_boxes in H.
  apply bind_inv_ok in H as (k1 & st1 & Hbox & H).
  apply bind_inv_ok in H as (u & st2 & Hset & H).
  injection H as <- <-.
  unfold perturb_box in Hbox. destruct n as [|n].
  - injection Hbox as <- <-.
    pose proof (holds_set_landmark j names (generated_bb k) bb st Hst) as Hs.
    by rewrite Hset in Hs.
  - cbn [seq foldM] in Hbox.
    apply bind_inv_ok in Hbox as (k2 & st3 & Hfirst & Hrest).
    apply bind_inv_ok in Hfirst as (p & st4 & Hp & Hfirst).
    apply bind_inv_ok in Hfirst as (u' & st5 & Hset' & Hfirst).
    injection Hfirst as <- <-.
    assert (holds j (names ∪ {[ generated_bb k ]}) st5) as H5.
    { pose proof (holds_set_landmark j names (generated_bb k)
                    (bounding_box p) st4) as Hs.
      rewrite Hset' in Hs. apply Hs.
      pose proof (holds_call_perturb_func j names gt_s bb st Hst) as Hc.
      by rewrite Hp in Hc. }
    pose proof (holds_perturb_fold j _ gt_s bb (seq 1 n) (k + 1) st5 H5) as H1.
    cbv beta zeta in Hrest, H1. rewrite Hrest in H1. simpl in H1.
    pose proof (holds_set_landmark_keep j _ (generated_bb k1) bb st1 H1) as H2.
    by rewrite Hset in H2.
Qed.

(** On an image that does not hold [__generated_bb_0], the loop over the
    boxes of a glob does not come to its end once a group has matched: the
    first pass writes a new name, and the generator raises at its next
    step. *)
Lemma bb_glob_first_box n glob glob' j gt_s st im :
  images st !! j = Some im →
  generated_bb 0 ∉ dom (landmarks im) →
  ∀ names,
  (∃ name, name ∈ names ∧ fnmatch name glob = true) →
  is_ok (bb_glob j glob (size (landmarks im)) names
           (perturb_boxes perturb_func n (Some glob') j gt_s) 0%nat st).1
    = false.
Proof.
  intros Hj Hfresh. induction names as [|name names IH];
    intros (name' & Hin & Hmatch).
  { by apply elem_of_nil in Hin. }
  rewrite (bb_glob_eq _ _ _ _ _ _ _ _ Hj), decide_True by done.
  destruct (landmarks im !! name) as [v|]; [|done].
  destruct (fnmatch name glob) eqn:Hm.
  - unfold mbind, M_bind, bind.
    destruct (perturb_boxes perturb_func n (Some glob') j gt_s 0
                (bounding_box v) st) as [[k'|e] st'] eqn:Hbody; [|done].
    apply (perturb_boxes_holds _ _ _ _ _ _ (dom (landmarks im))) in Hbody;
      [|by exists im].
    apply (holds_more _ _ _ _ Hfresh) in Hbody as (im' & Hj' & Hsize).
    by rewrite (bb_glob_changed _ _ _ _ _ _ _ _ Hj' Hsize).
  - apply IH. exists name'. split; [|done].
    apply elem_of_cons in Hin as [->|Hin]; [congruence|done].
Qed.

Lemma perturb_image_glob_raises n gt_group glob j st im :
  images st !! j = Some im →
  generated_bb 0 ∉ dom (landmarks im) →
  items_matching glob (landmarks im) ≠ [] →
  is_ok (perturb_image perturb_func n gt_group (Some glob) j st).1 = false.
Proof.
  intros Hj Hfresh Hsome. unfold perturb_image, bb_generator.
  unfold mbind at 1, M_bind at 1, bind at 1.
  rewrite (image_at_lookup _ _ _ Hj).
  unfold mbind at 1, M_bind at 1, bind at 1, lift at 1.
  destruct (landmarks_getitem (landmarks im) gt_group) as [gt|]; [|done].
  unfold mbind at 1, M_bind at 1, bind at 1.
  unfold mbind at 1, M_bind at 1, bind at 1.
  rewrite (image_at_lookup _ _ _ Hj).
  pose proof (bb_glob_first_box n glob glob j (bounding_box gt) st im Hj
                Hfresh (map_to_list (landmarks im)).*1) as Hraise.
  destruct (bb_glob _ _ _ _ _ _ st) as [[k|e] st1]; [|done].
  simpl in Hraise. exfalso. enough (true = false) by done. apply Hraise.
  unfold items_matching in Hsome.
  destruct (filter _ (map_to_list (landmarks im))) as [|[k' v] l] eqn:Hf;
    [done|].
  assert ((k', v) ∈ filter (λ kv : string * PointCloud,
                              fnmatch kv.1 glob = true)
                       (map_to_list (landmarks im))) as Hin.
  { rewrite Hf. apply elem_of_cons. by left. }
  apply list_elem_of_filter in Hin as [Hm Hin]. exists k'. split; [|done].
  apply list_elem_of_fmap. by exists (k', v).
Qed.

Lemma generate_glob_raises n gt_group glob st im0 :
  images st !! 0%nat = Some im0 →
  generated_bb 0 ∉ dom (landmarks im0) →
  is_ok (generate_perturbations_from_gt perturb_func n gt_group (Some glob)
           st).1 = false.
Proof.
  intros H0 Hfresh. unfold generate_perturbations_from_gt.
  unfold mbind at 1, M_bind at 1, bind at 1.
  rewrite (count_boxes gt_group glob st im0 H0).
  unfold mbind at 1, M_bind at 1, bind at 1.
  destruct (decide (n_boxes (Some glob) im0 = 0%nat)) as [|Hn]; [done|].
  unfold mret at 1, M_ret, ret.
  unfold mbind at 1, M_bind at 1, bind at 1, get.
  assert (∃ m, seq 0 (length (images st)) = 0%nat :: seq 1 m) as [m ->].
  { destruct (images st) as [|im ims]; [done|]. by exists (length ims). }
  cbn [foldM]. unfold mbind at 1, M_bind at 1, bind at 1.
  pose proof (perturb_image_glob_raises n gt_group glob 0 st im0 H0 Hfresh)
    as Hraise.
  destruct (perturb_image perturb_func n gt_group (Some glob) 0 st)
    as [[[]|e] st1]; [|done].
  simpl in Hraise. exfalso. enough (true = false) by done. apply Hraise.
  unfold n_boxes in Hn. by destruct (items_matching glob (landmarks im0)).
Qed.

(** *** The statements *)

(** C8.  When the glob matches no group of the first image, the call raises
    the [ValueError] of line 519 and the state is as before the call: no
    landmark mapping has been written to (and [perturb_func] has not been
    called). *)
Theorem unmatched_glob_raises_before_any_write n gt_group glob st im0 :
  images st !! 0%nat = Some im0 →
  items_matching glob (landmarks im0) = [] →
  generate_perturbations_from_gt perturb_func n gt_group (Some glob) st
    = (Raise (ValueError (no_box_matched +:+ glob)), st).
Proof.
  intros H0 Hm. unfold generate_perturbations_from_gt.
  unfold mbind at 1, M_bind at 1, bind at 1.
  rewrite (count_boxes gt_group glob st im0 H0).
  unfold n_boxes. rewrite Hm. simpl. done.
Qed.

(** X20.  Without a glob.  A call returns when the ground-truth group is found
    on every image and [perturb_func] raises nothing.  When it returns,
    every image is what lines 550-551 make of the image it was with [N]
    shapes [ws] stored under [__generated_bb_0], ..., [__generated_bb_{N-1}]
    (every other group holds what it held, the pixels are the same; then
    all groups are clamped to the bounds of the image when one of them lies
    outside), and [ws] are the bounding boxes of the shapes that [N]
    successive calls [perturb_func(gt_s, gt_s)] return, [gt_s] being the
    bounding box of the ground truth of the image: the calls for an image
    start from the state of [perturb_func] that the calls for the image
    before have left, those for the first image from the state at the
    call. *)
Theorem generated_groups_hold_the_boxes n gt_group st :
  let out := generate_perturbations_from_gt perturb_func n gt_group None st in
  ((∀ gt_s bb e, is_ok (perturb_func gt_s bb e).1 = true) →
   (∀ j im, images st !! j = Some im →
      is_ok (landmarks_getitem (landmarks im) gt_group) = true) →
   is_ok out.1 = true) ∧
  (is_ok out.1 = true →
   ∃ es : list E,
     length es = S (length (images st)) ∧
     es !! 0%nat = Some (outside st) ∧ last es = Some (outside out.2) ∧
     length (images out.2) = length (images st) ∧
     ∀ j im, images st !! j = Some im →
       ∃ gt e e' ws,
         landmarks_getitem (landmarks im) gt_group = Ok gt ∧
         es !! j = Some e ∧ es !! S j = Some e' ∧
         perturbations perturb_func n (bounding_box gt) (bounding_box gt) e
           = (Ok ws, e') ∧
         length ws = n ∧
         images out.2 !! j
           = Some (finished {| pixels := pixels im;
                               landmarks := written ws (landmarks im) |}) ∧
         (∀ k, (k < n)%nat →
            written ws (landmarks im) !! generated_bb k = ws !! k) ∧
         (∀ key, key ∉ generated_names n →
            written ws (landmarks im) !! key = landmarks im !! key)).
Proof.
  intros out. subst out. split; [apply generate_none_returns|].
  intros Hok.
  destruct (generate_perturbations_from_gt _ _ _ _ st) as [[[]|e] st'] eqn:H;
    [|done].
  apply generate_none in H as (es & Hes & Hes0 & Hlast & Hl & Hin).
  exists es. split; [done|]. split; [done|]. split; [done|]. split; [done|].
  intros j im Hj.
  destruct (Hin j im Hj) as (gt & e & e' & ws & H1 & H2 & H3 & H4 & H5 & H6).
  exists gt, e, e', ws. split; [done|]. split; [done|]. split; [done|].
  split; [done|]. split; [done|]. split; [done|]. subst n. split.
  - intros k Hk. by apply written_lookup.
  - intros key Hkey. by apply written_lookup_other.
Qed.

(** X21.  The ground-truth shape is looked up on every image (line 535), whether
    or not the boxes come from a glob.  When that lookup fails on the first
    image (a missing [gt_group]; or [gt_group=None] on an image that holds
    several groups, as every image with a box group besides its annotation
    does), the call raises the exception of the lookup, and nothing has
    been written: the images and the state of [perturb_func] are as
    before. *)
Theorem missing_ground_truth_raises_before_any_write
    n gt_group bb_group_glob st im0 e :
  images st !! 0%nat = Some im0 →
  n_boxes bb_group_glob im0 ≠ 0%nat →
  landmarks_getitem (landmarks im0) gt_group = Raise e →
  generate_perturbations_from_gt perturb_func n gt_group bb_group_glob st
    = (Raise e, st).
Proof.
  intros H0 Hn Hgt.
  assert (perturb_image perturb_func n gt_group bb_group_glob 0 st
          = (Raise e, st)) as Hfirst.
  { unfold perturb_image. unfold mbind at 1, M_bind at 1, bind at 1.
    rewrite (image_at_lookup _ _ _ H0).
    unfold mbind at 1, M_bind at 1, bind at 1, lift at 1. by rewrite Hgt. }
  assert (∃ m, seq 0 (length (images st)) = 0%nat :: seq 1 m) as [m Hseq].
  { destruct (images st) as [|im ims]; [done|]. by exists (length ims). }
  unfold generate_perturbations_from_gt.
  destruct bb_group_glob as [glob|].
  - unfold mbind at 1, M_bind at 1, bind at 1.
    rewrite (count_boxes gt_group glob st im0 H0).
    unfold mbind at 1, M_bind at 1, bind at 1.
    rewrite decide_False by done. unfold mret at 1, M_ret, ret.
    unfold mbind at 1, M_bind at 1, bind at 1, get.
    rewrite Hseq. cbn [foldM].
    by rewrite (bind_raise _ _ _ _ _ Hfirst).
  - unfold mbind at 1, M_bind at 1, bind at 1. unfold mret at 1, M_ret, ret.
    unfold mbind at 1, M_bind at 1, bind at 1. simpl.
    unfold mbind at 1, M_bind at 1, bind at 1, get.
    rewrite Hseq. cbn [foldM].
    by rewrite (bind_raise _ _ _ _ _ Hfirst).
Qed.

(** X22.  An empty list of images: without a glob the call returns at once,
    with a glob it raises [IndexError] (line 516 reads [images[0]]); in
    both cases [perturb_func] is not called. *)
Theorem no_image_no_work n gt_group st :
  images st = [] →
  generate_perturbations_from_gt perturb_func n gt_group None st
    = (Ok tt, st) ∧
  ∀ glob,
    generate_perturbations_from_gt perturb_func n gt_group (Some glob) st
      = (Raise IndexError, st).
Proof.
  intros Hims.
  unfold generate_perturbations_from_gt, bb_generator, image_at, getitem,
    index.
  split; [|intros glob]; unfold_monad; simpl; rewrite Hims; simpl.
  - done.
  - done.
Qed.

(** X23.  Whatever the outcome of the call, return or exception: the list of
    images has the length it had, every image has its pixels and every
    group name it had, and every group name it has gained is a generated
    name [__generated_bb_k]. *)
Theorem groups_are_only_added n gt_group bb_group_glob st :
  grown st (generate_perturbations_from_gt perturb_func n gt_group
              bb_group_glob st).2.
Proof.
  unfold generate_perturbations_from_gt.
  apply bind_preserves.
  { destruct bb_group_glob as [glob|]; [|apply grown_refl].
    apply bind_preserves; [|done]. unfold bb_generator.
    apply bind_preserves.
    { apply keeps_state_preserves;
        [apply keeps_state_image_at|apply grown_refl]. }
    intros im s Hs. by apply grown_bb_glob. }
  intros n_bbs s1 Hs1. apply bind_preserves.
  { apply keeps_state_preserves; [|done]. by keeps_state. }
  intros u s2 Hs2. apply bind_preserves; [done|].
  intros s3' s3 Hs3. apply foldM_preserves; [|done].
  intros _ j s Hs. by apply grown_perturb_image.
Qed.

(** X24.  The accessor returned by the call.  Given that [fnmatch] matches every
    generated name with [__generated_bb_*], on an image none of whose
    groups matched that glob before the call, the accessor returns, after
    a call without a glob that returns, exactly [N] shapes, and each of
    them is the shape of one of the groups [__generated_bb_0], ...,
    [__generated_bb_{N-1}] of the image. *)
Theorem accessor_returns_the_generated_boxes n gt_group st :
  (∀ k, fnmatch (generated_bb k) "__generated_bb_*" = true) →
  let out := generate_perturbations_from_gt perturb_func n gt_group None st in
  is_ok out.1 = true →
  ∀ j im, images st !! j = Some im →
    generated_bb_func im = [] →
    ∃ im', images out.2 !! j = Some im' ∧
      length (generated_bb_func im') = n ∧
      ∀ s, s ∈ generated_bb_func im' →
        ∃ k, (k < n)%nat ∧ landmarks im' !! generated_bb k = Some s.
Proof.
  intros Hmatch out Hok j im Hj Hnone. subst out.
  destruct (generate_perturbations_from_gt _ _ _ _ st) as [[[]|e] st'] eqn:H;
    [|done].
  apply generate_none in H as (es & _ & _ & _ & _ & Hin).
  destruct (Hin j im Hj) as (gt & e & e' & ws & _ & _ & _ & _ & Hlen & Him').
  eexists. split; [done|].
  apply generated_bb_func_nil in Hnone.
  pose proof (generated_bb_func_written ws (landmarks im) (pixels im)
                Hmatch Hnone) as Hperm.
  split.
  - unfold finished. destruct has_landmarks_outside_bounds.
    + rewrite generated_bb_func_constrain, length_fmap.
      by rewrite (Permutation_length Hperm).
    + by rewrite (Permutation_length Hperm).
  - intros s Hs. unfold generated_bb_func in Hs.
    apply list_elem_of_fmap in Hs as ([key v] & -> & Hkv).
    unfold items_matching in Hkv.
    apply list_elem_of_filter in Hkv as [Hm Hkv].
    apply elem_of_map_to_list in Hkv. simpl in *.
    assert (key ∈ dom (landmarks im) ∪ generated_names n) as Hkey.
    { apply elem_of_dom_2 in Hkv. rewrite dom_finished in Hkv. simpl in Hkv.
      by rewrite dom_written, Hlen in Hkv. }
    apply elem_of_union in Hkey as [Hkey|Hkey].
    + exfalso. apply elem_of_dom in Hkey as [v' Hv'].
      assert ((key, v') ∈ items_matching "__generated_bb_*" (landmarks im))
        as Hin'.
      { unfold items_matching.
        rewrite list_elem_of_filter, elem_of_map_to_list. by split. }
      rewrite Hnone in Hin'. by apply elem_of_nil in Hin'.
    + apply elem_of_generated_names in Hkey as (k & Hk & ->). eauto.
Qed.

(** Without a glob, an image that comes out of a call that returns has its
    pixels and has gained the names [__generated_bb_0], ...,
    [__generated_bb_{N-1}]. *)
Lemma generate_none_names n gt_group st :
  let out := generate_perturbations_from_gt perturb_func n gt_group None st in
  is_ok out.1 = true →
  ∀ j im, images st !! j = Some im →
    ∃ im', images out.2 !! j = Some im' ∧ pixels im' = pixels im ∧
      dom (landmarks im') = dom (landmarks im) ∪ generated_names n ∧
      size (generated_names n) = n ∧
      (generated_names n ## dom (landmarks im) →
       size (dom (landmarks im') ∖ dom (landmarks im)) = n).
Proof.
  intros out Hok j im Hj. subst out.
  destruct (generate_perturbations_from_gt _ _ _ _ st) as [[[]|e] st'] eqn:H;
    [|done].
  apply generate_none in H as (es & _ & _ & _ & _ & Hin).
  destruct (Hin j im Hj) as (gt & e & e' & ws & _ & _ & _ & _ & Hlen & Him').
  eexists. split; [done|]. rewrite pixels_finished, dom_finished. simpl.
  rewrite dom_written, Hlen. split; [done|]. split; [done|].
  split; [apply size_generated_names|].
  intros Hdisj.
  replace ((dom (landmarks im) ∪ generated_names n) ∖ dom (landmarks im))
    with (generated_names n) by set_solver.
  apply size_generated_names.
Qed.

End with_perturb_func.
End perturbation_facts.

Section perturbation_witnesses.
Import Perturbations Planar Samples.

(** A closed statement that can be decided is settled by evaluation. *)
Ltac decided :=
  match goal with |- ?P => apply (bool_decide_eq_true_1 P) end;
  vm_compute; reflexivity.

(** C7.  Without a glob the claim holds: a call returns when the ground-truth
    group is found on every image and [perturb_func] raises nothing, and
    when it returns every image has kept its pixels and the group names it
    had and has gained exactly the names [__generated_bb_0], ...,
    [__generated_bb_{N-1}], which are [N] distinct names.  With a glob the
    code does not do what it announces: on a first image that does not
    hold [__generated_bb_0] already, no call returns, whatever the number
    of matching groups -- the first pass over a source box writes new
    groups into the mapping that the generator of the source boxes is
    still reading, and the next step of the generator raises
    [RuntimeError].  So on a first image with two boxes and [N = 2], where
    [2 * 2 + 2 = 6] groups are announced, the call raises with three
    groups written on the first image ([N] perturbed boxes and the first
    source box) and none on the second. *)
Theorem glob_loop_stops_after_the_first_box :
  (∀ `{IO : ImageOps} {E : Type}
     (perturb_func : PointCloud → PointCloud → M E PointCloud)
     n gt_group (st : pstate (E := E)),
     let out :=
       generate_perturbations_from_gt perturb_func n gt_group None st in
     ((∀ gt_s bb e, is_ok (perturb_func gt_s bb e).1 = true) →
      (∀ j im, images st !! j = Some im →
         is_ok (landmarks_getitem (landmarks im) gt_group) = true) →
      is_ok out.1 = true) ∧
     (is_ok out.1 = true →
      ∀ j im, images st !! j = Some im →
        ∃ im', images out.2 !! j = Some im' ∧ pixels im' = pixels im ∧
          dom (landmarks im') = dom (landmarks im) ∪ generated_names n ∧
          size (generated_names n) = n ∧
          (generated_names n ## dom (landmarks im) →
           size (dom (landmarks im') ∖ dom (landmarks im)) = n))) ∧
  (∀ `{IO : ImageOps} {E : Type}
     (perturb_func : PointCloud → PointCloud → M E PointCloud)
     n gt_group glob (st : pstate (E := E)) im0,
     images st !! 0%nat = Some im0 →
     generated_bb 0 ∉ dom (landmarks im0) →
     is_ok (generate_perturbations_from_gt perturb_func n gt_group
              (Some glob) st).1 = false) ∧
  (let out :=
     generate_perturbations_from_gt (MP := planar) (IO := pictures) drift 2
       (Some "PTS") (Some "bb_*") (generating [boxed; annotated]) in
   n_boxes (IO := pictures) (Some "bb_*") boxed = 2%nat ∧
   n_generated (IO := pictures) 2 (Some "bb_*") boxed = 6%nat ∧
   out.1 = Raise (RuntimeError changed_size) ∧
   (λ im : picture, dom (landmarks im)) <$> images out.2
     = [dom (landmarks boxed) ∪ generated_names 3;
        dom (landmarks annotated)]).
Proof.
  split; [|split].
  - intros MP IO E perturb_func n gt_group st out. split.
    + apply generate_none_returns.
    + apply generate_none_names.
  - intros MP IO E perturb_func n gt_group glob st im0.
    apply generate_glob_raises.
  - split; [vm_compute; reflexivity|]. split; [vm_compute; reflexivity|].
    split; [vm_compute; reflexivity|]. decided.
Qed.

Lemma unmatched_glob_raises_before_any_write_witness :
  generate_perturbations_from_gt (MP := planar) (IO := pictures) drift 2 (Some "PTS") (Some "bb_*")
    (generating [annotated; boxed])
  = (Raise (ValueError (no_box_matched +:+ "bb_*")),
     generating [annotated; boxed]).
Proof.
  apply (unmatched_glob_raises_before_any_write (IO := pictures) drift 2
           (Some "PTS") "bb_*" (generating [annotated; boxed]) annotated).
  - reflexivity.
  - vm_compute. reflexivity.
Defined.

Lemma glob_star name : glob [Ascii.ascii_of_nat 42] name = true.
Proof.
  cbn [glob]. rewrite decide_True by done.
  induction name as [|c name IH]; [done|]. cbn [glob]. exact IH.
Qed.

Lemma glob_literal c pattern name :
  c ≠ Ascii.ascii_of_nat 42 →
  glob (c :: pattern) (c :: name) = glob pattern name.
Proof.
  intros Hc. cbn [glob]. rewrite decide_False by done.
  rewrite (bool_decide_eq_true_2 (c = c)) by done.
  by rewrite orb_true_r.
Qed.

Lemma list_ascii_of_string_app a b :
  String.list_ascii_of_string (a +:+ b)
  = String.list_ascii_of_string a ++ String.list_ascii_of_string b.
Proof. induction a as [|c a IH]; [done|]. simpl. by rewrite IH. Qed.

(** The planar [fnmatch] matches every generated name with the glob of the
    accessor. *)
Lemma pictures_match_generated k :
  fnmatch (ImageOps := pictures) (generated_bb k) "__generated_bb_*" = true.
Proof.
  unfold fnmatch, pictures, generated_bb. rewrite list_ascii_of_string_app.
  cbn [String.list_ascii_of_string app].
  rewrite !glob_literal by done. apply glob_star.
Qed.

Lemma generated_groups_hold_the_boxes_witness :
  let out :=
    generate_perturbations_from_gt (MP := planar) (IO := pictures) drift 2
      (Some "PTS") None (generating [boxed; annotated]) in
  is_ok out.1 = true ∧
  ∃ es : list nat,
    length es = 3%nat ∧
    es !! 0%nat = Some 0%nat ∧ last es = Some (outside out.2) ∧
    length (images out.2) = 2%nat ∧
    ∀ j (im : picture), [boxed; annotated] !! j = Some im →
      ∃ (gt : cloud) (e e' : nat) (ws : list cloud),
        landmarks_getitem (MP := planar) (landmarks im) (Some "PTS") = Ok gt ∧
        es !! j = Some e ∧ es !! S j = Some e' ∧
        perturbations (MP := planar) drift 2 (cloud_bounding_box gt)
          (cloud_bounding_box gt) e = (Ok ws, e') ∧
        length ws = 2%nat ∧
        images out.2 !! j
          = Some (finished (IO := pictures)
                    (@Build_Image planar (Qc * Qc) (pixels im)
                       (written (MP := planar) ws (landmarks im)))) ∧
        (∀ k, (k < 2)%nat →
           written (MP := planar) ws (landmarks im) !! generated_bb k
           = ws !! k) ∧
        (∀ key, key ∉ generated_names 2 →
           written (MP := planar) ws (landmarks im) !! key
           = landmarks im !! key).
Proof.
  intros out.
  destruct (generated_groups_hold_the_boxes (IO := pictures) drift 2
              (Some "PTS") (generating [boxed; annotated]))
    as [Hlive Hshape].
  assert (is_ok out.1 = true) as Hok.
  { apply Hlive; [done|].
    intros [|[|j]] im; simpl; intros [= <-]; reflexivity. }
  split; [exact Hok|exact (Hshape Hok)].
Defined.

Lemma missing_ground_truth_raises_before_any_write_witness :
  generate_perturbations_from_gt (MP := planar) (IO := pictures) drift 2
    None (Some "bb_*") (generating [boxed; annotated])
  = (Raise (ValueError no_single_group), generating [boxed; annotated]).
Proof.
  apply (missing_ground_truth_raises_before_any_write (IO := pictures) drift 2
           None (Some "bb_*") (generating [boxed; annotated]) boxed).
  - reflexivity.
  - vm_compute. lia.
  - vm_compute. reflexivity.
Defined.

Lemma no_image_no_work_witness :
  generate_perturbations_from_gt (MP := planar) (IO := pictures) drift 2
    (Some "PTS") None (generating []) = (Ok tt, generating []) ∧
  ∀ glob,
    generate_perturbations_from_gt (MP := planar) (IO := pictures) drift 2
      (Some "PTS") (Some glob) (generating [])
    = (Raise IndexError, generating []).
Proof.
  apply (no_image_no_work (IO := pictures) drift 2 (Some "PTS")
           (generating [])).
  reflexivity.
Defined.

Lemma accessor_returns_the_generated_boxes_witness :
  ∃ im' : picture,
    images (generate_perturbations_from_gt (MP := planar) (IO := pictures)
              drift 2 (Some "PTS") None
              (generating [boxed; annotated])).2 !! 0%nat = Some im' ∧
    length (generated_bb_func (IO := pictures) im') = 2%nat ∧
    ∀ s : cloud, s ∈ generated_bb_func (IO := pictures) im' →
      ∃ k, (k < 2)%nat ∧ landmarks im' !! generated_bb k = Some s.
Proof.
  apply (accessor_returns_the_generated_boxes (IO := pictures) drift 2
           (Some "PTS") (generating [boxed; annotated])
           pictures_match_generated eq_refl 0%nat boxed eq_refl).
  vm_compute. reflexivity.
Defined.

End perturbation_witnesses.
